(** * Decoding control flow of [DecoderRNN] (model/LSTMDecoderLM.py)

    A shallow embedding of the decoder's [forward], [forward_step],
    [_validate_args], [_init_state] and of the two closures [decode] and
    [getTopkIndsnScores], followed by the properties established about them.

    Conventions of the embedding.
    - A tensor of rank n is a list nested n times; its entries are rationals
      ([Q]) standing for the floating-point numbers of the source.  Sizes
      along a dimension are lengths; [size1] reads the width of a rank-2
      (or higher) tensor from its first row.
    - Python exceptions are values of [Error]; a computation that may raise
      lives in [Result].
    - The learned layers ([embedding], [input_dropout], [rnn], [attention],
      [out]) are fields of the model record, as they are attributes of
      [self]; they are arbitrary functions on tensors.
    - [torch.log] and the draw of [random.random()] are inputs. *)

From Stdlib Require Import String.
From Stdlib Require Import List ZArith QArith Lia Bool Permutation Arith Sorted.
Import ListNotations.


(** ** Exceptions and the error monad *)

Inductive Error : Type :=
| ValueError (msg : string)
| TypeError (msg : string)
| IndexError (msg : string)
| AttributeError (msg : string)
| RuntimeError (msg : string).

Inductive Result (A : Type) : Type :=
| Ok (a : A)
| Err (e : Error).

Arguments Ok {A} a.
Arguments Err {A} e.

Definition bind {A B : Type} (c : Result A) (k : A -> Result B) : Result B :=
  match c with
  | Ok a => k a
  | Err e => Err e
  end.

Notation "'do' x <- c ; k" := (bind c (fun x => k))
  (at level 10, x name, c at level 100, k at level 200).
Notation "'do' ' p <- c ; k" := (bind c (fun x => match x with p => k end))
  (at level 10, p pattern, c at level 100, k at level 200).

Fixpoint mapM {A B : Type} (f : A -> Result B) (l : list A) : Result (list B) :=
  match l with
  | [] => Ok []
  | x :: l' => do y <- f x; do ys <- mapM f l'; Ok (y :: ys)
  end.

(** The two messages raised by [_validate_args]; the specification calls
    these failures InvalidConfiguration. *)
Definition msg_attention : string :=
  "Argument encoder_outputs cannot be None when attention is used.".
Definition msg_teacher_forcing : string :=
  "Teacher forcing has to be disabled (set 0) when no inputs is provided.".

Definition InvalidConfiguration (e : Error) : Prop :=
  e = ValueError msg_attention \/ e = ValueError msg_teacher_forcing.

Definition msg_none_subscript : string := "'NoneType' object is not subscriptable".
Definition msg_broadcast : string := "operands could not be broadcast together".
Definition msg_bool_index : string := "boolean index did not match indexed array".
Definition msg_index : string := "index out of range".
Definition msg_shape : string := "shape is invalid for input".
Definition msg_scatter : string := "index out of bounds in scatter_".
Definition msg_topk : string := "selected index k out of range".
Definition msg_stack : string := "stack expects a non-empty TensorList".
Definition msg_state : string := "recurrent state is not an (h, c) pair".
Definition msg_tuple_size : string := "'tuple' object has no attribute 'size'".
Definition msg_cat : string := "Sizes of tensors must match".

(** ** Tensors *)

Abbreviation T1 := (list Q) (only parsing).
Abbreviation T2 := (list (list Q)) (only parsing).
Abbreviation T3 := (list (list (list Q))) (only parsing).
Abbreviation T4 := (list (list (list (list Q)))) (only parsing).

(** A decoder input element: a vocabulary index, or a probability vector
    over the vocabulary when [use_prob_vector] is set. *)
Inductive Token : Type :=
| Tok (id : Z)
| Dist (p : T1).

(** The recurrent state: an (h, c) pair for an LSTM, one tensor for a GRU;
    each tensor has shape (layers, batch, hidden). *)
Inductive Hidden : Type :=
| HTuple (h c : T3)
| HTensor (h : T3).

(** The cell class kept in [self.rnn_cell] by the base class, which is not
    part of this file; [_validate_args] tells [nn.LSTM] from [nn.GRU]. *)
Inductive RnnCell : Type := LSTM | GRU.

Definition size1 {A : Type} (t : list (list A)) : nat :=
  match t with
  | [] => 0
  | r :: _ => length r
  end.

(** [nth_res i l]: Python's [l[i]] for [0 <= i]. *)
Definition nth_res {A : Type} (i : nat) (l : list A) : Result A :=
  match nth_error l i with
  | Some a => Ok a
  | None => Err (IndexError msg_index)
  end.

(** [chunk cnt width flat]: the first [cnt] consecutive blocks of [width]
    elements of [flat]. *)
Fixpoint chunk {A : Type} (cnt width : nat) (flat : list A) : list (list A) :=
  match cnt with
  | O => []
  | S cnt' => firstn width flat :: chunk cnt' width (skipn width flat)
  end.

(** [t.view(-1, cols)] of a rank-3 tensor. *)
Definition view_rows (cols : nat) (t : T3) : Result T2 :=
  let flat := concat (concat t) in
  let n := length flat in
  if (cols =? 0)%nat then Err (RuntimeError msg_shape)
  else if (n mod cols =? 0)%nat then Ok (chunk (n / cols) cols flat)
  else Err (RuntimeError msg_shape).

(** [t.view(b, w, -1)] of a rank-2 tensor. *)
Definition view3 (b w : nat) (t : T2) : Result T3 :=
  let flat := concat t in
  let n := length flat in
  if (b * w =? 0)%nat then Err (RuntimeError msg_shape)
  else if (n mod (b * w) =? 0)%nat
       then Ok (chunk b w (chunk (b * w) (n / (b * w)) flat))
       else Err (RuntimeError msg_shape).

(** The constant written by the repetition penalty, and the floor added
    inside the logarithm of the beam score: both are the literal [1e-18]. *)
Definition overwrite_const : Q := 1 # 1000000000000000000.
Definition eps : Q := 1 # 1000000000000000000.

(** [set_nth i v l]: [l] with position [i] replaced by [v]. *)
Fixpoint set_nth {A : Type} (i : nat) (v : A) (l : list A) : list A :=
  match l, i with
  | [], _ => []
  | _ :: l', O => v :: l'
  | x :: l', S i' => x :: set_nth i' v l'
  end.

(** One row of [scatter_(1, index, value)]: every index of the row is
    written; an index outside [0, len) raises. *)
Fixpoint scatter_row (row : T1) (idxs : list Z) (v : Q) : Result T1 :=
  match idxs with
  | [] => Ok row
  | i :: idxs' =>
      if ((0 <=? i)%Z && (i <? Z.of_nat (length row))%Z)%bool
      then scatter_row (set_nth (Z.to_nat i) v row) idxs' v
      else Err (RuntimeError msg_scatter)
  end.

(** [logits.scatter_(1, index, v)]: row r of [index] addresses row r of
    [logits]; [index] may not have more rows than [logits]. *)
Fixpoint scatter_ (logits : T2) (index : list (list Z)) (v : Q) {struct index}
  : Result T2 :=
  match index, logits with
  | [], _ => Ok logits
  | _ :: _, [] => Err (RuntimeError msg_scatter)
  | idxs :: index', row :: logits' =>
      do row' <- scatter_row row idxs v;
      do rest <- scatter_ logits' index' v;
      Ok (row' :: rest)
  end.

(** The loop [for i in range(len(prev_maxes)): logits.scatter_(...)]. *)
Fixpoint penalize (logits : T2) (prev_maxes : list (list (list Z))) : Result T2 :=
  match prev_maxes with
  | [] => Ok logits
  | index :: rest =>
      do logits' <- scatter_ logits index overwrite_const;
      penalize logits' rest
  end.

(** ** The model object *)

Record DecoderRNN : Type := {
  topk : nat;
  beamSearchMode : bool;
  bidirectional_encoder : bool;
  rnn_cell : RnnCell;
  hidden_size : nat;
  output_size : nat;
  max_length : Z;
  use_attention : bool;
  eos_id : Z;
  sos_id : Z;
  force_max_len : bool;
  use_prob_vector : bool;
  embedding : list (list Token) -> T3;
  input_dropout : T3 -> T3;
  rnn : T3 -> option Hidden -> T3 * Hidden;
  attention : T3 -> option T3 -> T3 * T3;
  out : T2 -> T2
}.

(** [self.max_length = v]. *)
Definition set_max_length (m : DecoderRNN) (v : Z) : DecoderRNN :=
  {| topk := topk m; beamSearchMode := beamSearchMode m;
     bidirectional_encoder := bidirectional_encoder m;
     rnn_cell := rnn_cell m; hidden_size := hidden_size m;
     output_size := output_size m; max_length := v;
     use_attention := use_attention m; eos_id := eos_id m; sos_id := sos_id m;
     force_max_len := force_max_len m; use_prob_vector := use_prob_vector m;
     embedding := embedding m; input_dropout := input_dropout m;
     rnn := rnn m; attention := attention m; out := out m |}.

(** ** [forward_step] *)

(** Lines 110-127: the logits handed to the normalisation function, with
    the new recurrent state and the attention weights. *)
Definition forward_step_logits (m : DecoderRNN) (input_var : list (list Token))
    (hidden : option Hidden) (encoder_outputs : option T3)
    (prev_maxes : option (list (list (list Z))))
  : Result (T2 * Hidden * option T3) :=
  let output_size := size1 input_var in
  let embedded := input_dropout m (embedding m input_var) in
  let '(output, hidden') := rnn m embedded hidden in
  let '(output, attn) :=
    if use_attention m
    then let '(o, a) := attention m output encoder_outputs in (o, Some a)
    else (output, None) in
  do flat <- view_rows (hidden_size m) output;
  let logits := out m flat in
  do logits <-
    match prev_maxes with
    | Some pm => if (output_size =? 1)%nat then penalize logits pm else Ok logits
    | None => Ok logits
    end;
  Ok (logits, hidden', attn).

Definition forward_step (m : DecoderRNN) (input_var : list (list Token))
    (hidden : option Hidden) (encoder_outputs : option T3)
    (function : T2 -> T2) (prev_maxes : option (list (list (list Z))))
  : Result (T3 * Hidden * option T3) :=
  let batch_size := length input_var in
  let output_size := size1 input_var in
  do '(logits, hidden', attn) <-
    forward_step_logits m input_var hidden encoder_outputs prev_maxes;
  do predicted_softmax <- view3 batch_size output_size (function logits);
  Ok (predicted_softmax, hidden', attn).

(** ** Argument validation and state initialisation *)

Definition Qlt_bool (x y : Q) : bool := negb (Qle_bool y x).

(** [torch.zeros([b, v]).scatter_(1, [[sos]]*b, 1.).unsqueeze(1)]. *)
Definition one_hot_inputs (b v : nat) (sos : Z) : Result (list (list Token)) :=
  do rows <- scatter_ (repeat (repeat 0%Q v) b) (repeat [sos] b) 1%Q;
  Ok (map (fun row => [Dist row]) rows).

(** Batch size read off the encoder state when no inputs are given. *)
Definition hidden_batch_size (cell : RnnCell) (encoder_hidden : Hidden) : Result nat :=
  match cell, encoder_hidden with
  | LSTM, HTuple h _ => Ok (size1 h)
  | LSTM, HTensor h => do h0 <- nth_res 0 h; Ok (size1 h0)
  | GRU, HTensor h => Ok (size1 h)
  | GRU, HTuple _ _ => Err (AttributeError msg_tuple_size)
  end.

Definition _validate_args (m : DecoderRNN) (inputs : option (list (list Token)))
    (encoder_hidden : option Hidden) (encoder_outputs : option T3)
    (teacher_forcing_ratio : Q)
  : Result (list (list Token) * nat * Z) :=
  do _ <-
    if use_attention m
    then match encoder_outputs with
         | None => Err (ValueError msg_attention)
         | Some _ => Ok tt
         end
    else Ok tt;
  do batch_size <-
    match inputs, encoder_hidden with
    | None, None => Ok 1%nat
    | Some i, _ => Ok (length i)
    | None, Some eh => hidden_batch_size (rnn_cell m) eh
    end;
  match inputs with
  | None =>
      if Qlt_bool 0 teacher_forcing_ratio
      then Err (ValueError msg_teacher_forcing)
      else
        do inputs' <-
          if negb (use_prob_vector m)
          then Ok (repeat [Tok (sos_id m)] batch_size)
          else one_hot_inputs batch_size (output_size m) (sos_id m);
        Ok (inputs', batch_size, max_length m)
  | Some i => Ok (i, batch_size, (Z.of_nat (size1 i) - 1)%Z)
  end.

(** [h[0:n:2]] and [h[1:n:2]]. *)
Fixpoint evens {A : Type} (l : list A) : list A :=
  match l with
  | [] => []
  | x :: l' => x :: match l' with [] => [] | _ :: l'' => evens l'' end
  end.

Definition odds {A : Type} (l : list A) : list A :=
  match l with
  | [] => []
  | _ :: l' => evens l'
  end.

(** [torch.cat([a, b], 2)] of two rank-3 tensors. *)
Definition cat2 (a b : T3) : Result T3 :=
  if (length a =? length b)%nat
  then Ok (map (fun '(x, y) => map (fun '(r, r') => r ++ r') (combine x y))
               (combine a b))
  else Err (RuntimeError msg_cat).

Definition _cat_directions (m : DecoderRNN) (h : T3) : Result T3 :=
  if bidirectional_encoder m then cat2 (evens h) (odds h) else Ok h.

Definition _init_state (m : DecoderRNN) (encoder_hidden : option Hidden)
  : Result (option Hidden) :=
  match encoder_hidden with
  | None => Ok None
  | Some (HTuple h c) =>
      do h' <- _cat_directions m h;
      do c' <- _cat_directions m c;
      Ok (Some (HTuple h' c'))
  | Some (HTensor h) =>
      do h' <- _cat_directions m h;
      Ok (Some (HTensor h'))
  end.

(** ** The closure [decode] and the length vector *)

(** An entry of the attention trace: the weights of one step, of rank 2 when
    sliced out of a teacher-forced pass and of rank 3 in the greedy loop. *)
Inductive StepAttn : Type :=
| Rank2 (t : T2)
| Rank3 (t : T3).

Record DecodeState : Type := {
  decoder_outputs : list T2;
  attention_score : list (option StepAttn);
  sequence_symbols : list (list (list Z));
  lengths : list Z
}.

(** Index of the largest entry.  [torch.topk] does not say which index it
    returns when the maximum is attained more than once; the scan below
    keeps the first, and the properties of the decoded symbols are stated
    so that they hold for any other choice as well. *)
Fixpoint argmax_from (best_i : nat) (best : Q) (i : nat) (l : T1) : nat :=
  match l with
  | [] => best_i
  | x :: l' =>
      if Qle_bool x best then argmax_from best_i best (S i) l'
      else argmax_from i x (S i) l'
  end.

Definition argmax (row : T1) : Result nat :=
  match row with
  | [] => Err (RuntimeError msg_topk)
  | x :: l => Ok (argmax_from 0 x 1 l)
  end.

(** [step_output.topk(1)[1]]: a column of indices, shape (batch, 1). *)
Definition topk1 (step_output : T2) : Result (list (list Z)) :=
  mapM (fun row => do i <- argmax row; Ok [Z.of_nat i]) step_output.

(** numpy's [a & b] on one-dimensional boolean arrays. *)
Definition broadcast_and (a b : list bool) : Result (list bool) :=
  if (length a =? length b)%nat
  then Ok (map (fun '(x, y) => x && y) (combine a b))
  else match a, b with
       | _, [y] => Ok (map (fun x => x && y) a)
       | [x], _ => Ok (map (fun y => x && y) b)
       | _, _ => Err (ValueError msg_broadcast)
       end.

(** numpy's [arr[mask] = v]. *)
Definition masked_assign (arr : list Z) (mask : list bool) (v : Z) : Result (list Z) :=
  if (length mask =? length arr)%nat
  then Ok (map (fun '(x, b) => if b : bool then v else x) (combine arr mask))
  else Err (IndexError msg_bool_index).

(** Initial length vector: [np.array([max_length] * batch_size)]. *)
Definition init_lengths (max_length : Z) (batch_size : nat) : list Z :=
  repeat max_length batch_size.

Definition init_decode_state (max_length : Z) (batch_size : nat) : DecodeState :=
  {| decoder_outputs := []; attention_score := []; sequence_symbols := [];
     lengths := init_lengths max_length batch_size |}.

(** [symbols] has rank 2, so [eos_batches.dim() > 0] always holds. *)
Definition eos_batches_dim : nat := 2.

Definition decode (m : DecoderRNN) (step : nat) (step_output : T2)
    (step_attn : option StepAttn) (st : DecodeState)
  : Result (DecodeState * list (list Z)) :=
  let outs := decoder_outputs st ++ [step_output] in
  let attns := if use_attention m then attention_score st ++ [step_attn]
               else attention_score st in
  do symbols <- topk1 step_output;
  let seqs := sequence_symbols st ++ [symbols] in
  let eos_batches := map (map (Z.eqb (eos_id m))) symbols in
  do lens <-
    if ((0 <? eos_batches_dim)%nat && negb (force_max_len m))%bool
    then
      let eos_flat := concat eos_batches in
      do update_idx <-
        broadcast_and (map (fun l => (Z.of_nat step <? l)%Z) (lengths st)) eos_flat;
      masked_assign (lengths st) update_idx (Z.of_nat (length seqs))
    else Ok (lengths st);
  Ok ({| decoder_outputs := outs; attention_score := attns;
         sequence_symbols := seqs; lengths := lens |}, symbols).

(** ** Beam search: top-k selection *)

(** Stable insertion sort of (score, flat index) pairs by score. *)
Fixpoint insert_by_score (x : Q * nat) (l : list (Q * nat)) : list (Q * nat) :=
  match l with
  | [] => [x]
  | y :: l' =>
      if Qle_bool (fst x) (fst y) then x :: l else y :: insert_by_score x l'
  end.

Definition sort_by_score (l : list (Q * nat)) : list (Q * nat) :=
  fold_right insert_by_score [] l.

(** [torch.topk(row, k, largest=False)]: the [k] smallest entries with their
    positions, in increasing order; ties are taken in order of position
    (torch leaves the order of ties open). *)
Definition topk_smallest (k : nat) (row : T1) : Result (list (Q * nat)) :=
  if (k <=? length row)%nat
  then Ok (firstn k (sort_by_score (combine row (seq 0 (length row)))))
  else Err (RuntimeError msg_topk).

(** [t.transpose(0, 1)] of a tensor with [cols] columns. *)
Definition transpose {A : Type} (d : A) (cols : nat) (t : list (list A))
  : list (list A) :=
  map (fun j => map (fun r => nth j r d) t) (seq 0 cols).

(** The closure [getTopkIndsnScores]; [candScores] has shape (K, B, 1, V).
    The division [inds/V] is the integer division of the long tensor. *)
Definition getTopkIndsnScores (m : DecoderRNN) (candScores : T4)
  : Result (list (list (Z * Z)) * T2) :=
  do sliced <- mapM (mapM (nth_res 0)) candScores;
  let tmp := transpose [] (size1 sliced) sliced in
  let B := length tmp in
  let V := size1 (hd [] tmp) in
  if (B =? 0)%nat then Err (RuntimeError msg_shape)
  else
    let flat := map (@concat Q) tmp in
    do zzz <- mapM (topk_smallest (topk m)) flat;
    let bmScores_nxt := transpose 0%Q (topk m) (map (map fst) zzz) in
    let inds := transpose 0%nat (topk m) (map (map snd) zzz) in
    let bmTopkInds_nxt :=
      map (map (fun i => (Z.of_nat (i / V), Z.of_nat (i mod V)))) inds in
    Ok (bmTopkInds_nxt, bmScores_nxt).

(** ** Beam search: the caller's bundle and the recorded trace *)

(** The entries of the caller's [beamStates] dictionary that [forward]
    reads: per step, (parent, token) pairs of shape (K, B, 2), running
    scores of shape (K, B) and cell states of shape (K, 1, B, H). *)
Record BeamStates : Type := {
  topkInds : list (list (list (Z * Z)));
  newScores : list T2;
  cells : list T4
}.

(** [beamStatesLM]; the first entry of [probVec] is the empty list. *)
Record BeamStatesLM : Type := {
  lm_probVec : list T4;
  lm_hiddens : list T4;
  lm_cells : list T4
}.

Definition gather_width : nat := 1024.

(** [parents.unsqueeze(0).repeat(1,1024).view(1,batch_size,-1)], without
    the leading dimension of size one. *)
Definition hidGathInds (parents : list Z) (batch_size : nat)
  : Result (list (list Z)) :=
  let tiled := concat (repeat parents gather_width) in
  let n := length tiled in
  if (batch_size =? 0)%nat then Err (RuntimeError msg_shape)
  else if (n mod batch_size =? 0)%nat
       then Ok (chunk batch_size (n / batch_size) tiled)
       else Err (RuntimeError msg_shape).

(** [src.gather(0, index)] for [src] of shape (K, B, H) and an index of
    shape (1, b, w): entry (0, i, j) is [src[index[0][i][j]][i][j]]. *)
Definition gather0 (src : T3) (index : list (list Z)) : Result T3 :=
  do rows <-
    mapM (fun '(b, idxs) =>
            mapM (fun '(j, i) =>
                    if (0 <=? i)%Z
                    then do plane <- nth_res (Z.to_nat i) src;
                         do row <- nth_res b plane;
                         nth_res j row
                    else Err (RuntimeError msg_index))
                 (combine (seq 0 (length idxs)) idxs))
         (combine (seq 0 (length index)) index);
  Ok [rows].

(** Elementwise combination with broadcasting along one dimension. *)
Definition broadcast2 {A B C : Type} (f : A -> B -> Result C)
    (xs : list A) (ys : list B) : Result (list C) :=
  if (length xs =? length ys)%nat
  then mapM (fun '(x, y) => f x y) (combine xs ys)
  else match xs, ys with
       | _, [y] => mapM (fun x => f x y) xs
       | [x], _ => mapM (fun y => f x y) ys
       | _, _ => Err (RuntimeError msg_shape)
       end.

Record RetDict : Type := {
  ret_attention_score : option (list (option StepAttn));
  ret_sequence : list (list (list Z));
  ret_length : list Z;
  ret_beamStates : BeamStatesLM
}.

Section Forward.

(** [torch.log]. *)
Variable log : Q -> Q.

(** [-torch.log(p + 1e-18) * s]. *)
Definition cand_score (p s : Q) : Q := (- log (p + eps) * s)%Q.

(** [-torch.log(bmProbVec_nxt+1e-18)*(bmScores.unsqueeze(-1).unsqueeze(-1))]
    for [bmProbVec_nxt] of shape (K, B, 1, V) and [bmScores] of shape (K, B). *)
Definition candScores_of (bmProbVec_nxt : T4) (bmScores : T2) : Result T4 :=
  broadcast2
    (fun pk sk =>
       broadcast2 (fun pb s => Ok (map (map (fun p => cand_score p s)) pb)) pk sk)
    bmProbVec_nxt bmScores.

(** The inner loop [for k in range(len(bmScores))] of the beam branch,
    from hypothesis [k] on; it returns the three lists it appends to and
    the last value of [decoder_hidden]. *)
Fixpoint expand_hyps (m : DecoderRNN) (batch_size : nat)
    (encoder_outputs : option T3) (function : T2 -> T2)
    (hid0 cell0 : T3) (bmTopkInds : list (list (Z * Z)))
    (n k : nat) (decoder_hidden : option Hidden)
  : Result (list T3 * list T3 * list T3 * option Hidden) :=
  match n with
  | O => Ok ([], [], [], decoder_hidden)
  | S n' =>
      do hyp <- nth_res k bmTopkInds;
      do inds <- hidGathInds (map fst hyp) batch_size;
      do gh <- gather0 hid0 inds;
      do gc <- gather0 cell0 inds;
      do '(decoder_output, hidden', _) <-
        forward_step m (map (fun p => [Tok (snd p)]) hyp) (Some (HTuple gh gc))
                     encoder_outputs function None;
      match hidden' with
      | HTuple h c =>
          do '(ps, hs, cs, last) <-
            expand_hyps m batch_size encoder_outputs function hid0 cell0
                        bmTopkInds n' (S k) (Some hidden');
          Ok (decoder_output :: ps, h :: hs, c :: cs, last)
      | HTensor _ => Err (TypeError msg_state)
      end
  end.

(** Lines 199-220: the body of one iteration of the beam loop once its four
    locals are read.  Besides the extended trace and [decoder_hidden] it
    returns the locals [bmTopkInds_nxt] and [bmScores_nxt], which the body
    computes last. *)
Definition beam_expand (m : DecoderRNN) (batch_size : nat)
    (encoder_outputs : option T3) (function : T2 -> T2)
    (bmHiddens bmCells : T4) (bmTopkInds : list (list (Z * Z))) (bmScores : T2)
    (lm : BeamStatesLM) (decoder_hidden : option Hidden)
  : Result (BeamStatesLM * option Hidden * (list (list (Z * Z)) * T2)) :=
  do hid0 <- mapM (nth_res 0) bmHiddens;
  do cell0 <- mapM (nth_res 0) bmCells;
  do '(ps, hs, cs, decoder_hidden') <-
    expand_hyps m batch_size encoder_outputs function hid0 cell0 bmTopkInds
                (length bmScores) 0 decoder_hidden;
  match ps with
  | [] => Err (RuntimeError msg_stack)
  | _ :: _ =>
      do candScores <- candScores_of ps bmScores;
      do nxt <- getTopkIndsnScores m candScores;
      Ok ({| lm_probVec := lm_probVec lm ++ [ps];
             lm_hiddens := lm_hiddens lm ++ [hs];
             lm_cells := lm_cells lm ++ [cs] |}, decoder_hidden', nxt)
  end.

(** One iteration [di] of the beam loop (lines 195-220). *)
Definition beam_step (m : DecoderRNN) (bs : BeamStates) (batch_size : nat)
    (encoder_outputs : option T3) (function : T2 -> T2) (di : nat)
    (lm : BeamStatesLM) (decoder_hidden : option Hidden)
  : Result (BeamStatesLM * option Hidden * (list (list (Z * Z)) * T2)) :=
  do bmHiddens <- nth_res di (lm_hiddens lm);
  do bmCells <- nth_res di (lm_cells lm);
  do bmTopkInds <- nth_res di (topkInds bs);
  do bmScores <- nth_res di (newScores bs);
  beam_expand m batch_size encoder_outputs function bmHiddens bmCells
              bmTopkInds bmScores lm decoder_hidden.

(** [for di in range(max_length)] of the beam branch: [n] iterations
    starting at [di]. *)
Fixpoint beam_loop (m : DecoderRNN) (bs : BeamStates) (batch_size : nat)
    (encoder_outputs : option T3) (function : T2 -> T2) (n di : nat)
    (lm : BeamStatesLM) (decoder_hidden : option Hidden)
  : Result (BeamStatesLM * option Hidden) :=
  match n with
  | O => Ok (lm, decoder_hidden)
  | S n' =>
      do '(lm', decoder_hidden', _) <-
        beam_step m bs batch_size encoder_outputs function di lm decoder_hidden;
      beam_loop m bs batch_size encoder_outputs function n' (S di) lm'
                decoder_hidden'
  end.

(** ** Teacher-forced and greedy loops *)

(** [t[:, di, :]]. *)
Definition slice1 (di : nat) (t : T3) : Result T2 := mapM (nth_res di) t.

(** [for di in range(decoder_output.size(1))] of the teacher-forced
    branch: [n] iterations starting at [di]. *)
Fixpoint tf_loop (m : DecoderRNN) (decoder_output : T3) (attn : option T3)
    (n di : nat) (st : DecodeState) : Result DecodeState :=
  match n with
  | O => Ok st
  | S n' =>
      do step_output <- slice1 di decoder_output;
      do step_attn <-
        match attn with
        | Some a => do sa <- slice1 di a; Ok (Some (Rank2 sa))
        | None => Ok None
        end;
      do '(st', _) <- decode m di step_output step_attn st;
      tf_loop m decoder_output attn n' (S di) st'
  end.

(** [decoder_output.squeeze(1)] of a tensor of shape (batch, 1, vocab). *)
Definition squeeze1 (t : T3) : T2 := map (fun r => nth 0 r []) t.

(** [inputs[:, 0].unsqueeze(1)]. *)
Definition first_column (inputs : list (list Token)) : Result (list (list Token)) :=
  mapM (fun r => do t <- nth_res 0 r; Ok [t]) inputs.

(** [for di in range(max_length)] of the greedy branch: [n] iterations
    starting at [di]. *)
Fixpoint greedy_loop (m : DecoderRNN) (encoder_outputs : option T3)
    (function : T2 -> T2) (n di : nat) (decoder_input : list (list Token))
    (decoder_hidden : option Hidden) (st : DecodeState)
  : Result (DecodeState * option Hidden) :=
  match n with
  | O => Ok (st, decoder_hidden)
  | S n' =>
      do '(decoder_output, hidden', step_attn) <-
        forward_step m decoder_input decoder_hidden encoder_outputs function
                     (Some (sequence_symbols st));
      let step_output := squeeze1 decoder_output in
      do '(st', symbols) <-
        decode m di step_output (option_map Rank3 step_attn) st;
      let decoder_input' :=
        if negb (use_prob_vector m) then map (map Tok) symbols
        else map (fun row => [Dist row]) step_output in
      greedy_loop m encoder_outputs function n' (S di) decoder_input'
                  (Some hidden') st'
  end.

(** ** [forward] *)

(** [rnd] is the value drawn by [random.random()].  The first component of
    the result is the model object after the call. *)
Definition forward (m : DecoderRNN) (rnd : Q)
    (inputs : option (list (list Token))) (beamStates : option BeamStates)
    (encoder_hidden : option Hidden) (encoder_outputs : option T3)
    (function : T2 -> T2) (teacher_forcing_ratio : Q) (max_len : Z)
    (semi_sup : bool)
  : DecoderRNN * Result (list T2 * option Hidden * RetDict) :=
  let m := set_max_length m max_len in
  (m,
   do '(inputs, _, max_length) <-
     _validate_args m inputs encoder_hidden encoder_outputs teacher_forcing_ratio;
   do bs <- match beamStates with
            | Some bs => Ok bs
            | None => Err (TypeError msg_none_subscript)
            end;
   do inds0 <- nth_res 0 (topkInds bs);
   let batch_size := size1 inds0 in
   do decoder_hidden <- _init_state m encoder_hidden;
   let use_teacher_forcing := Qlt_bool rnd teacher_forcing_ratio in
   let st0 := init_decode_state max_length batch_size in
   do cells0 <- nth_res 0 (cells bs);
   let beamStatesLM :=
     {| lm_probVec := [[]]; lm_hiddens := [cells0]; lm_cells := [cells0] |} in
   do '(st, decoder_hidden, beamStatesLM) <-
     if use_teacher_forcing then
       let decoder_input := map (@removelast Token) inputs in
       do '(decoder_output, hidden', attn) <-
         forward_step m decoder_input decoder_hidden encoder_outputs function None;
       do st <- tf_loop m decoder_output attn (size1 decoder_output) 0 st0;
       Ok (st, Some hidden', beamStatesLM)
     else if beamSearchMode m then
       do _ <- first_column inputs;
       do '(lm, decoder_hidden') <-
         beam_loop m bs batch_size encoder_outputs function
                   (Z.to_nat max_length) 0 beamStatesLM decoder_hidden;
       Ok (st0, decoder_hidden', lm)
     else
       do decoder_input <- first_column inputs;
       do '(st, decoder_hidden') <-
         greedy_loop m encoder_outputs function (Z.to_nat max_length) 0
                     decoder_input decoder_hidden st0;
       Ok (st, decoder_hidden', beamStatesLM);
   Ok (decoder_outputs st, decoder_hidden,
       {| ret_attention_score :=
            if use_attention m then Some (attention_score st) else None;
          ret_sequence := sequence_symbols st;
          ret_length := lengths st;
          ret_beamStates := beamStatesLM |})).

End Forward.

(** ** Vocabulary used by the statements *)

(** [hit_row c idxs]: column [c] is named by the index row [idxs]. *)
Definition hit_row (c : nat) (idxs : list Z) : bool :=
  existsb (Z.eqb (Z.of_nat c)) idxs.

(** Every index of the row lies in [0, width). *)
Definition idxs_valid (width : nat) (idxs : list Z) : Prop :=
  Forall (fun i => (0 <= i < Z.of_nat width)%Z) idxs.

(** The index tensor fits the logits: no more rows than the logits have,
    every index inside its row. *)
Fixpoint index_valid (logits : T2) (index : list (list Z)) {struct index} : Prop :=
  match index, logits with
  | [], _ => True
  | _ :: _, [] => False
  | idxs :: index', row :: logits' =>
      idxs_valid (length row) idxs /\ index_valid logits' index'
  end.

Definition history_valid (logits : T2) (prev_maxes : list (list (list Z))) : Prop :=
  Forall (index_valid logits) prev_maxes.

(** Position (r, c) of the logits is named by some entry of the history. *)
Definition penalized (prev_maxes : list (list (list Z))) (r c : nat) : bool :=
  existsb (fun index => hit_row c (nth r index [])) prev_maxes.

(** A run of consecutive [decode] calls: from step [i] in state [st] to step
    [j] in state [st'], whatever the step outputs were. *)
Inductive decode_run (m : DecoderRNN) : nat -> DecodeState -> nat -> DecodeState -> Prop :=
| run_done : forall i st, decode_run m i st i st
| run_step : forall i st step_output step_attn st1 symbols j st2,
    decode m i step_output step_attn st = Ok (st1, symbols) ->
    decode_run m (S i) st1 j st2 ->
    decode_run m i st j st2.

(** The failure, if any, is not one of the two configuration errors. *)
Definition no_invalid_configuration {A : Type} (r : Result A) : Prop :=
  forall e, r = Err e -> ~ InvalidConfiguration e.

(** The encoder state has the form the recurrent cell works with. *)
Definition state_fits_cell (cell : RnnCell) (encoder_hidden : option Hidden) : Prop :=
  match encoder_hidden with
  | None => True
  | Some (HTuple _ _) => cell = LSTM
  | Some (HTensor _) => cell = GRU
  end.

(** In probability-vector mode the start symbol is a vocabulary index. *)
Definition sos_in_vocabulary (m : DecoderRNN) : Prop :=
  use_prob_vector m = true -> (0 <= sos_id m < Z.of_nat (output_size m))%Z.

(** The two configurations [_validate_args] rejects. *)
Definition invalid_arguments (m : DecoderRNN) (inputs : option (list (list Token)))
    (encoder_outputs : option T3) (teacher_forcing_ratio : Q) : Prop :=
  (use_attention m = true /\ encoder_outputs = None) \/
  (inputs = None /\ (0 < teacher_forcing_ratio)%Q).

(** Every row of the tensor has the width [size1] reports. *)
Definition rect {A : Type} (t : list (list A)) : Prop :=
  Forall (fun r => length r = size1 t) t.

(** The layers keep to their shape contract: fed a (batch, width) input,
    lines 110-121 of [forward_step] yield one row of [V] logits per input
    position, and attention weights, if any, with a row per position. *)
Definition step_shaped (m : DecoderRNN) (V : nat) : Prop :=
  forall input_var hidden enc, rect input_var ->
  exists lg hid attn,
    forward_step_logits m input_var hidden enc None = Ok (lg, hid, attn) /\
    length lg = (length input_var * size1 input_var)%nat /\
    Forall (fun r => length r = V) lg /\
    forall a, attn = Some a -> Forall (fun r => (size1 input_var <= length r)%nat) a.

(** The normalisation function keeps the shape of the logits. *)
Definition shape_preserving (function : T2 -> T2) : Prop :=
  forall t, map (@length Q) (function t) = map (@length Q) t.

(** The caller's bundle carries step-0 indices for a batch of [B] elements
    and step-0 cell states. *)
Definition bundle_batch (bs : BeamStates) (B : nat) : Prop :=
  exists inds0 cells0,
    nth_error (topkInds bs) 0 = Some inds0 /\ size1 inds0 = B /\
    nth_error (cells bs) 0 = Some cells0.

(** A recorded batch of symbols: one index below [V] per batch element. *)
Definition symbols_ok (B V : nat) (symbols : list (list Z)) : Prop :=
  exists syms, symbols = map (fun s => [s]) syms /\ length syms = B /\
               Forall (fun s => (0 <= s < Z.of_nat V)%Z) syms.

(** Order of (score, position) pairs by score. *)
Definition score_le (a b : Q * nat) : Prop := (fst a <= fst b)%Q.

(** The candidates of batch element [b], flattened: row [b] of
    [candScores[:,:,0].permute(1,0,2).view(B,-1)]. *)
Definition flat_candidates (candScores : T4) (b : nat) : T1 :=
  concat (map (fun ck => nth 0 (nth b ck []) []) candScores).

(** [candScores] has shape (K, B, 1, V). *)
Definition cand_shaped (candScores : T4) (K B V : nat) : Prop :=
  length candScores = K /\
  Forall (fun ck => length ck = B /\
            Forall (fun cb => length cb = 1%nat /\
                      Forall (fun row => length row = V) cb) ck) candScores.

(** ** A small concrete decoder

    A model with a vocabulary of three symbols and hidden width 1024 on
    which the definitions above can be run: the embedding of a token is its
    index, the recurrent cell passes its input on and returns a zero state,
    and the output layer maps the embedded index [x] to the logits
    [x, 1, 1/2]. *)

Definition toy_embedding (input_var : list (list Token)) : T3 :=
  map (map (fun t => match t with
                     | Tok i => [inject_Z i]
                     | Dist p => [hd 0%Q p]
                     end)) input_var.

Definition toy_state (e : T3) : T3 := [map (fun _ => repeat 0%Q gather_width) e].

Definition toy_rnn (e : T3) (h : option Hidden) : T3 * Hidden :=
  (e, HTuple (toy_state e) (toy_state e)).

Definition toy_attention (o : T3) (enc : option T3) : T3 * T3 :=
  (o, map (map (fun _ => [1%Q])) o).

Definition toy_out (rows : T2) : T2 :=
  map (fun r => [hd 0%Q r; 1%Q; 1 # 2]) rows.

Definition toy_model (beam att force : bool) : DecoderRNN :=
  {| topk := 2; beamSearchMode := beam; bidirectional_encoder := false;
     rnn_cell := LSTM; hidden_size := 1; output_size := 3; max_length := 7;
     use_attention := att; eos_id := 0; sos_id := 2;
     force_max_len := force; use_prob_vector := false;
     embedding := toy_embedding; input_dropout := fun e => e;
     rnn := toy_rnn; attention := toy_attention; out := toy_out |}.

(** A stand-in for the logarithm, and the identity as normalisation. *)
Definition toy_log (x : Q) : Q := (- x)%Q.
Definition toy_function (t : T2) : T2 := t.

(** A caller's bundle for one batch element: one seed hypothesis at step 0,
    two hypotheses at step 1. *)
Definition toy_beam_states : BeamStates :=
  {| topkInds := [ [[(0, 2)]]; [[(0, 1)]; [(0, 1)]] ]%Z;
     newScores := [ [[1%Q]]; [[3%Q]; [4%Q]] ];
     cells := [ [ [ [repeat 0%Q gather_width] ] ] ] |}.

Definition toy_lm0 : BeamStatesLM :=
  {| lm_probVec := [[]];
     lm_hiddens := [ [ [ [repeat 0%Q gather_width] ] ] ];
     lm_cells := [ [ [ [repeat 0%Q gather_width] ] ] ] |}.

(** Two input rows of three tokens. *)
Definition toy_inputs : list (list Token) :=
  [ [Tok 2; Tok 1; Tok 0]; [Tok 2; Tok 0; Tok 1] ]%Z.

(** A bundle whose step-0 indices are for a batch of two. *)
Definition toy_beam_states2 : BeamStates :=
  {| topkInds := [ [[(0, 2); (0, 2)]] ]%Z;
     newScores := [ [[1%Q; 1%Q]] ];
     cells := [ [ [ [repeat 0%Q gather_width; repeat 0%Q gather_width] ] ] ] |}.

(** Candidate scores of shape (2, 1, 1, 3), and the scenario of two
    hypotheses over two symbols with scores 0.1, 0.4 and 0.2, 0.3. *)
Definition toy_cand : T4 :=
  [ [[[3%Q; 1%Q; 2%Q]]]; [[[1 # 2; 5%Q; 4%Q]]] ].

Definition scenario_cand : T4 :=
  [ [[[1 # 10; 4 # 10]]]; [[[2 # 10; 3 # 10]]] ].

(** ** Further vocabulary *)

(** The start-symbol distribution: 1 at [sos], 0 elsewhere. *)
Definition one_hot (v : nat) (sos : Z) : T1 :=
  set_nth (Z.to_nat sos) 1%Q (repeat 0%Q v).

(** The batch size of an encoder state, when one is given. *)
Definition state_batch (encoder_hidden : option Hidden) : nat :=
  match encoder_hidden with
  | None => 1
  | Some (HTuple h _) => size1 h
  | Some (HTensor h) => size1 h
  end.

(** The object with [max_length] and [beamSearchMode] replaced. *)
Definition set_flags (m : DecoderRNN) (v : Z) (beam : bool) : DecoderRNN :=
  {| topk := topk m; beamSearchMode := beam;
     bidirectional_encoder := bidirectional_encoder m;
     rnn_cell := rnn_cell m; hidden_size := hidden_size m;
     output_size := output_size m; max_length := v;
     use_attention := use_attention m; eos_id := eos_id m; sos_id := sos_id m;
     force_max_len := force_max_len m; use_prob_vector := use_prob_vector m;
     embedding := embedding m; input_dropout := input_dropout m;
     rnn := rnn m; attention := attention m; out := out m |}.

(** Lines 141-241 of [forward]: what follows the validation, given the
    inputs and decode length it returned. *)
Definition run_modes (log : Q -> Q) (m : DecoderRNN) (rnd : Q)
    (beamStates : option BeamStates) (encoder_hidden : option Hidden)
    (encoder_outputs : option T3) (function : T2 -> T2)
    (teacher_forcing_ratio : Q) (inputs : list (list Token)) (max_length : Z)
  : Result (list T2 * option Hidden * RetDict) :=
  do bs <- match beamStates with
           | Some bs => Ok bs
           | None => Err (TypeError msg_none_subscript)
           end;
  do inds0 <- nth_res 0 (topkInds bs);
  let batch_size := size1 inds0 in
  do decoder_hidden <- _init_state m encoder_hidden;
  let use_teacher_forcing := Qlt_bool rnd teacher_forcing_ratio in
  let st0 := init_decode_state max_length batch_size in
  do cells0 <- nth_res 0 (cells bs);
  let beamStatesLM :=
    {| lm_probVec := [[]]; lm_hiddens := [cells0]; lm_cells := [cells0] |} in
  do '(st, decoder_hidden, beamStatesLM) <-
    if use_teacher_forcing then
      let decoder_input := map (@removelast Token) inputs in
      do '(decoder_output, hidden', attn) <-
        forward_step m decoder_input decoder_hidden encoder_outputs function None;
      do st <- tf_loop m decoder_output attn (size1 decoder_output) 0 st0;
      Ok (st, Some hidden', beamStatesLM)
    else if beamSearchMode m then
      do _ <- first_column inputs;
      do '(lm, decoder_hidden') <-
        beam_loop log m bs batch_size encoder_outputs function
                  (Z.to_nat max_length) 0 beamStatesLM decoder_hidden;
      Ok (st0, decoder_hidden', lm)
    else
      do decoder_input <- first_column inputs;
      do '(st, decoder_hidden') <-
        greedy_loop m encoder_outputs function (Z.to_nat max_length) 0
                    decoder_input decoder_hidden st0;
      Ok (st, decoder_hidden', beamStatesLM);
  Ok (decoder_outputs st, decoder_hidden,
      {| ret_attention_score :=
           if use_attention m then Some (attention_score st) else None;
         ret_sequence := sequence_symbols st;
         ret_length := lengths st;
         ret_beamStates := beamStatesLM |}).

(** Entry [b] of the flattened end-of-sequence mask of one batch of
    symbols: [symbols.data.eq(eos_id).view(-1)[b]]. *)
Definition eos_at (eos : Z) (symbols : list (list Z)) (b : nat) : bool :=
  nth b (concat (map (map (Z.eqb eos)) symbols)) false.

(** The first step at which batch element [b] emitted the end-of-sequence
    symbol. *)
Fixpoint first_eos (eos : Z) (seq : list (list (list Z))) (b : nat) : option nat :=
  match seq with
  | [] => None
  | symbols :: rest =>
      if eos_at eos symbols b then Some 0%nat
      else option_map S (first_eos eos rest b)
  end.

(** * LinearModel.py *)

Definition msg_channels : string := "input has the wrong number of channels".
Definition msg_kernel : string := "Kernel size can't be greater than actual input size".
Definition msg_pool : string := "Output size is too small".

(** [nn.Conv2d]: channel counts, kernel size and stride as given to the
    constructor (an [int] stands for the pair), padding 0 and dilation 1 as
    by default; [weight] has shape (out, in, kh, kw) and [bias] out entries. *)
Record Conv2d : Type := {
  in_channels : nat;
  out_channels : nat;
  kernel_size : nat * nat;
  stride : nat * nat;
  weight : T4;
  bias : T1
}.

Definition sumQ (l : list Q) : Q := fold_right Qplus 0%Q l.

(** Number of window positions along an axis of [n] entries. *)
Definition out_size (n k s : nat) : nat := ((n - k) / s + 1)%nat.

(** Entry (o, i, j) of the convolution of one sample. *)
Definition conv_entry (c : Conv2d) (sample : T3) (o i j : nat) : Q :=
  (nth o (bias c) 0 +
   sumQ (map (fun ch =>
     sumQ (map (fun di =>
       sumQ (map (fun dj =>
               nth dj (nth di (nth ch (nth o (weight c) []) []) []) 0 *
               nth (j * snd (stride c) + dj)
                   (nth (i * fst (stride c) + di) (nth ch sample []) []) 0)
             (seq 0 (snd (kernel_size c)))))
           (seq 0 (fst (kernel_size c)))))
         (seq 0 (in_channels c))))%Q.

(** The output planes of one sample of spatial size [H] x [W]. *)
Definition conv_sample (c : Conv2d) (sample : T3) (H W : nat) : T3 :=
  map (fun o =>
         map (fun i =>
                map (fun j => conv_entry c sample o i j)
                    (seq 0 (out_size W (snd (kernel_size c)) (snd (stride c)))))
             (seq 0 (out_size H (fst (kernel_size c)) (fst (stride c)))))
      (seq 0 (out_channels c)).

(** [Conv2d.forward] on a batch (N, C, H, W). *)
Definition conv2d (c : Conv2d) (x : T4) : Result T4 :=
  mapM (fun sample =>
          if negb (length sample =? in_channels c)%nat
          then Err (RuntimeError msg_channels)
          else
            let H := length (hd [] sample) in
            let W := length (hd [] (hd [] sample)) in
            if ((H <? fst (kernel_size c)) || (W <? snd (kernel_size c)))%nat
            then Err (RuntimeError msg_kernel)
            else Ok (conv_sample c sample H W))
       x.

(** Sum of the [k] x [k] window of [plane] whose corner is (i0, j0). *)
Definition window_sum (plane : T2) (k i0 j0 : nat) : Q :=
  sumQ (map (fun di =>
               sumQ (map (fun dj => nth (j0 + dj) (nth (i0 + di) plane []) 0%Q)
                         (seq 0 k)))
            (seq 0 k)).

(** The pooled plane of a plane of size [H] x [W]. *)
Definition pool_plane (plane : T2) (k H W : nat) : T2 :=
  map (fun i =>
         map (fun j =>
                (window_sum plane k (i * k) (j * k)
                 / inject_Z (Z.of_nat (k * k)))%Q)
             (seq 0 (out_size W k k)))
      (seq 0 (out_size H k k)).

(** [F.avg_pool2d(x, k)]: windows of [k] x [k], stride [k], no padding,
    floor mode. *)
Definition avg_pool2d (x : T4) (k : nat) : Result T4 :=
  mapM (fun sample =>
          mapM (fun plane =>
                  let H := length plane in
                  let W := length (hd [] plane) in
                  if ((H <? k) || (W <? k))%nat
                  then Err (RuntimeError msg_pool)
                  else Ok (pool_plane plane k H W))
               sample)
       x.

(** A tensor of any rank, as [squeeze] needs: its result has a rank that
    depends on the sizes. *)
#[warnings="-register-all"] Inductive Tensor : Type :=
| Scalar (q : Q)
| Dim (ts : list Tensor).

Definition of_T1 (v : T1) : Tensor := Dim (map Scalar v).
Definition of_T2 (t : T2) : Tensor := Dim (map of_T1 t).
Definition of_T3 (t : T3) : Tensor := Dim (map of_T2 t).
Definition of_T4 (t : T4) : Tensor := Dim (map of_T3 t).

(** [Tensor.squeeze()]: every dimension of size 1 is removed. *)
Fixpoint squeeze (t : Tensor) : Tensor :=
  match t with
  | Scalar q => Scalar q
  | Dim [t'] => squeeze t'
  | Dim ts => Dim (map squeeze ts)
  end.

Record LinearModel : Type := {
  conv1 : Conv2d;
  conv2 : Conv2d
}.

(** [LinearModel.__init__], lines 6-9; the initial weights are drawn by
    torch and are arguments here. *)
Definition LinearModel_init (w1 : T4) (b1 : T1) (w2 : T4) (b2 : T1)
  : LinearModel :=
  {| conv1 := {| in_channels := 512; out_channels := 1024;
                 kernel_size := (10, 9)%nat; stride := (4, 6)%nat;
                 weight := w1; bias := b1 |};
     conv2 := {| in_channels := 512; out_channels := 1024;
                 kernel_size := (1, 1)%nat; stride := (1, 1)%nat;
                 weight := w2; bias := b2 |} |}.

(** [LinearModel.forward], lines 11-17.  [image_pair] is the pair of the
    global feature map (C, H, W) and the box features (N, C, h, w). *)
Definition LinearModel_forward (lm : LinearModel) (image_pair : T3 * T4)
  : Result (T4 * Tensor * T4) :=
  let '(global_feat, box_feat) := image_pair in
  let global_feat := [global_feat] in
  do global_feat <- conv2d (conv1 lm) global_feat;
  do pooled <- avg_pool2d global_feat 7;
  let global_hidden := squeeze (of_T4 pooled) in
  do box_feat <- conv2d (conv2 lm) box_feat;
  Ok (global_feat, global_hidden, box_feat).

(** [x] has shape (C, H, W). *)
Definition feat_shaped3 (x : T3) (C H W : nat) : Prop :=
  length x = C /\
  Forall (fun plane => length plane = H /\
            Forall (fun row => length row = W) plane) x.

(** [x] has shape (N, C, H, W). *)
Definition feat_shaped4 (x : T4) (N C H W : nat) : Prop :=
  length x = N /\ Forall (fun sample => feat_shaped3 sample C H W) x.

(** The small decoder, built for a bidirectional encoder. *)
Definition toy_bidirectional : DecoderRNN :=
  {| topk := 2; beamSearchMode := false; bidirectional_encoder := true;
     rnn_cell := LSTM; hidden_size := 1; output_size := 3; max_length := 7;
     use_attention := false; eos_id := 0; sos_id := 2;
     force_max_len := false; use_prob_vector := false;
     embedding := toy_embedding; input_dropout := fun e => e;
     rnn := toy_rnn; attention := toy_attention; out := toy_out |}.

(** * Properties *)

(** ** Generic facts about the error monad and lists *)

Lemma bind_ok {A B} (c : Result A) (k : A -> Result B) b :
  bind c k = Ok b -> exists a, c = Ok a /\ k a = Ok b.
Proof.
  destruct c as [a|e]; simpl; intros H; [exists a; auto | discriminate].
Qed.

Lemma length_set_nth {A} (i : nat) (v : A) l : length (set_nth i v l) = length l.
Proof.
  revert i; induction l as [|x l IH]; intros [|i]; simpl; auto.
Qed.

Lemma nth_set_nth {A} (i c : nat) (v d : A) l :
  nth c (set_nth i v l) d
  = if ((c =? i)%nat && (i <? length l)%nat)%bool then v else nth c l d.
Proof.
  revert i c; induction l as [|x l IH]; intros [|i] [|c]; simpl;
    rewrite ?andb_false_r; auto.
Qed.

(** ** The repetition penalty of [forward_step] *)

Lemma scatter_row_spec (row : T1) idxs v :
  idxs_valid (length row) idxs ->
  exists row', scatter_row row idxs v = Ok row' /\ length row' = length row /\
    forall c d, nth c row' d = if hit_row c idxs then v else nth c row d.
Proof.
  revert row; induction idxs as [|i idxs IH]; intros row Hv.
  - exists row. simpl. auto.
  - inversion Hv as [|? ? Hi Hrest]; subst. simpl.
    replace ((0 <=? i)%Z && (i <? Z.of_nat (length row))%Z)%bool with true
      by (symmetry; apply andb_true_iff; split; [apply Z.leb_le | apply Z.ltb_lt]; lia).
    destruct (IH (set_nth (Z.to_nat i) v row)) as (row' & E & L & S).
    { unfold idxs_valid. rewrite length_set_nth. exact Hrest. }
    exists row'. split; [exact E|]. rewrite length_set_nth in L. split; [exact L|].
    intros c d. rewrite S.
    unfold hit_row. simpl. fold (hit_row c idxs).
    destruct (hit_row c idxs); [rewrite orb_true_r; reflexivity|].
    rewrite orb_false_r, nth_set_nth.
    replace (Z.to_nat i <? length row)%nat with true by (symmetry; apply Nat.ltb_lt; lia).
    rewrite andb_true_r.
    destruct (Z.eqb_spec (Z.of_nat c) i) as [e|n].
    + subst i. rewrite Nat2Z.id, Nat.eqb_refl. reflexivity.
    + destruct (Nat.eqb_spec c (Z.to_nat i)); [lia | reflexivity].
Qed.

Lemma index_valid_shape lg lg' index :
  map (@length Q) lg' = map (@length Q) lg ->
  index_valid lg index -> index_valid lg' index.
Proof.
  revert lg lg'; induction index as [|idxs index IH]; intros lg lg' E H; simpl; auto.
  destruct lg as [|row lg]; [destruct H|].
  destruct lg' as [|row' lg']; simpl in E; [discriminate|].
  injection E as E1 E2. destruct H as [H1 H2].
  split; [rewrite E1; exact H1 | eapply IH; eauto].
Qed.

Lemma scatter_spec (lg : T2) index v :
  index_valid lg index ->
  exists lg', scatter_ lg index v = Ok lg' /\
    map (@length Q) lg' = map (@length Q) lg /\
    forall r c d, nth c (nth r lg' []) d
                  = if hit_row c (nth r index []) then v else nth c (nth r lg []) d.
Proof.
  revert lg; induction index as [|idxs index IH]; intros lg H.
  - exists lg. simpl. repeat split; auto. intros r c d. destruct r; reflexivity.
  - destruct lg as [|row lg]; [destruct H|]. destruct H as [H1 H2].
    destruct (scatter_row_spec row idxs v H1) as (row' & E1 & L1 & S1).
    destruct (IH lg H2) as (lg' & E2 & L2 & S2).
    exists (row' :: lg'). simpl. rewrite E1, E2. simpl.
    split; [reflexivity|]. split; [rewrite L1, L2; reflexivity|].
    intros [|r] c d; [apply S1 | apply S2].
Qed.

Lemma penalize_spec (lg : T2) pm :
  history_valid lg pm ->
  exists lg', penalize lg pm = Ok lg' /\
    map (@length Q) lg' = map (@length Q) lg /\
    forall r c d, nth c (nth r lg' []) d
                  = if penalized pm r c then overwrite_const else nth c (nth r lg []) d.
Proof.
  revert lg; induction pm as [|index pm IH]; intros lg H.
  - exists lg. simpl. auto.
  - inversion H as [|? ? H1 H2]; subst.
    destruct (scatter_spec lg index overwrite_const H1) as (lg1 & E1 & L1 & S1).
    destruct (IH lg1) as (lg' & E2 & L2 & S2).
    { unfold history_valid. eapply Forall_impl; [|exact H2].
      intros a Ha. eapply index_valid_shape; eauto. }
    exists lg'. simpl. rewrite E1. simpl. split; [exact E2|].
    split; [congruence|].
    intros r c d. rewrite S2, S1.
    destruct (hit_row c (nth r index [])); simpl;
      destruct (penalized pm r c); reflexivity.
Qed.

Lemma penalize_app (lg : T2) pm index :
  penalize lg (pm ++ [index])
  = (do lg' <- penalize lg pm; scatter_ lg' index overwrite_const).
Proof.
  revert lg; induction pm as [|i0 pm IH]; intros lg; simpl.
  - destruct (scatter_ lg index overwrite_const); reflexivity.
  - destruct (scatter_ lg i0 overwrite_const); simpl; auto.
Qed.

Lemma forward_step_logits_history m input_var hidden enc pm :
  forward_step_logits m input_var hidden enc (Some pm)
  = (do '(lg, hid, attn) <- forward_step_logits m input_var hidden enc None;
     do lg' <- (if (size1 input_var =? 1)%nat then penalize lg pm else Ok lg);
     Ok (lg', hid, attn)).
Proof.
  unfold forward_step_logits.
  destruct (rnn m _ hidden) as [o h'].
  destruct (use_attention m); [destruct (attention m o enc) as [o' a]|];
    (destruct (view_rows _ _); simpl; reflexivity).
Qed.

Lemma hit_row_In c idxs : hit_row c idxs = true <-> In (Z.of_nat c) idxs.
Proof.
  unfold hit_row. rewrite existsb_exists. split.
  - intros (x & Hx & E). apply Z.eqb_eq in E. subst. exact Hx.
  - intros H. exists (Z.of_nat c). split; [exact H | apply Z.eqb_refl].
Qed.

Lemma index_valid_nth lg index r idxs :
  index_valid lg index -> nth_error index r = Some idxs ->
  idxs_valid (length (nth r lg [])) idxs.
Proof.
  revert lg r; induction index as [|i0 index IH]; intros lg r H E.
  - destruct r; discriminate.
  - destruct lg as [|row lg]; [destruct H|]. destruct H as [H1 H2].
    destruct r as [|r]; simpl in *.
    + injection E as <-. exact H1.
    + eapply IH; eauto.
Qed.

(** C9.  With step-width 1 and a history of chosen tokens, the logits handed
    to the normalisation function equal the constant 1e-18 at every position
    named by the history and the computed logits elsewhere; the history is
    applied entry by entry in order; with a step-width other than 1, or with
    no history, the computed logits are passed on unchanged. *)
Theorem forward_step_repetition_penalty m input_var hidden enc function lg0 hid attn :
  forward_step_logits m input_var hidden enc None = Ok (lg0, hid, attn) ->
  (forall pm, size1 input_var <> 1%nat ->
     forward_step_logits m input_var hidden enc (Some pm) = Ok (lg0, hid, attn)) /\
  (forall pm, size1 input_var = 1%nat -> history_valid lg0 pm ->
     exists lg,
       forward_step_logits m input_var hidden enc (Some pm) = Ok (lg, hid, attn) /\
       forward_step m input_var hidden enc function (Some pm)
       = (do p <- view3 (length input_var) 1 (function lg); Ok (p, hid, attn)) /\
       (forall index r idxs j,
          In index pm -> nth_error index r = Some idxs -> In j idxs ->
          nth_error (nth r lg []) (Z.to_nat j) = Some overwrite_const) /\
       (forall r c d, penalized pm r c = false ->
          nth c (nth r lg []) d = nth c (nth r lg0 []) d)) /\
  (forall pm index,
     penalize lg0 (pm ++ [index])
     = (do lg <- penalize lg0 pm; scatter_ lg index overwrite_const)) /\
  ~ (overwrite_const == 0)%Q.
Proof.
  intros H0. split; [|split; [|split]].
  - intros pm Hw. rewrite forward_step_logits_history, H0. simpl.
    destruct (Nat.eqb_spec (size1 input_var) 1); [contradiction | reflexivity].
  - intros pm Hw Hv.
    destruct (penalize_spec lg0 pm Hv) as (lg & E & L & S).
    assert (EL : forward_step_logits m input_var hidden enc (Some pm)
                 = Ok (lg, hid, attn)).
    { rewrite forward_step_logits_history, H0. simpl. rewrite Hw. simpl.
      rewrite E. reflexivity. }
    exists lg. split; [exact EL|]. split.
    { unfold forward_step. rewrite EL, Hw. reflexivity. }
    split.
    + intros index r idxs j Hin Hr Hj.
      assert (Hiv : idxs_valid (length (nth r lg0 [])) idxs).
      { eapply index_valid_nth; eauto.
        unfold history_valid in Hv. rewrite Forall_forall in Hv. auto. }
      unfold idxs_valid in Hiv. rewrite Forall_forall in Hiv.
      specialize (Hiv j Hj).
      assert (Hlen : length (nth r lg []) = length (nth r lg0 [])).
      { pose proof (map_nth (@length Q) lg [] r) as E1.
        pose proof (map_nth (@length Q) lg0 [] r) as E2.
        simpl in E1, E2.
        etransitivity; [symmetry; exact E1 | rewrite L; exact E2]. }
      assert (Hp : penalized pm r (Z.to_nat j) = true).
      { unfold penalized. apply existsb_exists. exists index. split; [exact Hin|].
        apply hit_row_In. rewrite Z2Nat.id by lia.
        rewrite (nth_error_nth _ _ _ Hr). exact Hj. }
      rewrite (nth_error_nth' _ 0%Q) by lia.
      rewrite S, Hp. reflexivity.
    + intros r c d Hp. rewrite S, Hp. reflexivity.
  - intros pm index. apply penalize_app.
  - unfold overwrite_const, Qeq. simpl. lia.
Qed.

(** ** The closure [decode] and the length vector *)

Lemma mapM_ok_length {A B} (f : A -> Result B) l l' :
  mapM f l = Ok l' -> length l' = length l.
Proof.
  revert l'; induction l as [|x l IH]; simpl; intros l' H.
  - injection H as <-. reflexivity.
  - apply bind_ok in H. destruct H as (y & _ & H).
    apply bind_ok in H. destruct H as (ys & Hys & H).
    injection H as <-. simpl. f_equal. auto.
Qed.

Lemma mapM_ok_nth {A B} (f : A -> Result B) l l' :
  mapM f l = Ok l' ->
  forall i a, nth_error l i = Some a ->
  exists b, nth_error l' i = Some b /\ f a = Ok b.
Proof.
  revert l'; induction l as [|x l IH]; simpl; intros l' H i a Hi.
  - destruct i; discriminate.
  - apply bind_ok in H. destruct H as (y & Hy & H).
    apply bind_ok in H. destruct H as (ys & Hys & H).
    injection H as <-. destruct i as [|i]; simpl in *.
    + injection Hi as <-. exists y. auto.
    + eapply IH; eauto.
Qed.

Lemma mapM_total {A B} (f : A -> Result B) (g : A -> B) l :
  (forall a, In a l -> f a = Ok (g a)) -> mapM f l = Ok (map g l).
Proof.
  induction l as [|x l IH]; simpl; intros H; [reflexivity|].
  rewrite (H x) by auto. simpl. rewrite IH by auto. reflexivity.
Qed.

Lemma argmax_from_bound l : forall bi b i,
  (bi < i)%nat -> (argmax_from bi b i l < i + length l)%nat.
Proof.
  induction l as [|x l IH]; simpl; intros bi b i H; [lia|].
  destruct (Qle_bool x b).
  - specialize (IH bi b (S i)). lia.
  - specialize (IH i x (S i)). lia.
Qed.

Lemma argmax_total row :
  row <> [] -> exists i, argmax row = Ok i /\ (i < length row)%nat.
Proof.
  destruct row as [|x l]; [congruence|]. intros _.
  exists (argmax_from 0 x 1 l). split; [reflexivity|].
  pose proof (argmax_from_bound l 0 x 1). simpl. lia.
Qed.

(** The symbol [topk1] picks in a row (meaningful for a non-empty row). *)
Lemma topk1_total (step_output : T2) :
  Forall (fun r => r <> []) step_output ->
  exists syms, topk1 step_output = Ok (map (fun s => [s]) syms) /\
    length syms = length step_output /\
    forall b, (b < length step_output)%nat ->
      (0 <= nth b syms 0 < Z.of_nat (length (nth b step_output [])))%Z.
Proof.
  unfold topk1. induction step_output as [|row so IH]; intros H.
  - exists []. simpl. repeat split; auto; lia.
  - inversion H as [|? ? Hr Hso]; subst.
    destruct (argmax_total row Hr) as (i & Ei & Li).
    destruct (IH Hso) as (syms & E & L & R).
    exists (Z.of_nat i :: syms). simpl. rewrite Ei. simpl. rewrite E. simpl.
    split; [reflexivity|]. split; [lia|].
    intros [|b'] Hb; [lia | apply R; lia].
Qed.

Lemma concat_singletons {A} (l : list A) : concat (map (fun s => [s]) l) = l.
Proof. induction l; simpl; congruence. Qed.

Lemma broadcast_and_mask a b mask :
  broadcast_and a b = Ok mask -> length mask = length a ->
  forall i, nth i mask false = true -> nth i a false = true.
Proof.
  unfold broadcast_and. intros H L i Hi.
  destruct (Nat.eqb_spec (length a) (length b)) as [E|N].
  - injection H as <-.
    rewrite (nth_indep _ false (true && false)) in Hi
      by (rewrite length_map in L |- *; destruct (Nat.lt_ge_cases i (length (combine a b))); auto;
          rewrite nth_overflow in Hi by (rewrite length_map; lia); discriminate).
    change (true && false) with ((fun '(x, y) => x && y) (false, false)) in Hi.
    rewrite map_nth, combine_nth in Hi by exact E.
    apply andb_true_iff in Hi. tauto.
  - assert (Hb : forall y, b = [y] -> mask = map (fun x => x && y) a ->
                           nth i a false = true).
    { intros y _ ->.
      destruct (Nat.lt_ge_cases i (length a)) as [Hlt|Hge].
      - rewrite (nth_indep _ false (false && y)) in Hi by (rewrite length_map; lia).
        rewrite (map_nth (fun x => x && y)) in Hi.
        apply andb_true_iff in Hi. tauto.
      - rewrite nth_overflow in Hi by (rewrite length_map; lia). discriminate. }
    destruct b as [|y [|y' b']].
    + destruct a as [|x [|x' a']]; simpl in *; try discriminate; try lia.
      injection H as <-. simpl in L. discriminate.
    + destruct a as [|x [|x' a']]; injection H as <-; eapply Hb; eauto.
    + destruct a as [|x [|x' a']]; simpl in *; try discriminate; try lia.
      injection H as <-. simpl in L. rewrite length_map in L. simpl in L. lia.
Qed.

Lemma masked_assign_spec arr mask v out :
  masked_assign arr mask v = Ok out ->
  length mask = length arr /\ length out = length arr /\
  forall i, nth i out 0%Z = if nth i mask false then v else nth i arr 0%Z.
Proof.
  unfold masked_assign.
  destruct (Nat.eqb_spec (length mask) (length arr)) as [E|N]; [|discriminate].
  intros H. injection H as <-. split; [exact E|].
  split; [rewrite length_map, length_combine; lia|].
  intros i.
  destruct (Nat.lt_ge_cases i (length arr)) as [Hlt|Hge].
  - pose proof (map_nth (fun '(x, b) => if b : bool then v else x)
                        (combine arr mask) (0%Z, false) i) as E1.
    simpl in E1. rewrite E1, combine_nth by lia. reflexivity.
  - rewrite (nth_overflow mask), (nth_overflow arr) by lia.
    apply nth_overflow. rewrite length_map, length_combine; lia.
Qed.

(** What one [decode] call does to the state, whenever it returns. *)
Lemma decode_inv m step step_output step_attn st st' symbols :
  decode m step step_output step_attn st = Ok (st', symbols) ->
  decoder_outputs st' = decoder_outputs st ++ [step_output] /\
  sequence_symbols st' = sequence_symbols st ++ [symbols] /\
  length (lengths st') = length (lengths st) /\
  (force_max_len m = true -> lengths st' = lengths st) /\
  forall b,
    nth b (lengths st') 0%Z = nth b (lengths st) 0%Z \/
    (force_max_len m = false /\
     (Z.of_nat step < nth b (lengths st) 0)%Z /\
     nth b (lengths st') 0%Z = Z.of_nat (S (length (sequence_symbols st)))).
Proof.
  unfold decode. intros H.
  apply bind_ok in H. destruct H as (sy & Hsy & H).
  apply bind_ok in H. destruct H as (lens & Hl & H).
  injection H as <- <-. simpl.
  split; [reflexivity|]. split; [reflexivity|].
  destruct (force_max_len m); simpl in Hl.
  - injection Hl as <-. repeat split; auto.
  - apply bind_ok in Hl. destruct Hl as (mask & Hm & Hl).
    apply masked_assign_spec in Hl. destruct Hl as (L1 & L2 & S).
    split; [exact L2|]. split; [discriminate|].
    intros b. rewrite S.
    destruct (nth b mask false) eqn:Eb; [right | left; reflexivity].
    split; [reflexivity|]. split.
    + assert (Ha := broadcast_and_mask _ _ _ Hm).
      rewrite length_map in Ha. specialize (Ha L1 b Eb).
      destruct (Nat.lt_ge_cases b (length (lengths st))) as [Hlt|Hge].
      * rewrite (nth_indep _ false ((fun l => (Z.of_nat step <? l)%Z) 0%Z)) in Ha
          by (rewrite length_map; lia).
        rewrite (map_nth (fun l => (Z.of_nat step <? l)%Z)) in Ha.
        apply Z.ltb_lt in Ha. exact Ha.
      * rewrite nth_overflow in Ha by (rewrite length_map; lia). discriminate.
    + rewrite length_app. simpl. f_equal. lia.
Qed.

Lemma concat_map_singletons {A B} (f : A -> B) (l : list A) :
  concat (map (map f) (map (fun s => [s]) l)) = map f l.
Proof. induction l; simpl; congruence. Qed.

Lemma broadcast_and_same a b :
  length a = length b ->
  broadcast_and a b = Ok (map (fun '(x, y) => x && y) (combine a b)).
Proof.
  intros E. unfold broadcast_and. rewrite E, Nat.eqb_refl. reflexivity.
Qed.

Lemma masked_assign_same arr mask v :
  length mask = length arr ->
  masked_assign arr mask v
  = Ok (map (fun '(x, b) => if b : bool then v else x) (combine arr mask)).
Proof.
  intros E. unfold masked_assign. rewrite E, Nat.eqb_refl. reflexivity.
Qed.

(** With one emitted symbol per entry of the length vector, [decode]
    returns, and the new length vector is given entry by entry. *)
Lemma decode_total m step step_output step_attn st :
  Forall (fun r => r <> []) step_output ->
  length step_output = length (lengths st) ->
  exists syms st',
    decode m step step_output step_attn st = Ok (st', map (fun s => [s]) syms) /\
    length syms = length step_output /\
    (forall b, (b < length step_output)%nat ->
       (0 <= nth b syms 0 < Z.of_nat (length (nth b step_output [])))%Z) /\
    decoder_outputs st' = decoder_outputs st ++ [step_output] /\
    sequence_symbols st' = sequence_symbols st ++ [map (fun s => [s]) syms] /\
    length (lengths st') = length (lengths st) /\
    forall b, (b < length (lengths st))%nat ->
      nth b (lengths st') 0%Z
      = if (negb (force_max_len m)
            && (Z.of_nat step <? nth b (lengths st) 0)%Z
            && (nth b syms 0 =? eos_id m)%Z)%bool
        then Z.of_nat (S (length (sequence_symbols st)))
        else nth b (lengths st) 0%Z.
Proof.
  intros Hne Hlen.
  destruct (topk1_total step_output Hne) as (syms & E & L & R).
  assert (L' : length syms = length (lengths st))
    by (etransitivity; [exact L | exact Hlen]).
  unfold decode. rewrite E. simpl.
  rewrite concat_map_singletons.
  destruct (force_max_len m); simpl.
  - eexists syms, _. split; [reflexivity|]. simpl. repeat split; auto; apply R; auto.
  - rewrite broadcast_and_same by (rewrite !length_map; lia). simpl.
    rewrite masked_assign_same
      by (rewrite length_map, length_combine, !length_map; lia).
    simpl. eexists syms, _. split; [reflexivity|]. simpl.
    split; [exact L|]. split; [exact R|]. split; [reflexivity|].
    split; [reflexivity|].
    split; [rewrite length_map, length_combine, length_map, length_combine, !length_map; lia|].
    intros b Hb.
    pose proof (map_nth (fun '(x, b) => if b : bool
                                        then Z.of_nat (length (sequence_symbols st ++ [map (fun s => [s]) syms]))
                                        else x)
                  (combine (lengths st)
                     (map (fun '(x, y) => x && y)
                        (combine (map (fun l => (Z.of_nat step <? l)%Z) (lengths st))
                                 (map (Z.eqb (eos_id m)) syms))))
                  (0%Z, false) b) as E1.
    simpl in E1. rewrite E1. clear E1.
    rewrite combine_nth
      by (rewrite length_map, length_combine, !length_map; lia).
    pose proof (map_nth (fun '(x, y) => x && y)
                  (combine (map (fun l => (Z.of_nat step <? l)%Z) (lengths st))
                           (map (Z.eqb (eos_id m)) syms))
                  (false, false) b) as E2.
    simpl in E2. rewrite E2. clear E2.
    rewrite combine_nth by (rewrite !length_map; lia).
    rewrite (nth_indep (map (fun l => (Z.of_nat step <? l)%Z) (lengths st)) false
               ((fun l => (Z.of_nat step <? l)%Z) 0%Z))
      by (rewrite length_map; lia).
    rewrite (map_nth (fun l => (Z.of_nat step <? l)%Z)).
    rewrite (nth_indep (map (Z.eqb (eos_id m)) syms) false (Z.eqb (eos_id m) 0%Z))
      by (rewrite length_map; lia).
    rewrite (map_nth (Z.eqb (eos_id m))).
    rewrite (Z.eqb_sym (eos_id m)). rewrite length_app. simpl.
    replace (length (sequence_symbols st) + 1)%nat
      with (S (length (sequence_symbols st))) by lia.
    reflexivity.
Qed.

(** Along a run of [decode] calls the length vector keeps its size, entries
    no larger than the current step index stay as they are, and with
    [force_max_len] nothing changes at all. *)
Lemma decode_run_lengths m i st j st' :
  decode_run m i st j st' ->
  (i <= j)%nat /\
  length (lengths st') = length (lengths st) /\
  length (sequence_symbols st') = (length (sequence_symbols st) + (j - i))%nat /\
  length (decoder_outputs st') = (length (decoder_outputs st) + (j - i))%nat /\
  (force_max_len m = true -> lengths st' = lengths st) /\
  (forall b, (nth b (lengths st) 0 <= Z.of_nat i)%Z ->
             nth b (lengths st') 0%Z = nth b (lengths st) 0%Z).
Proof.
  induction 1 as [i st | i st so sa st1 sy j st2 Hd Hrun IH].
  - repeat split; auto; lia.
  - destruct IH as (Hij & L & Sq & Dq & F & K).
    apply decode_inv in Hd. destruct Hd as (Ho & Hs & L1 & F1 & S1).
    split; [lia|]. split; [congruence|].
    split; [rewrite Sq, Hs, length_app; simpl; lia|].
    split; [rewrite Dq, Ho, length_app; simpl; lia|].
    split; [intros Hf; rewrite F, F1; auto|].
    intros b Hb.
    destruct (S1 b) as [E | (_ & Hlt & _)]; [|lia].
    rewrite K; [exact E | rewrite E; lia].
Qed.

(** In a run that starts with as many recorded symbols as its step index,
    no entry of the length vector ever grows. *)
Lemma decode_run_nonincreasing m i st j st' :
  decode_run m i st j st' ->
  length (sequence_symbols st) = i ->
  forall b, (nth b (lengths st') 0 <= nth b (lengths st) 0)%Z.
Proof.
  induction 1 as [i st | i st so sa st1 sy j st2 Hd Hrun IH]; intros Hi b; [lia|].
  apply decode_inv in Hd. destruct Hd as (Ho & Hs & L1 & F1 & S1).
  assert (Hi1 : length (sequence_symbols st1) = S i)
    by (rewrite Hs, length_app; simpl; lia).
  specialize (IH Hi1 b).
  destruct (S1 b) as [E | (_ & Hlt & E)]; lia.
Qed.

Lemma decode_run_trans m i st j st1 k st2 :
  decode_run m i st j st1 -> decode_run m j st1 k st2 -> decode_run m i st k st2.
Proof.
  induction 1; intros H2; [exact H2|]. eapply run_step; eauto.
Qed.

Lemma tf_loop_run m decoder_output attn n : forall di st st',
  tf_loop m decoder_output attn n di st = Ok st' ->
  decode_run m di st (di + n) st'.
Proof.
  induction n as [|n IH]; simpl; intros di st st' H.
  - injection H as <-. rewrite Nat.add_0_r. constructor.
  - apply bind_ok in H. destruct H as (so & _ & H).
    apply bind_ok in H. destruct H as (sa & _ & H).
    apply bind_ok in H. destruct H as ([st1 sy] & Hd & H).
    replace (di + S n)%nat with (S di + n)%nat by lia.
    eapply run_step; eauto.
Qed.

Lemma greedy_loop_run m enc function n : forall di inp hid st st' hid',
  greedy_loop m enc function n di inp hid st = Ok (st', hid') ->
  decode_run m di st (di + n) st'.
Proof.
  induction n as [|n IH]; simpl; intros di inp hid st st' hid' H.
  - injection H as <- <-. rewrite Nat.add_0_r. constructor.
  - apply bind_ok in H. destruct H as ([[o h1] a] & _ & H).
    apply bind_ok in H. destruct H as ([st1 sy] & Hd & H).
    replace (di + S n)%nat with (S di + n)%nat by lia.
    eapply run_step; eauto.
Qed.


(** ** Failures other than the configuration errors *)

Lemma nic_ok {A} (a : A) : no_invalid_configuration (Ok a).
Proof. intros e H. discriminate. Qed.

Lemma nic_type {A} s : no_invalid_configuration (@Err A (TypeError s)).
Proof. intros e H [E|E]; injection H as <-; discriminate. Qed.

Lemma nic_index {A} s : no_invalid_configuration (@Err A (IndexError s)).
Proof. intros e H [E|E]; injection H as <-; discriminate. Qed.

Lemma nic_attribute {A} s : no_invalid_configuration (@Err A (AttributeError s)).
Proof. intros e H [E|E]; injection H as <-; discriminate. Qed.

Lemma nic_runtime {A} s : no_invalid_configuration (@Err A (RuntimeError s)).
Proof. intros e H [E|E]; injection H as <-; discriminate. Qed.

Lemma nic_broadcast {A} : no_invalid_configuration (@Err A (ValueError msg_broadcast)).
Proof. intros e H [E|E]; injection H as <-; discriminate. Qed.

Lemma nic_bind {A B} (c : Result A) (k : A -> Result B) :
  no_invalid_configuration c -> (forall a, no_invalid_configuration (k a)) ->
  no_invalid_configuration (bind c k).
Proof.
  intros Hc Hk. destruct c as [a|e]; simpl; [apply Hk|].
  intros e' H. injection H as <-. apply (Hc e). reflexivity.
Qed.

Lemma nic_mapM {A B} (f : A -> Result B) l :
  (forall a, no_invalid_configuration (f a)) ->
  no_invalid_configuration (mapM f l).
Proof.
  intros Hf. induction l as [|x l IH]; simpl; [apply nic_ok|].
  apply nic_bind; [apply Hf|]. intros y.
  apply nic_bind; [exact IH|]. intros ys. apply nic_ok.
Qed.

Ltac nic_step :=
  match goal with
  | |- no_invalid_configuration (Ok _) => apply nic_ok
  | |- no_invalid_configuration (Err (TypeError _)) => apply nic_type
  | |- no_invalid_configuration (Err (IndexError _)) => apply nic_index
  | |- no_invalid_configuration (Err (AttributeError _)) => apply nic_attribute
  | |- no_invalid_configuration (Err (RuntimeError _)) => apply nic_runtime
  | |- no_invalid_configuration (Err (ValueError msg_broadcast)) => apply nic_broadcast
  | H : _ |- no_invalid_configuration _ => solve [apply H]
  | |- no_invalid_configuration (bind _ _) => apply nic_bind; [|intros ?]
  | |- no_invalid_configuration (mapM _ _) => apply nic_mapM; intros ?
  | |- no_invalid_configuration (match ?x with _ => _ end) => destruct x
  end.

Ltac nic := repeat nic_step.

Lemma nic_nth_res {A} i (l : list A) : no_invalid_configuration (nth_res i l).
Proof. unfold nth_res. nic. Qed.

Lemma nic_view_rows c t : no_invalid_configuration (view_rows c t).
Proof. unfold view_rows. nic. Qed.

Lemma nic_view3 b w t : no_invalid_configuration (view3 b w t).
Proof. unfold view3. nic. Qed.

Lemma nic_scatter_row idxs : forall row v,
  no_invalid_configuration (scatter_row row idxs v).
Proof. induction idxs as [|i idxs IH]; intros row v; simpl; nic. Qed.

Lemma nic_scatter index : forall lg v, no_invalid_configuration (scatter_ lg index v).
Proof.
  induction index as [|i index IH]; intros lg v; simpl; [nic|].
  destruct lg as [|row lg]; [nic|].
  apply nic_bind; [apply nic_scatter_row|]. intros r. nic.
Qed.

Lemma nic_penalize pm : forall lg, no_invalid_configuration (penalize lg pm).
Proof.
  induction pm as [|i pm IH]; intros lg; simpl; [nic|].
  apply nic_bind; [apply nic_scatter|]. intros lg'. apply IH.
Qed.

Lemma nic_forward_step_logits m i h e pm :
  no_invalid_configuration (forward_step_logits m i h e pm).
Proof.
  unfold forward_step_logits.
  destruct (rnn m _ h) as [o h'].
  destruct (use_attention m); [destruct (attention m o e) as [o' a]|];
    (apply nic_bind; [apply nic_view_rows|]; intros flat;
     apply nic_bind; [|intros lg; nic];
     destruct pm as [pm|]; [|nic];
     destruct (size1 i =? 1)%nat; [apply nic_penalize | nic]).
Qed.

Lemma nic_forward_step m i h e f pm :
  no_invalid_configuration (forward_step m i h e f pm).
Proof.
  unfold forward_step.
  apply nic_bind; [apply nic_forward_step_logits|]. intros [[lg h'] a].
  apply nic_bind; [apply nic_view3|]. intros p. nic.
Qed.

Lemma nic_topk1 so : no_invalid_configuration (topk1 so).
Proof. unfold topk1, argmax. nic. Qed.

Lemma nic_broadcast_and a b : no_invalid_configuration (broadcast_and a b).
Proof. unfold broadcast_and. nic. Qed.

Lemma nic_masked_assign a mk v : no_invalid_configuration (masked_assign a mk v).
Proof. unfold masked_assign. nic. Qed.

Lemma nic_decode m step so sa st : no_invalid_configuration (decode m step so sa st).
Proof.
  unfold decode.
  apply nic_bind; [apply nic_topk1|]. intros sy.
  apply nic_bind; [|intros; nic].
  destruct (_ && _)%bool; [|nic].
  apply nic_bind; [apply nic_broadcast_and|]. intros mk. apply nic_masked_assign.
Qed.

Lemma nic_slice1 di t : no_invalid_configuration (slice1 di t).
Proof. unfold slice1. apply nic_mapM. intros a. apply nic_nth_res. Qed.

Lemma nic_tf_loop m o a n : forall di st,
  no_invalid_configuration (tf_loop m o a n di st).
Proof.
  induction n as [|n IH]; intros di st; simpl; [nic|].
  apply nic_bind; [apply nic_slice1|]. intros so.
  apply nic_bind.
  { destruct a; [|nic]. apply nic_bind; [apply nic_slice1|]. intros; nic. }
  intros sa. apply nic_bind; [apply nic_decode|]. intros [st' sy]. apply IH.
Qed.

Lemma nic_first_column inputs : no_invalid_configuration (first_column inputs).
Proof.
  unfold first_column. apply nic_mapM. intros r.
  apply nic_bind; [apply nic_nth_res|]. intros; nic.
Qed.

Lemma nic_greedy_loop m enc f n : forall di inp hid st,
  no_invalid_configuration (greedy_loop m enc f n di inp hid st).
Proof.
  induction n as [|n IH]; intros di inp hid st; simpl; [nic|].
  apply nic_bind; [apply nic_forward_step|]. intros [[o h'] a].
  apply nic_bind; [apply nic_decode|]. intros [st' sy]. apply IH.
Qed.

Lemma nic_topk_smallest k row : no_invalid_configuration (topk_smallest k row).
Proof. unfold topk_smallest. nic. Qed.

Lemma nic_getTopkIndsnScores m c : no_invalid_configuration (getTopkIndsnScores m c).
Proof.
  unfold getTopkIndsnScores.
  apply nic_bind.
  { apply nic_mapM. intros a. apply nic_mapM. intros b. apply nic_nth_res. }
  intros sl. destruct (_ =? 0)%nat; [nic|].
  apply nic_bind; [|intros; nic].
  apply nic_mapM. intros a. apply nic_topk_smallest.
Qed.

Lemma nic_hidGathInds p b : no_invalid_configuration (hidGathInds p b).
Proof. unfold hidGathInds. nic. Qed.

Lemma nic_gather0 src idx : no_invalid_configuration (gather0 src idx).
Proof.
  unfold gather0. apply nic_bind; [|intros; nic].
  apply nic_mapM. intros [b idxs]. apply nic_mapM. intros [j i].
  destruct (0 <=? i)%Z; [|nic].
  apply nic_bind; [apply nic_nth_res|]. intros pl.
  apply nic_bind; [apply nic_nth_res|]. intros row. apply nic_nth_res.
Qed.

Lemma nic_broadcast2 {A B C} (f : A -> B -> Result C) xs ys :
  (forall x y, no_invalid_configuration (f x y)) ->
  no_invalid_configuration (broadcast2 f xs ys).
Proof.
  intros Hf. unfold broadcast2.
  destruct (_ =? _)%nat.
  - apply nic_mapM. intros [x y]. apply Hf.
  - destruct xs as [|x [|x' xs]]; destruct ys as [|y [|y' ys]];
      try (apply nic_mapM; intros ?; apply Hf); nic.
Qed.

Lemma nic_candScores_of log p s : no_invalid_configuration (candScores_of log p s).
Proof.
  unfold candScores_of. apply nic_broadcast2. intros pk sk.
  apply nic_broadcast2. intros pb sc. nic.
Qed.

Lemma nic_expand_hyps m bsz enc f h0 c0 inds n : forall k dh,
  no_invalid_configuration (expand_hyps m bsz enc f h0 c0 inds n k dh).
Proof.
  induction n as [|n IH]; intros k dh; simpl; [nic|].
  apply nic_bind; [apply nic_nth_res|]. intros hyp.
  apply nic_bind; [apply nic_hidGathInds|]. intros gi.
  apply nic_bind; [apply nic_gather0|]. intros gh.
  apply nic_bind; [apply nic_gather0|]. intros gc.
  apply nic_bind; [apply nic_forward_step|]. intros [[o h'] a].
  destruct h' as [h c|h]; [|nic].
  apply nic_bind; [apply IH|]. intros [[[ps hs] cs] last]. nic.
Qed.

Lemma nic_beam_expand log m bsz enc f bh bc bi bsc lm dh :
  no_invalid_configuration (beam_expand log m bsz enc f bh bc bi bsc lm dh).
Proof.
  unfold beam_expand.
  apply nic_bind; [apply nic_mapM; intros ?; apply nic_nth_res|]. intros h0.
  apply nic_bind; [apply nic_mapM; intros ?; apply nic_nth_res|]. intros c0.
  apply nic_bind; [apply nic_expand_hyps|]. intros [[[ps hs] cs] last].
  destruct ps as [|p ps]; [nic|].
  apply nic_bind; [apply nic_candScores_of|]. intros cand.
  apply nic_bind; [apply nic_getTopkIndsnScores|]. intros nxt. nic.
Qed.

Lemma nic_beam_step log m bs bsz enc f di lm dh :
  no_invalid_configuration (beam_step log m bs bsz enc f di lm dh).
Proof.
  unfold beam_step.
  apply nic_bind; [apply nic_nth_res|]. intros bh.
  apply nic_bind; [apply nic_nth_res|]. intros bc.
  apply nic_bind; [apply nic_nth_res|]. intros bi.
  apply nic_bind; [apply nic_nth_res|]. intros bsc.
  apply nic_beam_expand.
Qed.

Lemma nic_beam_loop log m bs bsz enc f n : forall di lm dh,
  no_invalid_configuration (beam_loop log m bs bsz enc f n di lm dh).
Proof.
  induction n as [|n IH]; intros di lm dh; simpl; [nic|].
  apply nic_bind; [apply nic_beam_step|]. intros [[lm' dh'] nxt]. apply IH.
Qed.

Lemma nic_cat_directions m h : no_invalid_configuration (_cat_directions m h).
Proof. unfold _cat_directions, cat2. nic. Qed.

Lemma nic_init_state m eh : no_invalid_configuration (_init_state m eh).
Proof.
  unfold _init_state. destruct eh as [[h c|h]|]; [| |nic].
  - apply nic_bind; [apply nic_cat_directions|]. intros h'.
    apply nic_bind; [apply nic_cat_directions|]. intros c'. nic.
  - apply nic_bind; [apply nic_cat_directions|]. intros h'. nic.
Qed.

(** ** Argument validation *)

Lemma Qlt_bool_iff x y : Qlt_bool x y = true <-> (x < y)%Q.
Proof.
  unfold Qlt_bool. rewrite negb_true_iff. split.
  - intros H. apply Qnot_le_lt. intros Hle.
    apply Qle_bool_iff in Hle. congruence.
  - intros H. destruct (Qle_bool y x) eqn:E; [|reflexivity].
    apply Qle_bool_iff in E. exfalso. exact (Qlt_not_le _ _ H E).
Qed.

Lemma index_valid_repeat (v b : nat) (sos : Z) :
  (0 <= sos < Z.of_nat v)%Z ->
  index_valid (repeat (repeat 0%Q v) b) (repeat [sos] b).
Proof.
  intros H. induction b as [|b IH]; simpl; [exact I|].
  split; [|exact IH]. unfold idxs_valid. rewrite repeat_length.
  constructor; [exact H | constructor].
Qed.

Lemma one_hot_inputs_total b v sos :
  (0 <= sos < Z.of_nat v)%Z -> exists i, one_hot_inputs b v sos = Ok i.
Proof.
  intros H. unfold one_hot_inputs.
  destruct (scatter_spec _ _ 1%Q (index_valid_repeat v b sos H)) as (lg & E & _).
  rewrite E. simpl. eauto.
Qed.

Lemma hidden_batch_size_total cell eh :
  state_fits_cell cell (Some eh) -> exists b, hidden_batch_size cell eh = Ok b.
Proof.
  destruct eh as [h c|h]; simpl; intros ->; simpl; eauto.
Qed.

Lemma validate_args_attention m inputs eh eo tfr :
  use_attention m = true -> eo = None ->
  _validate_args m inputs eh eo tfr = Err (ValueError msg_attention).
Proof.
  intros Ha ->. unfold _validate_args. rewrite Ha. reflexivity.
Qed.

Lemma validate_args_teacher_forcing m eh eo tfr :
  ~ (use_attention m = true /\ eo = None) ->
  state_fits_cell (rnn_cell m) eh ->
  (0 < tfr)%Q ->
  _validate_args m None eh eo tfr = Err (ValueError msg_teacher_forcing).
Proof.
  intros Hna Hfit Ht. unfold _validate_args.
  assert (Ea : (if use_attention m
                then match eo with None => Err (ValueError msg_attention) | Some _ => Ok tt end
                else Ok tt) = Ok tt).
  { destruct (use_attention m); [|reflexivity].
    destruct eo; [reflexivity|]. exfalso. apply Hna. auto. }
  rewrite Ea. simpl.
  apply Qlt_bool_iff in Ht.
  destruct eh as [eh|].
  - destruct (hidden_batch_size_total _ _ Hfit) as (b & Eb). rewrite Eb. simpl.
    rewrite Ht. reflexivity.
  - simpl. rewrite Ht. reflexivity.
Qed.

Lemma validate_args_passes m inputs eh eo tfr :
  state_fits_cell (rnn_cell m) eh -> sos_in_vocabulary m ->
  ~ invalid_arguments m inputs eo tfr ->
  exists inputs' batch_size,
    _validate_args m inputs eh eo tfr
    = Ok (inputs', batch_size,
          match inputs with
          | None => max_length m
          | Some i => (Z.of_nat (size1 i) - 1)%Z
          end).
Proof.
  intros Hfit Hsos Hn. unfold invalid_arguments in Hn. unfold _validate_args.
  assert (Ea : (if use_attention m
                then match eo with None => Err (ValueError msg_attention) | Some _ => Ok tt end
                else Ok tt) = Ok tt).
  { destruct (use_attention m); [|reflexivity].
    destruct eo; [reflexivity|]. exfalso. apply Hn. auto. }
  rewrite Ea. simpl.
  destruct inputs as [i|].
  - simpl. eauto.
  - assert (Et : Qlt_bool 0 tfr = false).
    { destruct (Qlt_bool 0 tfr) eqn:E; [|reflexivity].
      apply Qlt_bool_iff in E. exfalso. apply Hn. auto. }
    assert (Hin : forall b, exists i,
               (if negb (use_prob_vector m) then Ok (repeat [Tok (sos_id m)] b)
                else one_hot_inputs b (output_size m) (sos_id m)) = Ok i).
    { intros b. destruct (use_prob_vector m) eqn:Ep; simpl; [|eauto].
      apply one_hot_inputs_total. apply Hsos. exact Ep. }
    destruct eh as [eh|].
    + destruct (hidden_batch_size_total _ _ Hfit) as (b & Eb). rewrite Eb.
      cbv beta iota delta [bind].
      rewrite Et. destruct (Hin b) as (i & Ei). rewrite Ei. eauto.
    + cbv beta iota delta [bind].
      rewrite Et. destruct (Hin 1%nat) as (i & Ei). rewrite Ei. eauto.
Qed.

Lemma invalid_arguments_dec m inputs eo tfr :
  invalid_arguments m inputs eo tfr \/ ~ invalid_arguments m inputs eo tfr.
Proof.
  unfold invalid_arguments.
  destruct (use_attention m); destruct eo as [o|]; destruct inputs as [i|];
    destruct (Qlt_le_dec 0 tfr) as [Hlt|Hle];
    try (left; left; split; reflexivity);
    try (left; right; split; [reflexivity | assumption]);
    right; intros [[H1 H2]|[H1 H2]]; try discriminate;
    exact (Qlt_not_le _ _ H2 Hle).
Qed.

(** Whatever follows a successful validation inside [forward] cannot fail
    with a configuration error. *)
Lemma forward_after_validation log m rnd inputs beamStates eh eo function tfr
      max_len semi_sup v :
  _validate_args (set_max_length m max_len) inputs eh eo tfr = Ok v ->
  no_invalid_configuration
    (snd (forward log m rnd inputs beamStates eh eo function tfr max_len semi_sup)).
Proof.
  intros Hv. unfold forward. simpl. rewrite Hv. destruct v as [[i b] M]. simpl.
  apply nic_bind; [destruct beamStates; nic|]. intros bs.
  apply nic_bind; [apply nic_nth_res|]. intros inds0.
  apply nic_bind; [apply nic_init_state|]. intros dh.
  apply nic_bind; [apply nic_nth_res|]. intros c0.
  apply nic_bind; [|intros [[st dh'] lm]; nic].
  destruct (Qlt_bool rnd tfr).
  - apply nic_bind; [apply nic_forward_step|]. intros [[o h'] a].
    apply nic_bind; [apply nic_tf_loop|]. intros st. nic.
  - destruct (beamSearchMode _).
    + apply nic_bind; [apply nic_first_column|]. intros _.
      apply nic_bind; [apply nic_beam_loop|]. intros [lm dh']. nic.
    + apply nic_bind; [apply nic_first_column|]. intros di.
      apply nic_bind; [apply nic_greedy_loop|]. intros [st dh']. nic.
Qed.

(** C4.  [forward] fails with a configuration error exactly when attention
    is enabled without encoder outputs, or no inputs are given with a
    positive teacher-forcing ratio.  The failure is the one raised by
    [_validate_args], which runs before any call of [forward_step] and
    yields no result; in every other configuration the validation returns
    the inputs, the batch size and the decode length. *)
Theorem forward_invalid_configuration log m rnd inputs beamStates eh eo function
        tfr max_len semi_sup :
  state_fits_cell (rnn_cell m) eh ->
  sos_in_vocabulary m ->
  let r := snd (forward log m rnd inputs beamStates eh eo function tfr max_len
                        semi_sup) in
  ((exists e, r = Err e /\ InvalidConfiguration e)
   <-> invalid_arguments m inputs eo tfr) /\
  (invalid_arguments m inputs eo tfr ->
   exists e, InvalidConfiguration e /\
     _validate_args (set_max_length m max_len) inputs eh eo tfr = Err e /\
     r = Err e) /\
  (~ invalid_arguments m inputs eo tfr ->
   exists v, _validate_args (set_max_length m max_len) inputs eh eo tfr = Ok v).
Proof.
  intros Hfit Hsos r.
  set (m' := set_max_length m max_len).
  assert (Hbad : invalid_arguments m inputs eo tfr ->
                 exists e, InvalidConfiguration e /\
                   _validate_args m' inputs eh eo tfr = Err e /\ r = Err e).
  { intros Hc.
    assert (Hd : (use_attention m' = true /\ eo = None) \/
                 (~ (use_attention m' = true /\ eo = None) /\
                  inputs = None /\ (0 < tfr)%Q)).
    { destruct (use_attention m') eqn:Ea; destruct eo as [o|];
        try (left; split; reflexivity);
        right; (split; [intros [? ?]; discriminate|]);
        destruct Hc as [[H1 H2]|H]; auto; try discriminate;
        unfold m' in Ea; simpl in Ea; congruence. }
    destruct Hd as [[Ha He] | (Hn & Hi & Ht)].
    - exists (ValueError msg_attention). split; [left; reflexivity|].
      assert (E := validate_args_attention m' inputs eh eo tfr Ha He).
      split; [exact E|]. unfold r, forward. simpl. fold m'. rewrite E. reflexivity.
    - subst inputs. exists (ValueError msg_teacher_forcing).
      split; [right; reflexivity|].
      assert (E := validate_args_teacher_forcing m' eh eo tfr Hn Hfit Ht).
      split; [exact E|]. unfold r, forward. simpl. fold m'. rewrite E. reflexivity. }
  assert (Hgood : ~ invalid_arguments m inputs eo tfr ->
                  exists v, _validate_args m' inputs eh eo tfr = Ok v).
  { intros Hn.
    destruct (validate_args_passes m' inputs eh eo tfr Hfit Hsos Hn)
      as (i & b & E).
    eauto. }
  split; [|split; [exact Hbad | exact Hgood]].
  split.
  - intros (e & Er & Hinv).
    destruct (invalid_arguments_dec m inputs eo tfr) as [Hc|Hn]; [exact Hc|].
    exfalso. destruct (Hgood Hn) as (v & Ev).
    exact (forward_after_validation log m rnd inputs beamStates eh eo
             function tfr max_len semi_sup v Ev e Er Hinv).
  - intros Hc. destruct (Hbad Hc) as (e & Hi & _ & Er). eauto.
Qed.

(** C1.  A call of [forward] without a beam-state bundle never returns a
    result: when the arguments pass validation, the subscript
    [beamStates['topkInds']] on [None] raises a [TypeError], in every
    decoding mode. *)
Theorem forward_without_beam_states log m rnd inputs eh eo function tfr max_len
        semi_sup :
  exists e,
    snd (forward log m rnd inputs None eh eo function tfr max_len semi_sup) = Err e /\
    forall v, _validate_args (set_max_length m max_len) inputs eh eo tfr = Ok v ->
              e = TypeError msg_none_subscript.
Proof.
  unfold forward. simpl.
  destruct (_validate_args (set_max_length m max_len) inputs eh eo tfr)
    as [[[i b] M]|e]; simpl.
  - exists (TypeError msg_none_subscript). split; [reflexivity | auto].
  - exists e. split; [reflexivity|]. intros v H. discriminate.
Qed.


(** ** Shapes *)

Lemma Forall_firstn {A} (P : A -> Prop) n l : Forall P l -> Forall P (firstn n l).
Proof.
  revert n; induction l as [|x l IH]; intros [|n] H; simpl; auto.
  inversion H; subst. constructor; auto.
Qed.

Lemma Forall_skipn {A} (P : A -> Prop) n l : Forall P l -> Forall P (skipn n l).
Proof.
  revert n; induction l as [|x l IH]; intros [|n] H; simpl; auto.
  inversion H; subst. auto.
Qed.

Lemma length_chunk {A} cnt w (l : list A) : length (chunk cnt w l) = cnt.
Proof. revert l; induction cnt; intros l; simpl; auto. Qed.

Lemma chunk_widths {A} cnt w (l : list A) :
  length l = (cnt * w)%nat -> Forall (fun g => length g = w) (chunk cnt w l).
Proof.
  revert l; induction cnt as [|cnt IH]; intros l H; simpl; constructor.
  - rewrite length_firstn. simpl in H. lia.
  - apply IH. rewrite length_skipn. simpl in H. lia.
Qed.

Lemma chunk_Forall {A} (P : A -> Prop) cnt w (l : list A) :
  Forall P l -> Forall (Forall P) (chunk cnt w l).
Proof.
  revert l; induction cnt as [|cnt IH]; intros l H; simpl; constructor.
  - apply Forall_firstn. exact H.
  - apply IH. apply Forall_skipn. exact H.
Qed.

Lemma firstn_skipn_exact {A} V (r x : list A) :
  length r = V -> firstn V (r ++ x) = r /\ skipn V (r ++ x) = x.
Proof.
  intros <-. rewrite firstn_app, skipn_app, Nat.sub_diag, firstn_all, skipn_all.
  simpl. rewrite app_nil_r. auto.
Qed.

Lemma chunk_concat {A} V (t : list (list A)) :
  Forall (fun r => length r = V) t -> chunk (length t) V (concat t) = t.
Proof.
  induction 1 as [|r t Hr Ht IH]; simpl; [reflexivity|].
  destruct (firstn_skipn_exact V r (concat t) Hr) as [-> ->].
  rewrite IH. reflexivity.
Qed.

Lemma length_concat_uniform {A} V (t : list (list A)) :
  Forall (fun r => length r = V) t -> length (concat t) = (length t * V)%nat.
Proof.
  induction 1 as [|r t Hr Ht IH]; simpl; [reflexivity|].
  rewrite length_app, IH, Hr. reflexivity.
Qed.

Lemma view3_total b w V (t : T2) :
  length t = (b * w)%nat -> (0 < b * w)%nat ->
  Forall (fun r => length r = V) t ->
  view3 b w t = Ok (chunk b w t).
Proof.
  intros L Hpos HV. unfold view3.
  destruct (Nat.eqb_spec (b * w) 0) as [E|_]; [lia|].
  rewrite (length_concat_uniform V t HV), L.
  rewrite (Nat.mul_comm (b * w) V), Nat.Div0.mod_mul, Nat.div_mul by lia.
  simpl. rewrite <- L, chunk_concat by exact HV. reflexivity.
Qed.

Lemma Forall_length_map {A} V (t t' : list (list A)) :
  map (@length A) t' = map (@length A) t ->
  Forall (fun r => length r = V) t -> Forall (fun r => length r = V) t'.
Proof.
  revert t'; induction t as [|r t IH]; intros [|r' t'] E H; simpl in E;
    try discriminate; constructor.
  - inversion H; subst. injection E as E1 _. congruence.
  - inversion H; subst. injection E as _ E2. auto.
Qed.

Lemma map_length_eq {A} (t t' : list (list A)) :
  map (@length A) t' = map (@length A) t -> length t' = length t.
Proof.
  intros E. rewrite <- (length_map (@length A) t'), E. apply length_map.
Qed.

(** [forward_step] without a history, on a rectangular input. *)
Lemma forward_step_total m V function inp hid enc :
  step_shaped m V -> shape_preserving function -> rect inp ->
  (0 < length inp * size1 inp)%nat ->
  exists p hid' attn,
    forward_step m inp hid enc function None = Ok (p, hid', attn) /\
    length p = length inp /\
    Forall (fun g => length g = size1 inp) p /\
    Forall (Forall (fun r => length r = V)) p /\
    forall a, attn = Some a -> Forall (fun r => (size1 inp <= length r)%nat) a.
Proof.
  intros Hs Hf Hr Hpos.
  destruct (Hs inp hid enc Hr) as (lg & hid' & attn & E & L & HV & Ha).
  assert (HV' : Forall (fun r => length r = V) (function lg))
    by (eapply Forall_length_map; [apply Hf | exact HV]).
  assert (L' : length (function lg) = (length inp * size1 inp)%nat)
    by (rewrite (map_length_eq _ _ (Hf lg)); exact L).
  exists (chunk (length inp) (size1 inp) (function lg)), hid', attn.
  split.
  { unfold forward_step. rewrite E. simpl.
    rewrite (view3_total _ _ V) by auto. reflexivity. }
  split; [apply length_chunk|].
  split; [apply chunk_widths; exact L'|].
  split; [apply chunk_Forall; exact HV' | exact Ha].
Qed.

Lemma slice1_total di (t : T3) :
  Forall (fun g => (di < length g)%nat) t ->
  slice1 di t = Ok (map (fun g => nth di g []) t).
Proof.
  intros H. unfold slice1. apply mapM_total.
  intros g Hg. rewrite Forall_forall in H. unfold nth_res.
  rewrite (nth_error_nth' g [] (H g Hg)). reflexivity.
Qed.

Lemma slice_rows_nonempty V di (p : T3) :
  (0 < V)%nat ->
  Forall (fun g => (di < length g)%nat) p ->
  Forall (Forall (fun r => length r = V)) p ->
  Forall (fun r => r <> []) (map (fun g => nth di g []) p).
Proof.
  intros HV Hd Hp. rewrite Forall_forall. intros r Hr.
  apply in_map_iff in Hr. destruct Hr as (g & <- & Hg).
  rewrite Forall_forall in Hd, Hp.
  specialize (Hd g Hg). specialize (Hp g Hg). rewrite Forall_forall in Hp.
  assert (Hl : length (nth di g []) = V) by (apply Hp, nth_In; exact Hd).
  intros E. rewrite E in Hl. simpl in Hl. lia.
Qed.

(** ** The teacher-forced loop returns *)

Lemma tf_loop_total m V (p : T3) attn n : forall di st,
  (0 < V)%nat ->
  Forall (fun g => (di + n <= length g)%nat) p ->
  Forall (Forall (fun r => length r = V)) p ->
  (forall a, attn = Some a -> Forall (fun r => (di + n <= length r)%nat) a) ->
  length p = length (lengths st) ->
  exists st', tf_loop m p attn n di st = Ok st' /\
    decoder_outputs st'
    = decoder_outputs st ++ map (fun i => map (fun g => nth i g []) p) (seq di n).
Proof.
  induction n as [|n IH]; intros di st HV Hw Hp Ha Hl; simpl;
    [rewrite app_nil_r; eauto|].
  rewrite slice1_total
    by (eapply Forall_impl; [|exact Hw]; simpl; intros; lia).
  simpl.
  assert (Hattn : exists sa,
             match attn with
             | Some a => do sa <- slice1 di a; Ok (Some (Rank2 sa))
             | None => Ok None
             end = Ok sa).
  { destruct attn as [a|]; [|eauto].
    rewrite slice1_total; [simpl; eauto|].
    eapply Forall_impl; [|apply (Ha a eq_refl)]. simpl. intros; lia. }
  destruct Hattn as (sa & ->). simpl.
  destruct (decode_total m di (map (fun g => nth di g []) p) sa st)
    as (syms & st1 & E & _ & _ & O1 & _ & L1 & _).
  { apply (slice_rows_nonempty V); auto.
    eapply Forall_impl; [|exact Hw]. simpl. intros; lia. }
  { rewrite length_map. exact Hl. }
  rewrite E. simpl.
  destruct (IH (S di) st1) as (st' & E' & O'); auto.
  - eapply Forall_impl; [|exact Hw]. simpl. intros; lia.
  - intros a Ea. eapply Forall_impl; [|apply (Ha a Ea)]. simpl. intros; lia.
  - congruence.
  - exists st'. split; [exact E'|]. rewrite O', O1, <- app_assoc. reflexivity.
Qed.

Lemma size1_of_rows {A} (t : list (list A)) n :
  (0 < length t)%nat -> Forall (fun r => length r = n) t -> size1 t = n.
Proof.
  destruct t as [|r t]; simpl; intros H1 H2; [lia|].
  inversion H2 as [|? ? Hr _]. exact Hr.
Qed.

Lemma step_shaped_set_max_length m V v :
  step_shaped m V -> step_shaped (set_max_length m v) V.
Proof. intros H inp hid enc Hr. exact (H inp hid enc Hr). Qed.

Lemma validate_args_inputs m inp eh eo tfr :
  (use_attention m = true -> eo <> None) ->
  _validate_args m (Some inp) eh eo tfr
  = Ok (inp, length inp, (Z.of_nat (size1 inp) - 1)%Z).
Proof.
  intros Ha. unfold _validate_args.
  destruct (use_attention m); [destruct eo; [|exfalso; apply Ha; auto]|];
    reflexivity.
Qed.

Lemma bundle_batch_reads bs B :
  bundle_batch bs B ->
  exists inds0 cells0,
    nth_res 0 (topkInds bs) = Ok inds0 /\ size1 inds0 = B /\
    nth_res 0 (cells bs) = Ok cells0.
Proof.
  intros (i0 & c0 & E1 & E2 & E3). exists i0, c0. unfold nth_res.
  rewrite E1, E3. auto.
Qed.

(** C7.  When teacher forcing fires on an input of [B >= 1] rows of [L+1]
    tokens ([L >= 1]), [forward] returns, and its step outputs are the [L]
    slices of one [forward_step] pass over the input without its last
    column: the decode length is the input length minus one. *)
Theorem teacher_forced_output_count log m V rnd inp bs eh eo function tfr max_len
        semi_sup B L :
  step_shaped m V -> (0 < V)%nat -> shape_preserving function ->
  (0 < B)%nat -> (0 < L)%nat ->
  length inp = B -> Forall (fun r => length r = S L) inp ->
  (rnd < tfr)%Q ->
  (use_attention m = true -> eo <> None) ->
  bundle_batch bs B ->
  (exists dh, _init_state m eh = Ok dh) ->
  exists outs hid ret dh p hid' attn,
    snd (forward log m rnd (Some inp) (Some bs) eh eo function tfr max_len
                 semi_sup) = Ok (outs, hid, ret) /\
    length outs = L /\
    Z.of_nat (length outs) = (Z.of_nat (size1 inp) - 1)%Z /\
    _init_state m eh = Ok dh /\
    forward_step m (map (@removelast Token) inp) dh eo function None
    = Ok (p, hid', attn) /\
    outs = map (fun di => map (fun g => nth di g []) p) (seq 0 L) /\
    length (ret_length ret) = B.
Proof.
  intros Hs HV Hf HB HL Hlen Hrows Hrnd Hatt Hbs (dh & Hdh).
  set (m' := set_max_length m max_len).
  assert (Hs' : step_shaped m' V) by (apply step_shaped_set_max_length; exact Hs).
  destruct (bundle_batch_reads bs B Hbs) as (i0 & c0 & Ei & Si & Ec).
  assert (Hsz : size1 inp = S L) by (apply size1_of_rows; [lia | exact Hrows]).
  set (dinp := map (@removelast Token) inp).
  assert (Hdl : length dinp = B) by (unfold dinp; rewrite length_map; exact Hlen).
  assert (Hdr : Forall (fun r => length r = L) dinp).
  { unfold dinp. rewrite Forall_forall. intros r Hr.
    apply in_map_iff in Hr. destruct Hr as (r0 & <- & Hr0).
    rewrite Forall_forall in Hrows. specialize (Hrows r0 Hr0).
    rewrite removelast_firstn_len, length_firstn. lia. }
  assert (Hds : size1 dinp = L) by (apply size1_of_rows; [lia | exact Hdr]).
  assert (Hrect : rect dinp) by (unfold rect; rewrite Hds; exact Hdr).
  destruct (forward_step_total m' V function dinp dh eo Hs' Hf Hrect)
    as (p & hid' & attn & Ep & Lp & Wp & Vp & Ap); [rewrite Hdl, Hds; lia|].
  rewrite Hds in Wp. rewrite Hdl in Lp.
  assert (Hps : size1 p = L) by (apply size1_of_rows; [lia | exact Wp]).
  destruct (tf_loop_total m' V p attn L 0
              (init_decode_state (Z.of_nat (size1 inp) - 1) (size1 i0)))
    as (st' & Et & Ot); auto.
  { eapply Forall_impl; [|exact Wp]. simpl. intros; lia. }
  { intros a Ea. eapply Forall_impl; [|apply (Ap a Ea)]. simpl. intros g Hg.
    rewrite Hds in Hg. lia. }
  { simpl. unfold init_lengths. rewrite repeat_length. congruence. }
  exists (decoder_outputs st'), (Some hid'),
    {| ret_attention_score :=
         if use_attention m' then Some (attention_score st') else None;
       ret_sequence := sequence_symbols st';
       ret_length := lengths st';
       ret_beamStates :=
         {| lm_probVec := [[]]; lm_hiddens := [c0]; lm_cells := [c0] |} |},
    dh, p, hid', attn.
  assert (Hrun := tf_loop_run m' p attn L 0 _ _ Et).
  apply decode_run_lengths in Hrun.
  destruct Hrun as (_ & Ll & _ & Lo & _ & _).
  split.
  { unfold forward. simpl. fold m'.
    rewrite (validate_args_inputs m' inp eh eo tfr Hatt). simpl.
    rewrite Ei. simpl.
    change (_init_state m' eh) with (_init_state m eh). rewrite Hdh. simpl.
    rewrite Ec. simpl.
    apply Qlt_bool_iff in Hrnd. rewrite Hrnd.
    fold dinp. rewrite Ep. simpl. rewrite Hps, Et. reflexivity. }
  simpl in Lo, Ot.
  split; [lia|]. split; [rewrite Hsz; lia|].
  split; [exact Hdh|]. split; [exact Ep|]. split; [exact Ot|].
  simpl. rewrite Ll. simpl. unfold init_lengths. rewrite repeat_length. exact Si.
Qed.

(** ** The greedy loop returns *)

Lemma symbols_index_valid B V symbols (lg : T2) :
  symbols_ok B V symbols -> length lg = B ->
  Forall (fun r => length r = V) lg -> index_valid lg symbols.
Proof.
  intros (syms & -> & L & R). revert B lg L.
  induction R as [|s syms Hs R IH]; intros B lg L Hl HV; simpl; [exact I|].
  destruct lg as [|row lg]; [simpl in *; lia|].
  inversion HV as [|? ? Hr HV']. clear HV.
  split.
  - unfold idxs_valid. apply Forall_cons; [|apply Forall_nil].
    rewrite Hr. exact Hs.
  - apply (IH (length syms)); auto. simpl in Hl, L. lia.
Qed.

Lemma squeeze1_chunk (t : T2) : squeeze1 (chunk (length t) 1 t) = t.
Proof.
  unfold squeeze1. induction t as [|x t IH]; simpl; [reflexivity|].
  rewrite IH. reflexivity.
Qed.

Lemma forward_step_greedy m V function inp hid enc pm B :
  step_shaped m V -> shape_preserving function ->
  (0 < B)%nat -> length inp = B -> Forall (fun r => length r = 1%nat) inp ->
  Forall (symbols_ok B V) pm ->
  exists so hid' attn,
    forward_step m inp hid enc function (Some pm)
    = Ok (chunk (length so) 1 so, hid', attn) /\
    length so = B /\ Forall (fun r => length r = V) so.
Proof.
  intros Hs Hf HB Hl Hw Hpm.
  assert (Hsz : size1 inp = 1%nat) by (apply size1_of_rows; [lia | exact Hw]).
  assert (Hrect : rect inp) by (unfold rect; rewrite Hsz; exact Hw).
  destruct (Hs inp hid enc Hrect) as (lg & hid' & attn & E & L & HV & _).
  rewrite Hl, Hsz, Nat.mul_1_r in L.
  assert (Hh : history_valid lg pm).
  { unfold history_valid. eapply Forall_impl; [|exact Hpm].
    intros sy Hsy. apply (symbols_index_valid B V); auto. }
  destruct (penalize_spec lg pm Hh) as (lg' & Ep & Lp & _).
  assert (HV' : Forall (fun r => length r = V) (function lg')).
  { eapply Forall_length_map; [apply Hf|].
    eapply Forall_length_map; [exact Lp | exact HV]. }
  assert (L' : length (function lg') = B).
  { rewrite (map_length_eq _ _ (Hf lg')), (map_length_eq _ _ Lp). exact L. }
  exists (function lg'), hid', attn. split; [|auto].
  unfold forward_step. rewrite forward_step_logits_history, E. simpl.
  rewrite Hsz. simpl. rewrite Ep. simpl. rewrite Hl.
  rewrite (view3_total B 1 V) by (auto; lia). rewrite L'. reflexivity.
Qed.

Lemma Forall_of_nth (P : Z -> Prop) (l : list Z) :
  (forall b, (b < length l)%nat -> P (nth b l 0%Z)) -> Forall P l.
Proof.
  intros H. rewrite Forall_forall. intros x Hx.
  destruct (In_nth l x 0%Z Hx) as (b & Hb & <-). auto.
Qed.

Lemma greedy_loop_total m V function enc B n : forall di inp hid st,
  step_shaped m V -> shape_preserving function -> (0 < V)%nat ->
  (0 < B)%nat -> length inp = B -> Forall (fun r => length r = 1%nat) inp ->
  Forall (symbols_ok B V) (sequence_symbols st) ->
  length (lengths st) = B ->
  exists st' hid', greedy_loop m enc function n di inp hid st = Ok (st', hid').
Proof.
  induction n as [|n IH]; intros di inp hid st Hs Hf HV HB Hl Hw Hpm Hlen;
    simpl; [eauto|].
  destruct (forward_step_greedy m V function inp hid enc (sequence_symbols st) B)
    as (so & hid' & attn & E & Lso & Vso); auto.
  rewrite E. cbv beta iota delta [bind]. rewrite squeeze1_chunk.
  destruct (decode_total m di so (option_map Rank3 attn) st)
    as (syms & st1 & Ed & Ls & Rs & _ & Sq & L1 & _).
  { eapply Forall_impl; [|exact Vso]. simpl. intros r Hr Er.
    rewrite Er in Hr. simpl in Hr. lia. }
  { congruence. }
  rewrite Ed. simpl.
  assert (Hsy : symbols_ok B V (map (fun s => [s]) syms)).
  { exists syms. split; [reflexivity|]. split; [congruence|].
    apply Forall_of_nth. intros b Hb.
    assert (Hb' : (b < length so)%nat) by lia.
    specialize (Rs b Hb').
    rewrite Forall_forall in Vso.
    rewrite (Vso (nth b so [])) in Rs by (apply nth_In; exact Hb').
    exact Rs. }
  apply IH; auto.
  - destruct (negb (use_prob_vector m)); rewrite ?length_map; congruence.
  - destruct (negb (use_prob_vector m)).
    + rewrite Forall_forall. intros r Hr. apply in_map_iff in Hr.
      destruct Hr as (r0 & <- & Hr0). apply in_map_iff in Hr0.
      destruct Hr0 as (s & <- & _). reflexivity.
    + rewrite Forall_forall. intros r Hr. apply in_map_iff in Hr.
      destruct Hr as (r0 & <- & _). reflexivity.
  - rewrite Sq. apply Forall_app. split; [exact Hpm|]. constructor; auto.
  - congruence.
Qed.

Lemma first_column_total (inputs : list (list Token)) :
  Forall (fun r => r <> []) inputs ->
  exists d, first_column inputs = Ok d /\ length d = length inputs /\
            Forall (fun r => length r = 1%nat) d.
Proof.
  induction 1 as [|r inputs Hr Hi IH].
  - exists []. simpl. auto.
  - destruct IH as (d & E & L & W). unfold first_column in *. simpl.
    destruct r as [|t r]; [congruence|]. simpl. rewrite E. simpl.
    exists ([t] :: d). simpl. auto.
Qed.


(** ** Top-k selection on one row *)

Lemma insert_by_score_perm x l : Permutation (x :: l) (insert_by_score x l).
Proof.
  induction l as [|y l IH]; simpl; [apply Permutation_refl|].
  destruct (Qle_bool (fst x) (fst y)); [apply Permutation_refl|].
  eapply perm_trans; [apply perm_swap|]. apply perm_skip. exact IH.
Qed.

Lemma sort_by_score_perm l : Permutation l (sort_by_score l).
Proof.
  induction l as [|x l IH]; simpl; [constructor|].
  eapply perm_trans; [apply perm_skip; exact IH|]. apply insert_by_score_perm.
Qed.

Lemma insert_by_score_sorted x l :
  StronglySorted score_le l -> StronglySorted score_le (insert_by_score x l).
Proof.
  induction 1 as [|y l Hs IH Hy]; simpl.
  - constructor; constructor.
  - destruct (Qle_bool (fst x) (fst y)) eqn:E.
    + apply Qle_bool_iff in E. constructor; [constructor; assumption|].
      constructor; [exact E|].
      eapply Forall_impl; [|exact Hy]. intros z Hz. unfold score_le in *.
      eapply Qle_trans; eauto.
    + constructor; [exact IH|].
      assert (Hyx : score_le y x).
      { unfold score_le. apply Qlt_le_weak, Qnot_le_lt. intros H.
        apply Qle_bool_iff in H. congruence. }
      rewrite Forall_forall. intros z Hz.
      apply (Permutation_in _ (Permutation_sym (insert_by_score_perm x l))) in Hz.
      destruct Hz as [<-|Hz]; [exact Hyx|].
      rewrite Forall_forall in Hy. auto.
Qed.

Lemma sort_by_score_sorted l : StronglySorted score_le (sort_by_score l).
Proof.
  induction l as [|x l IH]; simpl; [constructor|].
  apply insert_by_score_sorted. exact IH.
Qed.

Lemma sorted_app_le l1 : forall l2 x y,
  StronglySorted score_le (l1 ++ l2) -> In x l1 -> In y l2 -> score_le x y.
Proof.
  induction l1 as [|a l1 IH]; intros l2 x y H Hx Hy; [destruct Hx|].
  simpl in H. inversion H as [|? ? Hs Ha]; subst.
  destruct Hx as [<-|Hx].
  - rewrite Forall_forall in Ha. apply Ha. apply in_or_app. auto.
  - eapply IH; eauto.
Qed.

Lemma map_snd_combine {A B} (a : list A) (b : list B) :
  length a = length b -> map snd (combine a b) = b.
Proof.
  revert b; induction a as [|x a IH]; intros [|y b] H; simpl in *;
    try discriminate; auto.
  f_equal. apply IH. lia.
Qed.

Lemma in_combine_seq (row : list Q) : forall s q i,
  In (q, i) (combine row (seq s (length row)))
  <-> (s <= i < s + length row)%nat /\ nth (i - s) row 0%Q = q.
Proof.
  induction row as [|x row IH]; intros s q i; simpl.
  - split; [tauto | lia].
  - rewrite IH. split.
    + intros [E | [H1 H2]].
      * injection E as <- <-. rewrite Nat.sub_diag. split; [lia | reflexivity].
      * split; [lia|]. replace (i - s)%nat with (S (i - S s)) by lia. exact H2.
    + intros [H1 H2]. destruct (Nat.eq_dec i s) as [->|N].
      * left. rewrite Nat.sub_diag in H2. congruence.
      * right. split; [lia|].
        replace (i - s)%nat with (S (i - S s)) in H2 by lia. exact H2.
Qed.

(** [topk_smallest] returns [k] entries of the row with their positions:
    the positions are distinct, and no entry left out is smaller than an
    entry taken. *)
Lemma topk_smallest_spec k (row : list Q) :
  (k <= length row)%nat ->
  exists sel, topk_smallest k row = Ok sel /\ length sel = k /\
    NoDup (map snd sel) /\
    StronglySorted score_le sel /\
    (forall q i, In (q, i) sel -> (i < length row)%nat /\ nth i row 0%Q = q) /\
    (forall q i i', In (q, i) sel -> (i' < length row)%nat ->
                    ~ In i' (map snd sel) -> (q <= nth i' row 0)%Q).
Proof.
  intros Hk. unfold topk_smallest.
  destruct (Nat.leb_spec k (length row)) as [_|H]; [|lia].
  set (l := combine row (seq 0 (length row))).
  set (s := sort_by_score l).
  assert (Hp : Permutation l s) by apply sort_by_score_perm.
  assert (Hs : StronglySorted score_le s) by apply sort_by_score_sorted.
  assert (Hl : length s = length row).
  { rewrite <- (Permutation_length Hp). unfold l.
    rewrite length_combine, length_seq. lia. }
  assert (Hsplit : s = firstn k s ++ skipn k s) by (symmetry; apply firstn_skipn).
  assert (Hnd : NoDup (map snd s)).
  { apply (Permutation_NoDup (Permutation_map snd Hp)). unfold l.
    rewrite map_snd_combine by (rewrite length_seq; reflexivity).
    apply seq_NoDup. }
  exists (firstn k s). split; [reflexivity|].
  split; [rewrite length_firstn; lia|].
  split.
  { rewrite Hsplit, map_app in Hnd. eapply NoDup_app_remove_r; eauto. }
  split.
  { rewrite Hsplit in Hs. clear -Hs. induction (firstn k s) as [|a f IH];
      [constructor|].
    simpl in Hs. inversion Hs as [|? ? H1 H2]; subst.
    constructor; [auto|]. rewrite Forall_forall in *. intros z Hz.
    apply H2. apply in_or_app. auto. }
  split.
  - intros q i Hin.
    assert (Hin' : In (q, i) l).
    { apply (Permutation_in _ (Permutation_sym Hp)).
      rewrite Hsplit. apply in_or_app. auto. }
    unfold l in Hin'. apply in_combine_seq in Hin'.
    rewrite Nat.sub_0_r in Hin'. simpl in Hin'. tauto.
  - intros q i i' Hin Hi' Hnot.
    assert (Hin' : In (nth i' row 0%Q, i') s).
    { apply (Permutation_in _ Hp). unfold l. apply in_combine_seq.
      rewrite Nat.sub_0_r. split; [lia | reflexivity]. }
    rewrite Hsplit in Hin'. apply in_app_or in Hin'.
    destruct Hin' as [Hf|Hr].
    + exfalso. apply Hnot. apply in_map_iff. exists (nth i' row 0%Q, i'). auto.
    + rewrite Hsplit in Hs.
      exact (sorted_app_le _ _ _ _ Hs Hin Hr).
Qed.

(** ** Top-k selection over the candidate tensor *)

Lemma length_transpose {A} (d : A) cols t : length (transpose d cols t) = cols.
Proof. unfold transpose. rewrite length_map, length_seq. reflexivity. Qed.

Lemma nth_transpose_row {A} (d : A) cols t j :
  (j < cols)%nat -> nth j (transpose d cols t) [] = map (fun r => nth j r d) t.
Proof.
  intros H. unfold transpose.
  rewrite (nth_indep _ [] ((fun j => map (fun r => nth j r d) t) 0%nat))
    by (rewrite length_map, length_seq; exact H).
  rewrite (map_nth (fun j => map (fun r => nth j r d) t)), seq_nth by exact H.
  reflexivity.
Qed.

Lemma transpose_rows {A} (d : A) cols t :
  Forall (fun r => length r = length t) (transpose d cols t).
Proof.
  unfold transpose. rewrite Forall_forall. intros r Hr.
  apply in_map_iff in Hr. destruct Hr as (j & <- & _). apply length_map.
Qed.

Lemma nth_transpose {A} (d : A) cols t j b :
  (j < cols)%nat -> (b < length t)%nat ->
  nth b (nth j (transpose d cols t) []) d = nth j (nth b t []) d.
Proof.
  intros Hj Hb. rewrite nth_transpose_row by exact Hj.
  rewrite (nth_indep _ d ((fun r => nth j r d) [])) by (rewrite length_map; exact Hb).
  apply (map_nth (fun r => nth j r d)).
Qed.

Lemma nth_concat_uniform {A} (d : A) V (rows : list (list A)) :
  Forall (fun r => length r = V) rows ->
  forall idx, (idx < length rows * V)%nat ->
    nth idx (concat rows) d = nth (idx mod V) (nth (idx / V) rows []) d.
Proof.
  induction 1 as [|r rows Hr Hrows IH]; intros idx Hidx; simpl in *; [lia|].
  assert (HV : V <> 0%nat) by lia.
  destruct (Nat.lt_ge_cases idx V) as [Hlt|Hge].
  - rewrite app_nth1 by lia.
    rewrite Nat.div_small, Nat.mod_small by exact Hlt. reflexivity.
  - rewrite app_nth2 by lia. rewrite Hr.
    rewrite IH by lia.
    replace idx with ((idx - V) + 1 * V)%nat at 3 4 by lia.
    rewrite Nat.div_add, Nat.Div0.mod_add by exact HV.
    replace ((idx - V) / V + 1)%nat with (S ((idx - V) / V)) by lia.
    reflexivity.
Qed.

Lemma cand_shaped_row cand K B V k b :
  cand_shaped cand K B V -> (k < K)%nat -> (b < B)%nat ->
  length (nth 0 (nth b (nth k cand []) []) []) = V.
Proof.
  intros [HK Hc] Hk Hb. rewrite Forall_forall in Hc.
  assert (Hck : In (nth k cand []) cand) by (apply nth_In; lia).
  destruct (Hc _ Hck) as [Lk Hk'].
  rewrite Forall_forall in Hk'.
  assert (Hcb : In (nth b (nth k cand []) []) (nth k cand [])) by (apply nth_In; lia).
  destruct (Hk' _ Hcb) as [Lb Hb'].
  rewrite Forall_forall in Hb'. apply Hb'. apply nth_In. lia.
Qed.

Lemma flat_candidates_rows cand K B V b :
  cand_shaped cand K B V -> (b < B)%nat ->
  Forall (fun r => length r = V) (map (fun ck => nth 0 (nth b ck []) []) cand) /\
  length (flat_candidates cand b) = (K * V)%nat.
Proof.
  intros Hc Hb.
  assert (HF : Forall (fun r => length r = V)
                      (map (fun ck => nth 0 (nth b ck []) []) cand)).
  { rewrite Forall_forall. intros r Hr. apply in_map_iff in Hr.
    destruct Hr as (ck & <- & Hck).
    destruct (In_nth _ _ [] Hck) as (k & Hk & <-).
    destruct Hc as [HK Hc']. apply (cand_shaped_row cand K B V); auto.
    - split; auto.
    - lia. }
  split; [exact HF|].
  unfold flat_candidates. rewrite (length_concat_uniform V _ HF), length_map.
  destruct Hc as [-> _]. reflexivity.
Qed.

Lemma slice_candidates cand K B V :
  cand_shaped cand K B V ->
  mapM (mapM (nth_res 0)) cand = Ok (map (map (fun cb => nth 0 cb [])) cand).
Proof.
  intros [_ Hc]. apply mapM_total. intros ck Hck.
  apply mapM_total. intros cb Hcb.
  rewrite Forall_forall in Hc. destruct (Hc ck Hck) as [_ Hk].
  rewrite Forall_forall in Hk. destruct (Hk cb Hcb) as [L _].
  destruct cb as [|row rest]; [discriminate | reflexivity].
Qed.

Lemma transposed_candidates cand K B V b :
  cand_shaped cand K B V -> (b < B)%nat ->
  concat (nth b (transpose [] B (map (map (fun cb => nth 0 cb [])) cand)) [])
  = flat_candidates cand b.
Proof.
  intros Hc Hb. rewrite nth_transpose_row by exact Hb.
  unfold flat_candidates. f_equal. rewrite map_map.
  apply map_ext_in. intros ck Hck.
  destruct Hc as [_ Hc]. rewrite Forall_forall in Hc.
  destruct (Hc ck Hck) as [Lk _].
  rewrite (nth_indep _ [] ((fun cb => nth 0 cb []) [])) by (rewrite length_map; lia).
  apply (map_nth (fun cb : list (list Q) => nth 0 cb [])).
Qed.

Lemma hd_nth0 {A} (d : A) l : hd d l = nth 0 l d.
Proof. destruct l; reflexivity. Qed.

Lemma nth_map_lt {A B} (f : A -> B) l i da db :
  (i < length l)%nat -> nth i (map f l) db = f (nth i l da).
Proof.
  intros H. rewrite (nth_indep _ db (f da)) by (rewrite length_map; exact H).
  apply map_nth.
Qed.

(** C5.  [getTopkIndsnScores] flattens the K x V candidates of every batch
    element (candidate [v] of hypothesis [k] at flat position [k*V + v]),
    takes [topk] of them at pairwise distinct flat positions, such that no
    candidate left out has a smaller score than a candidate taken, and
    returns every taken position [idx] as the pair (idx div V, idx mod V)
    together with its score. *)
Theorem beam_topk_selection m cand K B V :
  cand_shaped cand K B V -> (0 < K)%nat -> (0 < B)%nat ->
  (topk m <= K * V)%nat ->
  exists inds scores,
    getTopkIndsnScores m cand = Ok (inds, scores) /\
    length inds = topk m /\ length scores = topk m /\
    Forall (fun r => length r = B) inds /\
    Forall (fun r => length r = B) scores /\
    forall b, (b < B)%nat ->
      exists sel : list nat,
        length sel = topk m /\ NoDup sel /\
        (forall j, (j < topk m)%nat ->
           let idx := nth j sel 0%nat in
           (idx < K * V)%nat /\ (idx / V < K)%nat /\ (idx mod V < V)%nat /\
           nth b (nth j inds []) (0, 0)%Z
           = (Z.of_nat (idx / V), Z.of_nat (idx mod V)) /\
           nth b (nth j scores []) 0%Q = nth idx (flat_candidates cand b) 0%Q /\
           nth idx (flat_candidates cand b) 0%Q
           = nth (idx mod V) (nth 0 (nth b (nth (idx / V) cand []) []) []) 0%Q) /\
        (forall j i', (j < topk m)%nat -> (i' < K * V)%nat -> ~ In i' sel ->
           (nth b (nth j scores []) 0 <= nth i' (flat_candidates cand b) 0)%Q).
Proof.
  intros Hc HK HB Hk.
  set (sliced := map (map (fun cb : list (list Q) => nth 0 cb [])) cand).
  assert (HlK : length cand = K) by (destruct Hc; assumption).
  assert (Hsl : length sliced = K) by (unfold sliced; rewrite length_map; exact HlK).
  assert (Hck : forall ck, In ck cand -> length ck = B).
  { intros ck Hin. destruct Hc as [_ Hc]. rewrite Forall_forall in Hc.
    apply Hc. exact Hin. }
  assert (Hsz : size1 sliced = B).
  { unfold sliced. destruct cand as [|ck cand']; [simpl in HlK; lia|].
    simpl. rewrite length_map. apply Hck. left. reflexivity. }
  set (tmp := transpose [] B sliced).
  assert (Htl : length tmp = B) by apply length_transpose.
  assert (HVs : size1 (hd [] tmp) = V).
  { rewrite hd_nth0. unfold tmp. rewrite nth_transpose_row by exact HB.
    unfold sliced. rewrite map_map.
    destruct cand as [|ck cand'] eqn:Ecand; [simpl in HlK; lia|].
    simpl. rewrite (nth_map_lt _ ck 0 []) by (rewrite (Hck ck); [lia | left; reflexivity]).
    apply (cand_shaped_row (ck :: cand') K B V 0 0); auto. }
  set (flat := map (@concat Q) tmp).
  assert (Hfl : length flat = B) by (unfold flat; rewrite length_map; exact Htl).
  assert (Hflat : forall b, (b < B)%nat -> nth b flat [] = flat_candidates cand b).
  { intros b Hb. unfold flat.
    rewrite (nth_map_lt (@concat Q) tmp b []) by lia.
    unfold tmp, sliced. apply (transposed_candidates cand K B V); auto. }
  set (g := fun row : list Q =>
              firstn (topk m) (sort_by_score (combine row (seq 0 (length row))))).
  assert (Hrow : forall b, (b < B)%nat ->
             topk_smallest (topk m) (flat_candidates cand b)
             = Ok (g (flat_candidates cand b))).
  { intros b Hb. unfold topk_smallest.
    destruct (flat_candidates_rows cand K B V b Hc Hb) as [_ L].
    destruct (Nat.leb_spec (topk m) (length (flat_candidates cand b)));
      [reflexivity | lia]. }
  assert (Hz : mapM (topk_smallest (topk m)) flat = Ok (map g flat)).
  { apply mapM_total. intros row Hin.
    destruct (In_nth _ _ [] Hin) as (b & Hb & <-).
    rewrite Hflat by lia. apply Hrow. lia. }
  set (zzz := map g flat).
  assert (Hzl : length zzz = B) by (unfold zzz; rewrite length_map; exact Hfl).
  assert (Hzb : forall b, (b < B)%nat -> nth b zzz [] = g (flat_candidates cand b)).
  { intros b Hb. unfold zzz. rewrite (nth_map_lt g flat b []) by lia.
    rewrite Hflat by exact Hb. reflexivity. }
  set (h := fun i : nat => (Z.of_nat (i / V), Z.of_nat (i mod V))).
  exists (map (map h) (transpose 0%nat (topk m) (map (map snd) zzz))),
         (transpose 0%Q (topk m) (map (map fst) zzz)).
  split.
  { unfold getTopkIndsnScores.
    rewrite (slice_candidates cand K B V Hc). cbv beta iota zeta delta [bind].
    fold sliced. rewrite Hsz. fold tmp. rewrite Htl, HVs.
    destruct (Nat.eqb_spec B 0) as [E|_]; [lia|].
    fold flat. rewrite Hz. reflexivity. }
  split; [rewrite length_map; apply length_transpose|].
  split; [apply length_transpose|].
  split.
  { rewrite Forall_forall. intros r Hr. apply in_map_iff in Hr.
    destruct Hr as (r0 & <- & Hr0). rewrite length_map.
    pose proof (transpose_rows 0%nat (topk m) (map (map snd) zzz)) as HT.
    rewrite Forall_forall in HT. rewrite (HT r0 Hr0), length_map. exact Hzl. }
  split.
  { pose proof (transpose_rows 0%Q (topk m) (map (map fst) zzz)) as HT.
    eapply Forall_impl; [|exact HT]. simpl. intros r Hr.
    rewrite Hr, length_map. exact Hzl. }
  intros b Hb.
  destruct (flat_candidates_rows cand K B V b Hc Hb) as [Hrows Lrow].
  destruct (topk_smallest_spec (topk m) (flat_candidates cand b))
    as (sel' & Es & Ls & Nd & _ & Hin & Hmin); [lia|].
  rewrite (Hrow b Hb) in Es. injection Es as Es. subst sel'.
  set (row := flat_candidates cand b) in *.
  assert (Hsc : forall j, (j < topk m)%nat ->
            nth b (nth j (transpose 0%Q (topk m) (map (map fst) zzz)) []) 0%Q
            = fst (nth j (g row) (0%Q, 0%nat))).
  { intros j Hj. rewrite nth_transpose by (rewrite ?length_map; lia).
    rewrite (nth_map_lt (map fst) zzz b []) by lia.
    rewrite Hzb by exact Hb. fold row.
    apply (nth_map_lt fst (g row) j (0%Q, 0%nat)). lia. }
  exists (map snd (g row)).
  split; [rewrite length_map; exact Ls|]. split; [exact Nd|]. split.
  - intros j Hj.
    assert (Hidx : nth j (map snd (g row)) 0%nat = snd (nth j (g row) (0%Q, 0%nat)))
      by (apply (nth_map_lt snd (g row) j (0%Q, 0%nat)); lia).
    cbv zeta. rewrite Hidx.
    assert (Hmem : In (nth j (g row) (0%Q, 0%nat)) (g row))
      by (apply nth_In; lia).
    destruct (nth j (g row) (0%Q, 0%nat)) as [q i] eqn:Eqi. simpl.
    destruct (Hin q i Hmem) as [Hi Hq]. rewrite Lrow in Hi.
    assert (HV : V <> 0%nat) by (intros ->; lia).
    split; [exact Hi|].
    split; [apply Nat.Div0.div_lt_upper_bound; lia|].
    split; [apply Nat.mod_upper_bound; exact HV|].
    split.
    { rewrite (nth_map_lt (map h) _ j []) by (rewrite length_transpose; exact Hj).
      pose proof (transpose_rows 0%nat (topk m) (map (map snd) zzz)) as HT.
      rewrite Forall_forall in HT.
      assert (Hlr : length (nth j (transpose 0%nat (topk m) (map (map snd) zzz)) [])
                    = B).
      { rewrite HT by (apply nth_In; rewrite length_transpose; exact Hj).
        rewrite length_map. exact Hzl. }
      rewrite (nth_map_lt h _ b 0%nat) by lia.
      rewrite nth_transpose by (rewrite ?length_map; lia).
      rewrite (nth_map_lt (map snd) zzz b []) by lia.
      rewrite Hzb by exact Hb. fold row. rewrite Hidx. reflexivity. }
    split.
    { rewrite Hsc by exact Hj. rewrite Eqi. simpl. symmetry. exact Hq. }
    unfold row, flat_candidates.
    rewrite (nth_concat_uniform 0%Q V _ Hrows)
      by (rewrite length_map, HlK; exact Hi).
    f_equal.
    apply (nth_map_lt (fun ck : list (list (list Q)) => nth 0 (nth b ck []) [])).
    rewrite HlK. apply Nat.Div0.div_lt_upper_bound. lia.
  - intros j i' Hj Hi' Hnot.
    rewrite Hsc by exact Hj.
    assert (Hmem : In (nth j (g row) (0%Q, 0%nat)) (g row))
      by (apply nth_In; lia).
    destruct (nth j (g row) (0%Q, 0%nat)) as [q i] eqn:Eqi. simpl.
    apply (Hmin q i i' Hmem); [lia | exact Hnot].
Qed.

(** ** Beam search: score composition *)

Lemma broadcast2_same {A B C} (f : A -> B -> Result C) xs ys :
  length xs = length ys ->
  broadcast2 f xs ys = mapM (fun '(x, y) => f x y) (combine xs ys).
Proof.
  intros E. unfold broadcast2. rewrite E, Nat.eqb_refl. reflexivity.
Qed.

Lemma cand_score_not_additive log p :
  exists s, ~ (cand_score log p s == - log (p + eps) + s)%Q.
Proof.
  unfold cand_score. set (x := (- log (p + eps))%Q).
  destruct (Qeq_dec x 0) as [E|N].
  - exists 1%Q. rewrite E. intros H.
    rewrite Qmult_0_l, Qplus_0_l in H. discriminate.
  - exists 0%Q. rewrite Qmult_0_r, Qplus_0_r. intros H. apply N.
    symmetry. exact H.
Qed.

(** C6.  For prob vectors of shape (K, B, 1, V) and running scores of shape
    (K, B), every candidate score is the product of the negated logarithm
    of (probability + 1e-18) with the running score of its hypothesis and
    batch element; the composition is a product and not a sum. *)
Theorem beam_score_composition log (probs : T4) (scores : T2) K B :
  length probs = K -> length scores = K ->
  Forall (fun pk => length pk = B) probs ->
  Forall (fun sk => length sk = B) scores ->
  exists cand,
    candScores_of log probs scores = Ok cand /\
    length cand = K /\
    (forall k b, (k < K)%nat -> (b < B)%nat ->
       nth b (nth k cand []) []
       = map (map (fun p => (- log (p + eps) * nth b (nth k scores []) 0)%Q))
             (nth b (nth k probs []) [])) /\
    (forall k b j v, (k < K)%nat -> (b < B)%nat ->
       (j < length (nth b (nth k probs []) []))%nat ->
       (v < length (nth j (nth b (nth k probs []) []) []))%nat ->
       nth v (nth j (nth b (nth k cand []) []) []) 0%Q
       = (- log (nth v (nth j (nth b (nth k probs []) []) []) 0 + eps)
          * nth b (nth k scores []) 0)%Q) /\
    eps = (1 # 1000000000000000000)%Q /\
    (forall p, exists s, ~ (cand_score log p s == - log (p + eps) + s)%Q).
Proof.
  intros HK1 HK2 HP HS.
  set (inner := fun (pk : list (list (list Q))) (sk : list Q) =>
                  map (fun '(pb, s) => map (map (fun p => cand_score log p s)) pb)
                      (combine pk sk)).
  exists (map (fun '(pk, sk) => inner pk sk) (combine probs scores)).
  assert (Hin : forall pk sk, In (pk, sk) (combine probs scores) ->
                  length pk = B /\ length sk = B).
  { intros pk sk H. rewrite Forall_forall in HP, HS. split.
    - apply HP. eapply in_combine_l; eauto.
    - apply HS. eapply in_combine_r; eauto. }
  split.
  { unfold candScores_of. rewrite broadcast2_same by congruence.
    apply mapM_total. intros [pk sk] H. destruct (Hin pk sk H) as [L1 L2].
    rewrite broadcast2_same by congruence. unfold inner.
    apply mapM_total. intros [pb s] _. reflexivity. }
  split; [rewrite length_map, length_combine; lia|].
  assert (Hkb : forall k b, (k < K)%nat -> (b < B)%nat ->
            nth b (nth k (map (fun '(pk, sk) => inner pk sk) (combine probs scores)) []) []
            = map (map (fun p => (- log (p + eps) * nth b (nth k scores []) 0)%Q))
                  (nth b (nth k probs []) [])).
  { intros k b Hk Hb.
    rewrite (nth_map_lt (fun '(pk, sk) => inner pk sk) _ k ([], []))
      by (rewrite length_combine; lia).
    rewrite combine_nth by congruence. unfold inner.
    assert (Lp : length (nth k probs []) = B).
    { rewrite Forall_forall in HP. apply HP. apply nth_In. lia. }
    assert (Ls : length (nth k scores []) = B).
    { rewrite Forall_forall in HS. apply HS. apply nth_In. lia. }
    rewrite (nth_map_lt (fun '(pb, s) => map (map (fun p => cand_score log p s)) pb)
               _ b ([], 0%Q)) by (rewrite length_combine; lia).
    rewrite combine_nth by congruence. reflexivity. }
  split; [exact Hkb|].
  split.
  { intros k b j v Hk Hb Hj Hv. rewrite (Hkb k b Hk Hb).
    rewrite (nth_map_lt _ _ j []) by exact Hj.
    rewrite (nth_map_lt _ _ v 0%Q) by exact Hv. reflexivity. }
  split; [reflexivity | apply cand_score_not_additive].
Qed.

(** ** Beam search: what a step expands *)

Lemma nth_res_ok {A} i (l : list A) a : nth_res i l = Ok a -> nth_error l i = Some a.
Proof. unfold nth_res. destruct (nth_error l i); congruence. Qed.

Lemma nth_res_last {A} (l : list A) a : nth_res (length l) (l ++ [a]) = Ok a.
Proof.
  unfold nth_res. rewrite nth_error_app2 by lia. rewrite Nat.sub_diag. reflexivity.
Qed.

Lemma beam_expand_trace log m bsz enc f bh bc bi bsc lm dh lm' dh' sel :
  beam_expand log m bsz enc f bh bc bi bsc lm dh = Ok (lm', dh', sel) ->
  exists ps hs cs,
    lm' = {| lm_probVec := lm_probVec lm ++ [ps];
             lm_hiddens := lm_hiddens lm ++ [hs];
             lm_cells := lm_cells lm ++ [cs] |}.
Proof.
  unfold beam_expand. intros H.
  apply bind_ok in H. destruct H as (h0 & _ & H).
  apply bind_ok in H. destruct H as (c0 & _ & H).
  apply bind_ok in H. destruct H as ([[[ps hs] cs] last] & _ & H).
  destruct ps as [|p ps]; [discriminate|].
  apply bind_ok in H. destruct H as (cand & _ & H).
  apply bind_ok in H. destruct H as (nxt & _ & H).
  injection H as <- _ _. eauto.
Qed.

(** C2 (amended).  When step [di] of the beam loop returns, the step after
    it expands the hidden and cell states that step [di] recorded, with the
    (parent, token) pairs and the running scores found at position [di+1]
    of the caller's bundle; the pairs and scores selected at step [di] do
    not enter it. *)
Theorem beam_step_expands_caller_bundle log m bs bsz enc f di lm dh lm1 dh1 sel :
  length (lm_hiddens lm) = S di -> length (lm_cells lm) = S di ->
  beam_step log m bs bsz enc f di lm dh = Ok (lm1, dh1, sel) ->
  exists ps hs cs,
    lm1 = {| lm_probVec := lm_probVec lm ++ [ps];
             lm_hiddens := lm_hiddens lm ++ [hs];
             lm_cells := lm_cells lm ++ [cs] |} /\
    length (lm_hiddens lm1) = S (S di) /\ length (lm_cells lm1) = S (S di) /\
    beam_step log m bs bsz enc f (S di) lm1 dh1
    = (do bmTopkInds <- nth_res (S di) (topkInds bs);
       do bmScores <- nth_res (S di) (newScores bs);
       beam_expand log m bsz enc f hs cs bmTopkInds bmScores lm1 dh1).
Proof.
  intros Lh Lc H. unfold beam_step in H.
  apply bind_ok in H. destruct H as (bh & _ & H).
  apply bind_ok in H. destruct H as (bc & _ & H).
  apply bind_ok in H. destruct H as (bi & _ & H).
  apply bind_ok in H. destruct H as (bsc & _ & H).
  apply beam_expand_trace in H. destruct H as (ps & hs & cs & ->).
  exists ps, hs, cs. split; [reflexivity|]. simpl.
  split; [rewrite length_app; simpl; lia|].
  split; [rewrite length_app; simpl; lia|].
  unfold beam_step. simpl.
  rewrite <- Lh at 1. rewrite nth_res_last. simpl.
  rewrite <- Lc at 1. rewrite nth_res_last. reflexivity.
Qed.

(** ** The small decoder keeps to the shape contract *)

Lemma toy_embedding_rows (inp : list (list Token)) W :
  Forall (fun r => length r = W) inp ->
  Forall (fun r => length r = W) (toy_embedding inp) /\
  Forall (Forall (fun x : list Q => length x = 1%nat)) (toy_embedding inp).
Proof.
  intros H. unfold toy_embedding. split.
  - rewrite Forall_forall in *. intros r Hr. apply in_map_iff in Hr.
    destruct Hr as (r0 & <- & Hr0). rewrite length_map. auto.
  - rewrite Forall_forall. intros r Hr. apply in_map_iff in Hr.
    destruct Hr as (r0 & <- & _). rewrite Forall_forall. intros x Hx.
    apply in_map_iff in Hx. destruct Hx as ([i|p] & <- & _); reflexivity.
Qed.

Lemma Forall_concat {A} (P : A -> Prop) (t : list (list A)) :
  Forall (Forall P) t -> Forall P (concat t).
Proof.
  induction 1 as [|r t Hr Ht IH]; simpl; [constructor|].
  apply Forall_app. auto.
Qed.

Lemma toy_step_shaped beam att force : step_shaped (toy_model beam att force) 3.
Proof.
  intros inp hid enc Hr. unfold rect in Hr.
  destruct (toy_embedding_rows inp (size1 inp) Hr) as [He1 He2].
  set (e := toy_embedding inp) in *.
  assert (Le : length e = length inp) by (unfold e, toy_embedding; apply length_map).
  assert (Lc : length (concat e) = (length inp * size1 inp)%nat)
    by (rewrite (length_concat_uniform (size1 inp) e He1), Le; reflexivity).
  assert (Lcc : length (concat (concat e)) = (length inp * size1 inp)%nat).
  { rewrite (length_concat_uniform 1 (concat e) (Forall_concat _ e He2)). lia. }
  assert (Hv : view_rows 1 e
               = Ok (chunk (length inp * size1 inp) 1 (concat (concat e)))).
  { unfold view_rows. cbv zeta. rewrite Lcc.
    change (1 =? 0)%nat with false. cbv iota.
    rewrite Nat.mod_1_r, Nat.div_1_r. reflexivity. }
  exists (toy_out (chunk (length inp * size1 inp) 1 (concat (concat e)))),
         (HTuple (toy_state e) (toy_state e)),
         (if att then Some (map (map (fun _ => [1%Q])) e) else None).
  split.
  { unfold forward_step_logits.
    cbn [toy_model rnn embedding input_dropout attention out use_attention
         hidden_size toy_rnn toy_attention].
    fold e. destruct att; rewrite Hv; reflexivity. }
  split; [unfold toy_out; rewrite length_map, length_chunk; reflexivity|].
  split.
  { unfold toy_out. rewrite Forall_forall. intros r Hin.
    apply in_map_iff in Hin. destruct Hin as (r0 & <- & _). reflexivity. }
  intros a Ha. destruct att; [|discriminate]. injection Ha as <-.
  rewrite Forall_forall in *. intros r Hin. apply in_map_iff in Hin.
  destruct Hin as (r0 & <- & Hr0). rewrite length_map, (He1 r0 Hr0). lia.
Qed.

Lemma toy_function_shape : shape_preserving toy_function.
Proof. intros t. reflexivity. Qed.

(** ** The claims on the small decoder *)

Lemma forward_step_repetition_penalty_witness :
  forward_step_logits (toy_model false false false) [[Tok 2]] None None None
  = Ok ([[2%Q; 1%Q; 1 # 2]],
        HTuple (toy_state [[[2%Q]]]) (toy_state [[[2%Q]]]), None) /\
  exists lg,
    forward_step_logits (toy_model false false false) [[Tok 2]] None None
                        (Some [[[0%Z]]; [[1%Z]]])
    = Ok (lg, HTuple (toy_state [[[2%Q]]]) (toy_state [[[2%Q]]]), None) /\
    nth_error (nth 0 lg []) 1 = Some overwrite_const.
Proof.
  assert (H0 : forward_step_logits (toy_model false false false) [[Tok 2]]
                                   None None None
               = Ok ([[2%Q; 1%Q; 1 # 2]],
                     HTuple (toy_state [[[2%Q]]]) (toy_state [[[2%Q]]]), None))
    by reflexivity.
  split; [exact H0|].
  destruct (forward_step_repetition_penalty (toy_model false false false)
              [[Tok 2]] None None toy_function _ _ _ H0) as (_ & H2 & _).
  destruct (H2 [[[0%Z]]; [[1%Z]]] eq_refl) as (lg & E & _ & Hhit & _).
  { repeat constructor; simpl; lia. }
  exists lg. split; [exact E|].
  apply (Hhit [[1%Z]] 0%nat [1%Z] 1%Z); simpl; auto.
Defined.


Lemma forward_invalid_configuration_witness :
  state_fits_cell (rnn_cell (toy_model false true false)) None /\
  sos_in_vocabulary (toy_model false true false) /\
  exists e,
    snd (forward toy_log (toy_model false true false) 0 None
                 (Some toy_beam_states) None None toy_function 0 15 false)
    = Err e /\ InvalidConfiguration e.
Proof.
  assert (H1 : state_fits_cell (rnn_cell (toy_model false true false)) None)
    by exact I.
  assert (H2 : sos_in_vocabulary (toy_model false true false))
    by (intros H; discriminate).
  split; [exact H1|]. split; [exact H2|].
  apply (proj1 (forward_invalid_configuration toy_log (toy_model false true false)
                  0 None (Some toy_beam_states) None None toy_function 0 15 false
                  H1 H2)).
  left. split; reflexivity.
Defined.

Lemma forward_without_beam_states_witness :
  snd (forward toy_log (toy_model false false false) 0 None None None None
               toy_function 0 15 false)
  = Err (TypeError msg_none_subscript).
Proof.
  destruct (forward_without_beam_states toy_log (toy_model false false false)
              0 None None None toy_function 0 15 false) as (e & E & H).
  rewrite E. f_equal. apply (H ([[Tok 2]], 1%nat, 15%Z)). reflexivity.
Defined.

Lemma teacher_forced_output_count_witness :
  exists outs hid ret,
    snd (forward toy_log (toy_model false false false) 0 (Some toy_inputs)
                 (Some toy_beam_states2) None None toy_function 1 15 false)
    = Ok (outs, hid, ret) /\
    length outs = 2%nat.
Proof.
  destruct (teacher_forced_output_count toy_log (toy_model false false false) 3
              0 toy_inputs toy_beam_states2 None None toy_function 1 15 false 2 2)
    as (outs & hid & ret & dh & p & hid' & attn & E & L & _).
  - apply toy_step_shaped.
  - lia.
  - apply toy_function_shape.
  - lia.
  - lia.
  - reflexivity.
  - repeat constructor.
  - reflexivity.
  - intros H. discriminate.
  - exists [[(0, 2); (0, 2)]]%Z,
      [ [ [repeat 0%Q gather_width; repeat 0%Q gather_width] ] ].
    repeat split.
  - exists None. reflexivity.
  - exists outs, hid, ret. auto.
Defined.

Lemma beam_topk_selection_witness :
  cand_shaped toy_cand 2 1 3 /\
  exists inds scores,
    getTopkIndsnScores (toy_model true false false) toy_cand = Ok (inds, scores) /\
    length inds = 2%nat /\ length scores = 2%nat.
Proof.
  assert (H : cand_shaped toy_cand 2 1 3) by (split; repeat constructor).
  split; [exact H|].
  destruct (beam_topk_selection (toy_model true false false) toy_cand 2 1 3 H)
    as (inds & scores & E & L1 & L2 & _); [lia | lia | simpl; lia|].
  exists inds, scores. auto.
Defined.

(** The scenario of the specification: of the flattened scores 0.1, 0.4,
    0.2, 0.3 the two smallest are 0.1 (hypothesis 0, symbol 0) and 0.2
    (hypothesis 1, symbol 0). *)
Example topk_scenario :
  getTopkIndsnScores (toy_model true false false) scenario_cand
  = Ok ([[(0, 0)]; [(1, 0)]]%Z, [[1 # 10]; [2 # 10]]).
Proof. reflexivity. Qed.

Lemma beam_score_composition_witness :
  exists cand,
    candScores_of toy_log [[[[1 # 2; 1 # 4]]]] [[2%Q]] = Ok cand /\
    length cand = 1%nat.
Proof.
  destruct (beam_score_composition toy_log [[[[1 # 2; 1 # 4]]]] [[2%Q]] 1 1)
    as (cand & E & L & _); try reflexivity; try (repeat constructor).
  exists cand. auto.
Defined.

(** C2 (counterexample).  On the small decoder in beam mode, with one batch
    element, step 0 selects the pairs (0, 2) and (0, 1) with scores near
    1/2 and 1, yet step 1 expands the caller's pairs (0, 1) and (0, 1) with
    scores 3 and 4: its recorded distributions are those of token 1 twice,
    where expanding the selection would have recorded those of tokens 2
    and 1. *)
Lemma beam_selection_not_carried_over :
  exists lm1 dh1 sel lm2 dh2 sel2 hs cs,
    beam_step toy_log (toy_model true false false) toy_beam_states 1 None
              toy_function 0 toy_lm0 None = Ok (lm1, dh1, sel) /\
    beam_step toy_log (toy_model true false false) toy_beam_states 1 None
              toy_function 1 lm1 dh1 = Ok (lm2, dh2, sel2) /\
    fst sel = [[(0, 2)]; [(0, 1)]]%Z /\
    nth_error (topkInds toy_beam_states) 1 = Some [[(0, 1)]; [(0, 1)]]%Z /\
    nth_error (topkInds toy_beam_states) 1 <> Some (fst sel) /\
    nth_error (newScores toy_beam_states) 1 <> Some (snd sel) /\
    nth_error (lm_probVec lm2) 2
    = Some [ [[[1%Q; 1%Q; 1 # 2]]]; [[[1%Q; 1%Q; 1 # 2]]] ] /\
    nth_error (lm_hiddens lm1) 1 = Some hs /\
    nth_error (lm_cells lm1) 1 = Some cs /\
    (exists lm2' dh2' sel2',
       beam_expand toy_log (toy_model true false false) 1 None toy_function
                   hs cs (fst sel) (snd sel) lm1 dh1 = Ok (lm2', dh2', sel2') /\
       nth_error (lm_probVec lm2') 2
       = Some [ [[[2%Q; 1%Q; 1 # 2]]]; [[[1%Q; 1%Q; 1 # 2]]] ]) /\
    exists hid ret,
      snd (forward toy_log (toy_model true false false) 0 None
                   (Some toy_beam_states) None None toy_function 0 2 false)
      = Ok ([], hid, ret) /\
      ret_beamStates ret = lm2.
Proof.
  do 8 eexists.
  split; [vm_compute; reflexivity|].
  split; [vm_compute; reflexivity|].
  split; [reflexivity|].
  split; [reflexivity|].
  split; [intros H; vm_compute in H; discriminate H|].
  split; [intros H; vm_compute in H; discriminate H|].
  split; [reflexivity|].
  split; [reflexivity|].
  split; [reflexivity|].
  split.
  - do 3 eexists. split; [vm_compute; reflexivity | reflexivity].
  - do 2 eexists. split; [vm_compute; reflexivity | reflexivity].
Qed.

Lemma beam_step_expands_caller_bundle_witness :
  exists lm1 dh1 sel hs cs,
    beam_step toy_log (toy_model true false false) toy_beam_states 1 None
              toy_function 0 toy_lm0 None = Ok (lm1, dh1, sel) /\
    nth_error (lm_hiddens lm1) 1 = Some hs /\
    nth_error (lm_cells lm1) 1 = Some cs /\
    beam_step toy_log (toy_model true false false) toy_beam_states 1 None
              toy_function 1 lm1 dh1
    = (do bmTopkInds <- nth_res 1 (topkInds toy_beam_states);
       do bmScores <- nth_res 1 (newScores toy_beam_states);
       beam_expand toy_log (toy_model true false false) 1 None toy_function
                   hs cs bmTopkInds bmScores lm1 dh1).
Proof.
  destruct (beam_step toy_log (toy_model true false false) toy_beam_states 1
                      None toy_function 0 toy_lm0 None)
    as [[[lm1 dh1] sel]|e] eqn:E; [|vm_compute in E; discriminate E].
  destruct (beam_step_expands_caller_bundle toy_log (toy_model true false false)
              toy_beam_states 1 None toy_function 0 toy_lm0 None lm1 dh1 sel
              eq_refl eq_refl E) as (ps & hs & cs & Elm & _ & _ & Estep).
  exists lm1, dh1, sel, hs, cs.
  split; [reflexivity|].
  split; [rewrite Elm; reflexivity|].
  split; [rewrite Elm; reflexivity|].
  exact Estep.
Defined.

(** * Further properties *)

(** ** State initialisation *)

Lemma evens_nth {A} (d : A) : forall (i : nat) l,
  nth i (evens l) d = nth (2 * i)%nat l d.
Proof.
  induction i as [|i IH]; intros l.
  - destruct l as [|x [|y l]]; reflexivity.
  - destruct l as [|x [|y l]].
    + reflexivity.
    + simpl. destruct i; reflexivity.
    + change (evens (x :: y :: l)) with (x :: evens l).
      replace (2 * S i)%nat with (S (S (2 * i))) by lia.
      simpl nth. apply IH.
Qed.

Lemma odds_nth {A} (d : A) (i : nat) l :
  nth i (odds l) d = nth (2 * i + 1)%nat l d.
Proof.
  destruct l as [|x l]; simpl odds.
  - destruct i; destruct (2 * _ + 1)%nat; reflexivity.
  - rewrite evens_nth. replace (2 * i + 1)%nat with (S (2 * i)) by lia.
    reflexivity.
Qed.

Lemma evens_odds_length {A} : forall (n : nat) (l : list A),
  (length l = (2 * n)%nat -> length (evens l) = n /\ length (odds l) = n) /\
  (length l = (2 * n + 1)%nat -> length (evens l) = S n /\ length (odds l) = n).
Proof.
  induction n as [|n IH]; intros l.
  - split; intros H.
    + destruct l; [auto | discriminate].
    + destruct l as [|x [|y l]]; [discriminate | auto | discriminate].
  - destruct l as [|x [|y l]]; try (split; intros H; simpl in H; lia).
    destruct (IH l) as [IH1 IH2].
    change (evens (x :: y :: l)) with (x :: evens l).
    change (odds (x :: y :: l)) with (y :: odds l).
    simpl length. split; intros H.
    + destruct IH1 as [E O]; [lia|]. lia.
    + destruct IH2 as [E O]; [lia|]. lia.
Qed.

Lemma cat2_spec (a b : list (list (list Q))) B :
  length a = length b ->
  Forall (fun layer => length layer = B) a ->
  Forall (fun layer => length layer = B) b ->
  exists c, cat2 a b = Ok c /\ length c = length a /\
    Forall (fun layer => length layer = B) c /\
    forall i r, (i < length a)%nat -> (r < B)%nat ->
      nth r (nth i c []) [] = nth r (nth i a []) [] ++ nth r (nth i b []) [].
Proof.
  intros L Ha Hb. unfold cat2. rewrite L, Nat.eqb_refl.
  eexists. split; [reflexivity|].
  split; [rewrite length_map, length_combine; lia|].
  assert (Hla : forall i, (i < length a)%nat -> length (nth i a []) = B).
  { intros i Hi. rewrite Forall_forall in Ha. apply Ha, nth_In. exact Hi. }
  assert (Hlb : forall i, (i < length b)%nat -> length (nth i b []) = B).
  { intros i Hi. rewrite Forall_forall in Hb. apply Hb, nth_In. exact Hi. }
  split.
  - rewrite Forall_forall. intros layer Hin. apply in_map_iff in Hin.
    destruct Hin as ([x y] & <- & Hxy).
    rewrite length_map, length_combine.
    rewrite Forall_forall in Ha, Hb.
    rewrite (Ha x (in_combine_l _ _ _ _ Hxy)), (Hb y (in_combine_r _ _ _ _ Hxy)).
    lia.
  - intros i r Hi Hr.
    rewrite (nth_map_lt _ (combine a b) i ([], [])) by (rewrite length_combine; lia).
    rewrite combine_nth by exact L.
    rewrite (nth_map_lt _ (combine (nth i a []) (nth i b [])) r ([], []))
      by (rewrite length_combine, Hla, Hlb; lia).
    rewrite combine_nth by (rewrite Hla, Hlb; lia).
    reflexivity.
Qed.

(** X1.  [_cat_directions] leaves the state as it is for a one-directional
    encoder.  For a bidirectional one it pairs the layers: from 2n layers
    it makes n, layer i holding row by row the units of layer 2i followed
    by those of layer 2i+1; with an odd number of layers it fails.  No
    encoder state gives no decoder state. *)
Theorem cat_directions_pairs_layers m (h : list (list (list Q))) (n B : nat) :
  (bidirectional_encoder m = false -> _cat_directions m h = Ok h) /\
  (bidirectional_encoder m = true -> length h = (2 * n)%nat ->
   Forall (fun layer => length layer = B) h ->
   exists h', _cat_directions m h = Ok h' /\ length h' = n /\
     Forall (fun layer => length layer = B) h' /\
     forall i r, (i < n)%nat -> (r < B)%nat ->
       nth r (nth i h' []) []
       = nth r (nth (2 * i)%nat h []) [] ++ nth r (nth (2 * i + 1)%nat h []) []) /\
  (bidirectional_encoder m = true -> length h = (2 * n + 1)%nat ->
   _cat_directions m h = Err (RuntimeError msg_cat)) /\
  _init_state m None = Ok None.
Proof.
  split; [|split; [|split]].
  - intros H. unfold _cat_directions. rewrite H. reflexivity.
  - intros Hb L Hh. unfold _cat_directions. rewrite Hb.
    destruct (evens_odds_length n h) as [[Le Lo] _]; [exact L|].
    assert (He : Forall (fun layer => length layer = B) (evens h)).
    { rewrite Forall_forall in *. intros x Hx.
      destruct (In_nth _ _ [] Hx) as (i & Hi & <-). rewrite evens_nth.
      apply Hh, nth_In. lia. }
    assert (Ho : Forall (fun layer => length layer = B) (odds h)).
    { rewrite Forall_forall in *. intros x Hx.
      destruct (In_nth _ _ [] Hx) as (i & Hi & <-). rewrite odds_nth.
      apply Hh, nth_In. lia. }
    destruct (cat2_spec (evens h) (odds h) B) as (c & E & Lc & Fc & Nc);
      [congruence | exact He | exact Ho |].
    exists c. split; [exact E|]. split; [congruence|]. split; [exact Fc|].
    intros i r Hi Hr. rewrite Nc by lia. rewrite evens_nth, odds_nth. reflexivity.
  - intros Hb L. unfold _cat_directions, cat2. rewrite Hb.
    destruct (evens_odds_length n h) as [_ [Le Lo]]; [exact L|].
    rewrite Le, Lo.
    destruct (Nat.eqb_spec (S n) n); [lia | reflexivity].
  - reflexivity.
Qed.

(** ** Argument validation: defaults and precedence *)

Lemma scatter_repeat_one_hot b v sos :
  (0 <= sos < Z.of_nat v)%Z ->
  scatter_ (repeat (repeat 0%Q v) b) (repeat [sos] b) 1%Q
  = Ok (repeat (one_hot v sos) b).
Proof.
  intros H. induction b as [|b IH]; simpl; [reflexivity|].
  rewrite repeat_length.
  replace ((0 <=? sos)%Z && (sos <? Z.of_nat v)%Z)%bool with true
    by (symmetry; apply andb_true_iff; split; [apply Z.leb_le | apply Z.ltb_lt]; lia).
  simpl. rewrite IH. reflexivity.
Qed.

Lemma one_hot_entries v sos :
  (0 <= sos < Z.of_nat v)%Z ->
  length (one_hot v sos) = v /\
  forall c, (c < v)%nat ->
    nth c (one_hot v sos) 0%Q = if (Z.of_nat c =? sos)%Z then 1%Q else 0%Q.
Proof.
  intros H. unfold one_hot. split; [rewrite length_set_nth; apply repeat_length|].
  intros c Hc. rewrite nth_set_nth, repeat_length.
  replace (Z.to_nat sos <? v)%nat with true by (symmetry; apply Nat.ltb_lt; lia).
  rewrite andb_true_r, nth_repeat_lt by exact Hc.
  destruct (Nat.eqb_spec c (Z.to_nat sos)); destruct (Z.eqb_spec (Z.of_nat c) sos);
    try reflexivity; lia.
Qed.

(** X2.  Without inputs (and with a configuration that passes), validation
    builds one row per batch element holding the start symbol - as an index,
    or in probability-vector mode as the distribution that is 1 at [sos_id]
    and 0 elsewhere - takes the batch size from the encoder state (1 when
    there is none) and the decode length from [self.max_length]. *)
Theorem validate_args_default_inputs m eh eo tfr :
  state_fits_cell (rnn_cell m) eh -> sos_in_vocabulary m ->
  ~ invalid_arguments m None eo tfr ->
  _validate_args m None eh eo tfr
  = Ok (repeat [if use_prob_vector m
                then Dist (one_hot (output_size m) (sos_id m))
                else Tok (sos_id m)] (state_batch eh),
        state_batch eh, max_length m) /\
  (use_prob_vector m = true ->
   length (one_hot (output_size m) (sos_id m)) = output_size m /\
   forall c, (c < output_size m)%nat ->
     nth c (one_hot (output_size m) (sos_id m)) 0%Q
     = if (Z.of_nat c =? sos_id m)%Z then 1%Q else 0%Q).
Proof.
  intros Hfit Hsos Hn. split; [|intros Hp; apply one_hot_entries; auto].
  unfold invalid_arguments in Hn. unfold _validate_args.
  assert (Ea : (if use_attention m
                then match eo with None => Err (ValueError msg_attention) | Some _ => Ok tt end
                else Ok tt) = Ok tt).
  { destruct (use_attention m); [|reflexivity].
    destruct eo; [reflexivity|]. exfalso. apply Hn. auto. }
  rewrite Ea. cbv beta iota delta [bind].
  assert (Et : Qlt_bool 0 tfr = false).
  { destruct (Qlt_bool 0 tfr) eqn:E; [|reflexivity].
    apply Qlt_bool_iff in E. exfalso. apply Hn. auto. }
  assert (Eb : match eh with
               | None => Ok 1%nat
               | Some eh0 => hidden_batch_size (rnn_cell m) eh0
               end = Ok (state_batch eh)).
  { destruct eh as [[h c|h]|]; simpl in *; try rewrite Hfit; reflexivity. }
  rewrite Eb, Et.
  destruct (use_prob_vector m) eqn:Ep; cbv beta iota delta [negb].
  - unfold one_hot_inputs. rewrite scatter_repeat_one_hot by (apply Hsos; exact Ep).
    cbv beta iota delta [bind]. rewrite map_repeat. reflexivity.
  - reflexivity.
Qed.

(** X3.  Order of the checks in [_validate_args]: the missing encoder
    outputs are reported before anything else; a GRU cell handed an (h, c)
    pair without inputs fails on reading the batch size, before the
    teacher-forcing ratio is looked at; and with inputs present neither the
    encoder state nor the teacher-forcing ratio can make validation fail. *)
Theorem validate_args_check_order m inputs eh eo tfr :
  (use_attention m = true -> eo = None ->
   _validate_args m inputs eh eo tfr = Err (ValueError msg_attention)) /\
  (~ (use_attention m = true /\ eo = None) -> rnn_cell m = GRU ->
   forall h c, _validate_args m None (Some (HTuple h c)) eo tfr
               = Err (AttributeError msg_tuple_size)) /\
  (~ (use_attention m = true /\ eo = None) ->
   forall i, _validate_args m (Some i) eh eo tfr
             = Ok (i, length i, (Z.of_nat (size1 i) - 1)%Z)).
Proof.
  split; [|split].
  - intros Ha He. apply validate_args_attention; assumption.
  - intros Hn Hg h c. unfold _validate_args. rewrite Hg.
    destruct (use_attention m); [destruct eo; [|exfalso; apply Hn; auto]|];
      reflexivity.
  - intros Hn i. apply validate_args_inputs. intros Ha He. apply Hn. auto.
Qed.

(** ** What [forward] depends on *)

Lemma forward_split log m rnd inputs beamStates eh eo function tfr max_len semi_sup :
  snd (forward log m rnd inputs beamStates eh eo function tfr max_len semi_sup)
  = (do '(inputs', _, M) <-
       _validate_args (set_max_length m max_len) inputs eh eo tfr;
     run_modes log (set_max_length m max_len) rnd beamStates eh eo function tfr
               inputs' M).
Proof. reflexivity. Qed.

Lemma tf_loop_flags m v b o a n : forall di st,
  tf_loop (set_flags m v b) o a n di st = tf_loop m o a n di st.
Proof.
  induction n as [|n IH]; intros di st; simpl; [reflexivity|].
  destruct (slice1 di o); simpl; [|reflexivity].
  destruct (match a with Some a0 => _ | None => _ end); simpl; [|reflexivity].
  change (decode (set_flags m v b)) with (decode m).
  destruct (decode m di _ _ st) as [[st' sy]|e]; simpl; [apply IH | reflexivity].
Qed.

Lemma greedy_loop_flags m v b enc f n : forall di inp hid st,
  greedy_loop (set_flags m v b) enc f n di inp hid st
  = greedy_loop m enc f n di inp hid st.
Proof.
  induction n as [|n IH]; intros di inp hid st; simpl; [reflexivity|].
  change (forward_step (set_flags m v b)) with (forward_step m).
  destruct (forward_step m inp hid enc f _) as [[[o h'] a]|e]; simpl;
    [|reflexivity].
  change (decode (set_flags m v b)) with (decode m).
  destruct (decode m di _ _ st) as [[st' sy]|e]; simpl; [apply IH | reflexivity].
Qed.

Lemma expand_hyps_flags m v b bsz enc f h0 c0 inds n : forall k dh,
  expand_hyps (set_flags m v b) bsz enc f h0 c0 inds n k dh
  = expand_hyps m bsz enc f h0 c0 inds n k dh.
Proof.
  induction n as [|n IH]; intros k dh; simpl; [reflexivity|].
  destruct (nth_res k inds); simpl; [|reflexivity].
  destruct (hidGathInds _ bsz); simpl; [|reflexivity].
  destruct (gather0 h0 _); simpl; [|reflexivity].
  destruct (gather0 c0 _); simpl; [|reflexivity].
  change (forward_step (set_flags m v b)) with (forward_step m).
  destruct (forward_step m _ _ enc f None) as [[[o h'] at']|e]; simpl;
    [|reflexivity].
  destruct h' as [h c|h]; [|reflexivity].
  rewrite IH. reflexivity.
Qed.

Lemma beam_step_flags log m v b bs bsz enc f di lm dh :
  beam_step log (set_flags m v b) bs bsz enc f di lm dh
  = beam_step log m bs bsz enc f di lm dh.
Proof.
  unfold beam_step, beam_expand.
  destruct (nth_res di (lm_hiddens lm)); simpl; [|reflexivity].
  destruct (nth_res di (lm_cells lm)); simpl; [|reflexivity].
  destruct (nth_res di (topkInds bs)); simpl; [|reflexivity].
  destruct (nth_res di (newScores bs)); simpl; [|reflexivity].
  destruct (mapM (nth_res 0) _); simpl; [|reflexivity].
  destruct (mapM (nth_res 0) _); simpl; [|reflexivity].
  rewrite expand_hyps_flags. reflexivity.
Qed.

Lemma beam_loop_flags log m v b bs bsz enc f n : forall di lm dh,
  beam_loop log (set_flags m v b) bs bsz enc f n di lm dh
  = beam_loop log m bs bsz enc f n di lm dh.
Proof.
  induction n as [|n IH]; intros di lm dh; simpl; [reflexivity|].
  rewrite beam_step_flags.
  destruct (beam_step log m bs bsz enc f di lm dh) as [[[lm' dh'] nxt]|e];
    simpl; [apply IH | reflexivity].
Qed.

(** [run_modes] reads the object's flags only to choose the branch. *)
Lemma run_modes_flags log m v b rnd bs eh eo f tfr inp M :
  run_modes log (set_flags m v b) rnd bs eh eo f tfr inp M
  = run_modes log (set_flags m 0 b) rnd bs eh eo f tfr inp M.
Proof.
  unfold run_modes.
  destruct bs as [bs|]; simpl; [|reflexivity].
  destruct (nth_res 0 (topkInds bs)); simpl; [|reflexivity].
  change (_init_state (set_flags m v b) eh) with (_init_state m eh).
  change (_init_state (set_flags m 0 b) eh) with (_init_state m eh).
  destruct (_init_state m eh); simpl; [|reflexivity].
  destruct (nth_res 0 (cells bs)); simpl; [|reflexivity].
  destruct (Qlt_bool rnd tfr).
  - change (forward_step (set_flags m v b)) with (forward_step m).
    change (forward_step (set_flags m 0 b)) with (forward_step m).
    destruct (forward_step m _ _ eo f None) as [[[o h'] at']|e]; simpl;
      [|reflexivity].
    rewrite !tf_loop_flags. reflexivity.
  - destruct b.
    + destruct (first_column inp); simpl; [|reflexivity].
      rewrite !beam_loop_flags. reflexivity.
    + destruct (first_column inp); simpl; [|reflexivity].
      rewrite !greedy_loop_flags. reflexivity.
Qed.

Lemma run_modes_teacher_forcing log m v b rnd bs eh eo f tfr inp M :
  Qlt_bool rnd tfr = true ->
  run_modes log (set_flags m v b) rnd bs eh eo f tfr inp M
  = run_modes log (set_flags m v (negb b)) rnd bs eh eo f tfr inp M.
Proof.
  intros Ht. unfold run_modes. rewrite Ht.
  destruct bs as [bs|]; simpl; [|reflexivity].
  destruct (nth_res 0 (topkInds bs)); simpl; [|reflexivity].
  change (_init_state (set_flags m v b) eh) with (_init_state m eh).
  change (_init_state (set_flags m v (negb b)) eh) with (_init_state m eh).
  destruct (_init_state m eh); simpl; [|reflexivity].
  destruct (nth_res 0 (cells bs)); simpl; [|reflexivity].
  change (forward_step (set_flags m v b)) with (forward_step m).
  change (forward_step (set_flags m v (negb b))) with (forward_step m).
  destruct (forward_step m _ _ eo f None) as [[[o h'] at']|e]; simpl;
    [|reflexivity].
  rewrite !tf_loop_flags. reflexivity.
Qed.

(** X4.  With inputs given, the [max_len] argument has no effect on what
    [forward] returns (it is only stored in the object): the decode length
    is taken from the width of the inputs. *)
Theorem forward_ignores_max_len_with_inputs log m rnd inp beamStates eh eo
        function tfr semi_sup (max_len1 max_len2 : Z) :
  snd (forward log m rnd (Some inp) beamStates eh eo function tfr max_len1 semi_sup)
  = snd (forward log m rnd (Some inp) beamStates eh eo function tfr max_len2
                 semi_sup).
Proof.
  rewrite !forward_split.
  change (_validate_args (set_max_length m max_len1) (Some inp) eh eo tfr)
    with (_validate_args m (Some inp) eh eo tfr).
  change (_validate_args (set_max_length m max_len2) (Some inp) eh eo tfr)
    with (_validate_args m (Some inp) eh eo tfr).
  destruct (_validate_args m (Some inp) eh eo tfr) as [[[i b0] M]|e];
    [|reflexivity].
  cbv beta iota delta [bind].
  change (set_max_length m max_len1) with (set_flags m max_len1 (beamSearchMode m)).
  change (set_max_length m max_len2) with (set_flags m max_len2 (beamSearchMode m)).
  rewrite (run_modes_flags log m max_len1), (run_modes_flags log m max_len2).
  reflexivity.
Qed.

(** X5.  Teacher forcing has priority over beam search: when the draw falls
    below the teacher-forcing ratio, [forward] returns the same whether the
    object was built with beam-search mode on or off. *)
Theorem teacher_forcing_overrides_beam_mode log m rnd inputs beamStates eh eo
        function tfr max_len semi_sup :
  (rnd < tfr)%Q ->
  snd (forward log (set_flags m (max_length m) true) rnd inputs beamStates eh eo
               function tfr max_len semi_sup)
  = snd (forward log (set_flags m (max_length m) false) rnd inputs beamStates eh
                 eo function tfr max_len semi_sup).
Proof.
  intros Ht. apply Qlt_bool_iff in Ht. rewrite !forward_split.
  change (_validate_args (set_max_length (set_flags m (max_length m) true) max_len))
    with (_validate_args (set_max_length m max_len)).
  change (_validate_args (set_max_length (set_flags m (max_length m) false) max_len))
    with (_validate_args (set_max_length m max_len)).
  destruct (_validate_args (set_max_length m max_len) inputs eh eo tfr)
    as [[[i b0] M]|e]; [|reflexivity].
  cbv beta iota delta [bind].
  change (set_max_length (set_flags m (max_length m) true) max_len)
    with (set_flags m max_len true).
  change (set_max_length (set_flags m (max_length m) false) max_len)
    with (set_flags m max_len false).
  apply (run_modes_teacher_forcing log m max_len true); exact Ht.
Qed.

(** X6.  Which part of the inputs decoding reads.  Without teacher forcing
    only the first column and the width matter; with teacher forcing the
    last column is never read (the width still fixes the decode length). *)
Theorem forward_reads_of_inputs log m rnd inp inp' beamStates eh eo function tfr
        max_len semi_sup :
  size1 inp = size1 inp' ->
  (~ (rnd < tfr)%Q -> first_column inp = first_column inp' ->
   snd (forward log m rnd (Some inp) beamStates eh eo function tfr max_len semi_sup)
   = snd (forward log m rnd (Some inp') beamStates eh eo function tfr max_len
                  semi_sup)) /\
  ((rnd < tfr)%Q ->
   map (@removelast Token) inp = map (@removelast Token) inp' ->
   snd (forward log m rnd (Some inp) beamStates eh eo function tfr max_len semi_sup)
   = snd (forward log m rnd (Some inp') beamStates eh eo function tfr max_len
                  semi_sup)).
Proof.
  intros Hw.
  assert (Hv : forall i, _validate_args (set_max_length m max_len) (Some i) eh eo tfr
                 = (do _ <- (if use_attention m
                             then match eo with
                                  | None => Err (ValueError msg_attention)
                                  | Some _ => Ok tt
                                  end
                             else Ok tt);
                    Ok (i, length i, (Z.of_nat (size1 i) - 1)%Z))).
  { intros i. unfold _validate_args.
    change (use_attention (set_max_length m max_len)) with (use_attention m).
    destruct (use_attention m); [destruct eo|]; reflexivity. }
  split.
  - intros Hn Hc.
    assert (Ht : Qlt_bool rnd tfr = false).
    { destruct (Qlt_bool rnd tfr) eqn:E; [|reflexivity].
      apply Qlt_bool_iff in E. contradiction. }
    rewrite !forward_split, !Hv.
    destruct (if use_attention m then _ else _); [|reflexivity].
    cbv beta iota delta [bind]. rewrite Hw.
    unfold run_modes. rewrite Ht, Hc. reflexivity.
  - intros Ht Hc. apply Qlt_bool_iff in Ht.
    rewrite !forward_split, !Hv.
    destruct (if use_attention m then _ else _); [|reflexivity].
    cbv beta iota delta [bind]. rewrite Hw.
    unfold run_modes. rewrite Ht, Hc. reflexivity.
Qed.

(** ** What a returned result looks like *)

(** Reading back a successful run of lines 141-241. *)
Lemma run_modes_inv log m rnd beamStates eh eo f tfr inp M outs hid ret :
  run_modes log m rnd beamStates eh eo f tfr inp M = Ok (outs, hid, ret) ->
  exists bs inds0 c0 dh st,
    beamStates = Some bs /\ nth_error (topkInds bs) 0 = Some inds0 /\
    nth_error (cells bs) 0 = Some c0 /\ _init_state m eh = Ok dh /\
    outs = decoder_outputs st /\ ret_sequence ret = sequence_symbols st /\
    ret_length ret = lengths st /\
    ret_attention_score ret
    = (if use_attention m then Some (attention_score st) else None) /\
    let st0 := init_decode_state M (size1 inds0) in
    let lm0 := {| lm_probVec := [[]]; lm_hiddens := [c0]; lm_cells := [c0] |} in
    ((Qlt_bool rnd tfr = true /\ ret_beamStates ret = lm0 /\
      exists p hid' attn,
        forward_step m (map (@removelast Token) inp) dh eo f None
        = Ok (p, hid', attn) /\
        tf_loop m p attn (size1 p) 0 st0 = Ok st) \/
     (Qlt_bool rnd tfr = false /\ beamSearchMode m = true /\ st = st0 /\
      (exists d, first_column inp = Ok d) /\
      beam_loop log m bs (size1 inds0) eo f (Z.to_nat M) 0 lm0 dh
      = Ok (ret_beamStates ret, hid)) \/
     (Qlt_bool rnd tfr = false /\ beamSearchMode m = false /\
      ret_beamStates ret = lm0 /\
      exists d, first_column inp = Ok d /\
        greedy_loop m eo f (Z.to_nat M) 0 d dh st0 = Ok (st, hid))).
Proof.
  unfold run_modes. intros H.
  apply bind_ok in H. destruct H as (bs & Hbs & H).
  destruct beamStates as [bs'|]; [|discriminate]. injection Hbs as ->.
  apply bind_ok in H. destruct H as (inds0 & Hi & H). apply nth_res_ok in Hi.
  apply bind_ok in H. destruct H as (dh & Hdh & H).
  apply bind_ok in H. destruct H as (c0 & Hc & H). apply nth_res_ok in Hc.
  apply bind_ok in H. destruct H as ([[st dh'] lm] & Hm & H).
  injection H as <- <- <-.
  exists bs, inds0, c0, dh, st. simpl.
  repeat (split; [first [reflexivity | assumption]|]).
  destruct (Qlt_bool rnd tfr).
  - left. apply bind_ok in Hm. destruct Hm as ([[p hid'] attn] & Hp & Hm).
    apply bind_ok in Hm. destruct Hm as (st' & Ht & Hm).
    injection Hm as <- <- <-.
    split; [reflexivity|]. split; [reflexivity|]. exists p, hid', attn. auto.
  - right. destruct (beamSearchMode m).
    + left. apply bind_ok in Hm. destruct Hm as (d & Hd & Hm).
      apply bind_ok in Hm. destruct Hm as ([lm' dh''] & Hl & Hm).
      injection Hm as <- <- <-.
      repeat (split; [reflexivity|]). split; [eauto | exact Hl].
    + right. apply bind_ok in Hm. destruct Hm as (d & Hd & Hm).
      apply bind_ok in Hm. destruct Hm as ([st' dh''] & Hl & Hm).
      injection Hm as <- <- <-.
      repeat (split; [reflexivity|]). exists d. auto.
Qed.

Lemma forward_inv log m rnd inputs beamStates eh eo f tfr max_len semi_sup r :
  snd (forward log m rnd inputs beamStates eh eo f tfr max_len semi_sup) = Ok r ->
  exists inp b M,
    _validate_args (set_max_length m max_len) inputs eh eo tfr = Ok (inp, b, M) /\
    run_modes log (set_max_length m max_len) rnd beamStates eh eo f tfr inp M
    = Ok r.
Proof.
  rewrite forward_split. intros H.
  apply bind_ok in H. destruct H as ([[inp b] M] & Hv & H). eauto.
Qed.

Lemma beam_loop_inv log m bs bsz enc f n : forall di lm dh lm' dh',
  beam_loop log m bs bsz enc f n di lm dh = Ok (lm', dh') ->
  (exists p h c,
     lm_probVec lm' = lm_probVec lm ++ p /\ length p = n /\
     lm_hiddens lm' = lm_hiddens lm ++ h /\ length h = n /\
     lm_cells lm' = lm_cells lm ++ c /\ length c = n) /\
  (di + n <= length (topkInds bs) \/ n = 0)%nat /\
  (di + n <= length (newScores bs) \/ n = 0)%nat.
Proof.
  induction n as [|n IH]; intros di lm dh lm' dh' H; simpl in H.
  - injection H as <- <-. split; [|split; right; reflexivity].
    exists [], [], []. rewrite !app_nil_r. repeat split.
  - apply bind_ok in H. destruct H as ([[lm1 dh1] nxt] & Hs & H).
    destruct (IH _ _ _ _ _ H) as ((p & h & c & Ep & Lp & Eh & Lh & Ec & Lc) & B1 & B2).
    unfold beam_step in Hs.
    apply bind_ok in Hs. destruct Hs as (bh & _ & Hs).
    apply bind_ok in Hs. destruct Hs as (bc & _ & Hs).
    apply bind_ok in Hs. destruct Hs as (bi & Hbi & Hs).
    apply bind_ok in Hs. destruct Hs as (bsc & Hbsc & Hs).
    apply nth_res_ok in Hbi, Hbsc.
    assert (Li : (di < length (topkInds bs))%nat)
      by (apply nth_error_Some; congruence).
    assert (Ls : (di < length (newScores bs))%nat)
      by (apply nth_error_Some; congruence).
    apply beam_expand_trace in Hs. destruct Hs as (ps & hs & cs & ->).
    simpl in Ep, Eh, Ec.
    split.
    + exists (ps :: p), (hs :: h), (cs :: c).
      rewrite Ep, Eh, Ec, <- !app_assoc. simpl.
      repeat split; auto.
    + split; left; lia.
Qed.

(** X7.  What beam mode returns.  When teacher forcing does not fire and
    beam-search mode is on, a returned result has no step outputs and no
    predicted symbols, its length vector still holds the decode length in
    every entry (no end-of-sequence tracking takes place), and each of the
    three recorded traces holds its seed entry followed by one entry per
    step; the seed is the empty list for the distributions and the caller's
    step-0 cell states for both the hidden and the cell states. *)
Theorem beam_mode_result log m rnd inputs beamStates eh eo f tfr max_len semi_sup
        outs hid ret :
  beamSearchMode m = true -> ~ (rnd < tfr)%Q ->
  snd (forward log m rnd inputs beamStates eh eo f tfr max_len semi_sup)
  = Ok (outs, hid, ret) ->
  exists inp b M bs inds0 c0,
    _validate_args (set_max_length m max_len) inputs eh eo tfr = Ok (inp, b, M) /\
    beamStates = Some bs /\ nth_error (topkInds bs) 0 = Some inds0 /\
    nth_error (cells bs) 0 = Some c0 /\
    outs = [] /\ ret_sequence ret = [] /\
    ret_length ret = repeat M (size1 inds0) /\
    ret_attention_score ret = (if use_attention m then Some [] else None) /\
    length (lm_probVec (ret_beamStates ret)) = S (Z.to_nat M) /\
    length (lm_hiddens (ret_beamStates ret)) = S (Z.to_nat M) /\
    length (lm_cells (ret_beamStates ret)) = S (Z.to_nat M) /\
    nth_error (lm_probVec (ret_beamStates ret)) 0 = Some [] /\
    nth_error (lm_hiddens (ret_beamStates ret)) 0 = Some c0 /\
    nth_error (lm_cells (ret_beamStates ret)) 0 = Some c0.
Proof.
  intros Hbeam Hn H.
  destruct (forward_inv _ _ _ _ _ _ _ _ _ _ _ _ H) as (inp & b & M & Hv & Hr).
  destruct (run_modes_inv _ _ _ _ _ _ _ _ _ _ _ _ _ Hr)
    as (bs & inds0 & c0 & dh & st & Ebs & Ei & Ec & Edh & Eo & Es & El & Ea & Hmode).
  assert (Ht : Qlt_bool rnd tfr = false).
  { destruct (Qlt_bool rnd tfr) eqn:E; [|reflexivity].
    apply Qlt_bool_iff in E. contradiction. }
  change (beamSearchMode (set_max_length m max_len)) with (beamSearchMode m) in Hmode.
  change (use_attention (set_max_length m max_len)) with (use_attention m) in Ea.
  cbv zeta in Hmode.
  destruct Hmode as [(Ht' & _) | [(_ & _ & Est & _ & Hl) | (_ & Hb & _)]];
    [congruence | | congruence].
  subst st. simpl in Eo, Es, El, Ea.
  apply beam_loop_inv in Hl.
  destruct Hl as ((p & h & c & Ep & Lp & Eh & Lh & Ec' & Lc) & _ & _).
  simpl in Ep, Eh, Ec'.
  exists inp, b, M, bs, inds0, c0.
  repeat (split; [first [assumption | reflexivity]|]).
  rewrite Ep, Eh, Ec'. simpl. rewrite Lp, Lh, Lc. repeat split.
Qed.

(** X8.  Beam decoding reads one entry of the caller's bundle per step: when
    the bundle holds fewer pair entries or fewer score entries than the
    decode length, the call does not return a result. *)
Theorem beam_mode_needs_bundle_entries log m rnd inputs bs eh eo f tfr max_len
        semi_sup inp b M :
  beamSearchMode m = true -> ~ (rnd < tfr)%Q ->
  _validate_args (set_max_length m max_len) inputs eh eo tfr = Ok (inp, b, M) ->
  (length (topkInds bs) < Z.to_nat M \/ length (newScores bs) < Z.to_nat M)%nat ->
  exists e,
    snd (forward log m rnd inputs (Some bs) eh eo f tfr max_len semi_sup) = Err e.
Proof.
  intros Hbeam Hn Hv Hshort.
  destruct (snd (forward log m rnd inputs (Some bs) eh eo f tfr max_len semi_sup))
    as [[[outs hid] ret]|e] eqn:H; [exfalso | eauto].
  destruct (forward_inv _ _ _ _ _ _ _ _ _ _ _ _ H) as (inp' & b' & M' & Hv' & Hr).
  rewrite Hv in Hv'. injection Hv' as <- <- <-.
  destruct (run_modes_inv _ _ _ _ _ _ _ _ _ _ _ _ _ Hr)
    as (bs' & inds0 & c0 & dh & st & Ebs & Ei & Ec & Edh & Eo & Es & El & Ea & Hmode).
  injection Ebs as <-.
  assert (Ht : Qlt_bool rnd tfr = false).
  { destruct (Qlt_bool rnd tfr) eqn:E; [|reflexivity].
    apply Qlt_bool_iff in E. contradiction. }
  change (beamSearchMode (set_max_length m max_len)) with (beamSearchMode m) in Hmode.
  cbv zeta in Hmode.
  destruct Hmode as [(Ht' & _) | [(_ & _ & Est & _ & Hl) | (_ & Hb & _)]];
    [congruence | | congruence].
  apply beam_loop_inv in Hl. destruct Hl as (_ & B1 & B2). lia.
Qed.

(** X9.  Outside beam mode the returned beam-state trace is a placeholder
    built from the caller's bundle: the empty list as only distribution
    entry, and the caller's step-0 cell states as only entry of both the
    hidden-state and the cell-state history. *)
Theorem placeholder_beam_trace log m rnd inputs beamStates eh eo f tfr max_len
        semi_sup outs hid ret :
  (rnd < tfr)%Q \/ beamSearchMode m = false ->
  snd (forward log m rnd inputs beamStates eh eo f tfr max_len semi_sup)
  = Ok (outs, hid, ret) ->
  exists bs c0,
    beamStates = Some bs /\ nth_error (cells bs) 0 = Some c0 /\
    ret_beamStates ret
    = {| lm_probVec := [[]]; lm_hiddens := [c0]; lm_cells := [c0] |}.
Proof.
  intros Hmode0 H.
  destruct (forward_inv _ _ _ _ _ _ _ _ _ _ _ _ H) as (inp & b & M & Hv & Hr).
  destruct (run_modes_inv _ _ _ _ _ _ _ _ _ _ _ _ _ Hr)
    as (bs & inds0 & c0 & dh & st & Ebs & Ei & Ec & Edh & Eo & Es & El & Ea & Hmode).
  change (beamSearchMode (set_max_length m max_len)) with (beamSearchMode m) in Hmode.
  cbv zeta in Hmode.
  exists bs, c0. split; [exact Ebs|]. split; [exact Ec|].
  destruct Hmode as [(_ & E & _) | [(Ht & Hb & _) | (_ & _ & E & _)]]; auto.
  exfalso. destruct Hmode0 as [Hlt | Hnb]; [|congruence].
  apply Qlt_bool_iff in Hlt. congruence.
Qed.

(** ** Predicted symbols *)

Lemma argmax_from_spec (row : list Q) : forall l i best_i best,
  skipn i row = l -> (best_i < i)%nat -> (i <= length row)%nat ->
  nth best_i row 0%Q = best ->
  (forall v, (v < i)%nat -> (nth v row 0 <= best)%Q) ->
  (forall v, (v < best_i)%nat -> (nth v row 0 < best)%Q) ->
  let s := argmax_from best_i best i l in
  (s < length row)%nat /\
  (forall v, (v < length row)%nat -> (nth v row 0 <= nth s row 0)%Q) /\
  (forall v, (v < s)%nat -> (nth v row 0 < nth s row 0)%Q).
Proof.
  induction l as [|x l IH]; intros i bi best Hs Hbi Hi Hb Hle Hlt; simpl.
  - assert (Hlen : (length row <= i)%nat).
    { assert (L := length_skipn i row). rewrite Hs in L. simpl in L. lia. }
    split; [lia|]. rewrite Hb. split; [intros v Hv; apply Hle; lia | exact Hlt].
  - assert (Hi' : (i < length row)%nat).
    { assert (L := length_skipn i row). rewrite Hs in L. simpl in L. lia. }
    assert (Hx : nth i row 0%Q = x).
    { replace i with (i + 0)%nat by lia. rewrite <- nth_skipn, Hs. reflexivity. }
    assert (Hs' : skipn (S i) row = l).
    { replace (S i) with (1 + i)%nat by lia. rewrite <- skipn_skipn, Hs.
      reflexivity. }
    destruct (Qle_bool x best) eqn:E.
    + apply Qle_bool_iff in E. apply IH; auto; try lia.
      intros v Hv. destruct (Nat.eq_dec v i) as [->|N];
        [rewrite Hx; exact E | apply Hle; lia].
    + assert (Hgt : (best < x)%Q).
      { apply Qnot_le_lt. intros H. apply Qle_bool_iff in H. congruence. }
      apply IH; auto; try lia.
      * intros v Hv. destruct (Nat.eq_dec v i) as [->|N].
        -- rewrite Hx. apply Qle_refl.
        -- apply Qlt_le_weak. eapply Qle_lt_trans; [apply Hle; lia | exact Hgt].
      * intros v Hv. eapply Qle_lt_trans; [apply Hle; lia | exact Hgt].
Qed.

Lemma argmax_spec row s :
  argmax row = Ok s ->
  (s < length row)%nat /\
  (forall v, (v < length row)%nat -> (nth v row 0 <= nth s row 0)%Q) /\
  (forall v, (v < s)%nat -> (nth v row 0 < nth s row 0)%Q).
Proof.
  destruct row as [|x l]; [discriminate|]. simpl. intros H. injection H as <-.
  apply (argmax_from_spec (x :: l) l 1 0 x); simpl; auto; try lia.
  intros v Hv. replace v with 0%nat by lia. apply Qle_refl.
Qed.

Lemma decode_symbols m step so sa st st' sy :
  decode m step so sa st = Ok (st', sy) -> topk1 so = Ok sy.
Proof.
  unfold decode. intros H.
  apply bind_ok in H. destruct H as (sy' & Hsy & H).
  apply bind_ok in H. destruct H as (lens & _ & H).
  injection H as _ <-. exact Hsy.
Qed.

Lemma decode_run_pairs m i st j st' :
  decode_run m i st j st' ->
  Forall2 (fun out sy => topk1 out = Ok sy)
          (decoder_outputs st) (sequence_symbols st) ->
  Forall2 (fun out sy => topk1 out = Ok sy)
          (decoder_outputs st') (sequence_symbols st').
Proof.
  induction 1 as [i st | i st so sa st1 sy j st2 Hd Hrun IH]; intros H; [exact H|].
  apply IH. pose proof (decode_symbols _ _ _ _ _ _ _ Hd) as Hsy.
  apply decode_inv in Hd. destruct Hd as (Ho & Hs & _).
  rewrite Ho, Hs. apply Forall2_app; [exact H | constructor; [exact Hsy | constructor]].
Qed.

(** Every successful [forward] is a run of [decode] calls from the initial
    state (an empty run in beam mode). *)
Lemma run_modes_decode_run log m rnd beamStates eh eo f tfr inp M outs hid ret :
  run_modes log m rnd beamStates eh eo f tfr inp M = Ok (outs, hid, ret) ->
  exists bs inds0 n st,
    beamStates = Some bs /\ nth_error (topkInds bs) 0 = Some inds0 /\
    decode_run m 0 (init_decode_state M (size1 inds0)) n st /\
    outs = decoder_outputs st /\ ret_sequence ret = sequence_symbols st /\
    ret_length ret = lengths st /\
    ret_attention_score ret
    = (if use_attention m then Some (attention_score st) else None) /\
    ((0 < n)%nat ->
     Z.of_nat n <= M \/
     (Qlt_bool rnd tfr = true /\
      (0 < n <= size1 (map (@removelast Token) inp))%nat))%Z.
Proof.
  intros H.
  destruct (run_modes_inv _ _ _ _ _ _ _ _ _ _ _ _ _ H)
    as (bs & inds0 & c0 & dh & st & Ebs & Ei & Ec & Edh & Eo & Es & El & Ea & Hmode).
  cbv zeta in Hmode.
  destruct Hmode as [(Ht & _ & p & hid' & attn & Hp & Hl)
                    | [(_ & _ & Est & _ & _) | (_ & _ & _ & d & _ & Hl)]].
  - exists bs, inds0, (size1 p), st.
    repeat (split; [first [assumption | reflexivity]|]).
    split; [apply (tf_loop_run m p attn (size1 p) 0 _ _ Hl)|].
    repeat (split; [first [assumption | reflexivity]|]).
    intros Hn. right. split; [exact Ht|]. split; [exact Hn|].
    unfold forward_step in Hp.
    apply bind_ok in Hp. destruct Hp as ([[lg h'] a'] & _ & Hp).
    apply bind_ok in Hp. destruct Hp as (p' & Hv & Hp). injection Hp as <- _ _.
    unfold view3 in Hv.
    destruct (_ * _ =? 0)%nat; [discriminate|].
    destruct (_ mod _ =? 0)%nat; [|discriminate].
    injection Hv as <-.
    destruct (length (map (@removelast Token) inp)) as [|b']; simpl;
      [lia | rewrite length_firstn; lia].
  - subst st. exists bs, inds0, 0%nat, (init_decode_state M (size1 inds0)).
    repeat (split; [first [assumption | reflexivity | constructor]|]).
    intros Hn. lia.
  - exists bs, inds0, (Z.to_nat M), st.
    repeat (split; [first [assumption | reflexivity]|]).
    split; [apply (greedy_loop_run m eo f (Z.to_nat M) 0 d dh _ _ _ Hl)|].
    repeat (split; [first [assumption | reflexivity]|]).
    intros Hn. left. lia.
Qed.

Lemma Forall2_nth_rel {A B} (R : A -> B -> Prop) l l' :
  Forall2 R l l' ->
  length l = length l' /\
  forall i da db, (i < length l)%nat -> R (nth i l da) (nth i l' db).
Proof.
  induction 1 as [|x y l l' Hxy Hl [IH1 IH2]]; simpl.
  - split; [reflexivity | intros; lia].
  - split; [lia|]. intros [|i] da db Hi; [exact Hxy | apply IH2; lia].
Qed.

(** X10.  In every decoding mode a returned result holds one batch of
    predicted symbols per step output, and each symbol is a position of its
    row of the step output at which the row is largest: no entry of the row
    exceeds the entry at the symbol. *)
Theorem symbols_are_argmax log m rnd inputs beamStates eh eo f tfr max_len
        semi_sup outs hid ret :
  snd (forward log m rnd inputs beamStates eh eo f tfr max_len semi_sup)
  = Ok (outs, hid, ret) ->
  length (ret_sequence ret) = length outs /\
  forall i b, (i < length outs)%nat -> (b < length (nth i outs []))%nat ->
    exists s,
      nth b (nth i (ret_sequence ret) []) [] = [Z.of_nat s] /\
      (s < length (nth b (nth i outs []) []))%nat /\
      (forall v, (v < length (nth b (nth i outs []) []))%nat ->
         (nth v (nth b (nth i outs []) []) 0
          <= nth s (nth b (nth i outs []) []) 0)%Q).
Proof.
  intros H.
  destruct (forward_inv _ _ _ _ _ _ _ _ _ _ _ _ H) as (inp & b0 & M & Hv & Hr).
  destruct (run_modes_decode_run _ _ _ _ _ _ _ _ _ _ _ _ _ Hr)
    as (bs & inds0 & n & st & _ & _ & Hrun & Eo & Es & _).
  apply decode_run_pairs in Hrun; [|constructor].
  rewrite <- Eo, <- Es in Hrun.
  destruct (Forall2_nth_rel _ _ _ Hrun) as [L N].
  split; [symmetry; exact L|].
  intros i b Hi Hb.
  specialize (N i [] [] Hi). unfold topk1 in N.
  assert (Hrow : nth_error (nth i outs []) b = Some (nth b (nth i outs []) []))
    by (apply nth_error_nth'; exact Hb).
  destruct (mapM_ok_nth _ _ _ N b _ Hrow) as (sy & Esy & Hsy).
  apply bind_ok in Hsy. destruct Hsy as (s & Hs & Hsy). injection Hsy as <-.
  exists s. split; [apply nth_error_nth; exact Esy|].
  destruct (argmax_spec _ _ Hs) as (Hlt & Hmax & _). split; assumption.
Qed.

(** ** The first end-of-sequence symbol fixes the length *)

Lemma first_eos_app eos seq sy b :
  first_eos eos (seq ++ [sy]) b
  = match first_eos eos seq b with
    | Some k => Some k
    | None => if eos_at eos sy b then Some (length seq) else None
    end.
Proof.
  induction seq as [|s0 seq IH]; simpl.
  - destruct (eos_at eos sy b); reflexivity.
  - destruct (eos_at eos s0 b); [reflexivity|]. rewrite IH.
    destruct (first_eos eos seq b); simpl; [reflexivity|].
    destruct (eos_at eos sy b); reflexivity.
Qed.

Lemma first_eos_bound eos seq b k :
  first_eos eos seq b = Some k -> (k < length seq)%nat.
Proof.
  revert k; induction seq as [|s0 seq IH]; simpl; intros k H; [discriminate|].
  destruct (eos_at eos s0 b); [injection H as <-; lia|].
  destruct (first_eos eos seq b) as [k'|]; [|discriminate].
  injection H as <-. specialize (IH k' eq_refl). lia.
Qed.

(** The new length vector after one [decode] call that saw one symbol per
    entry. *)
Lemma decode_exact m step so sa st st' sy :
  decode m step so sa st = Ok (st', sy) ->
  force_max_len m = false ->
  length (concat sy) = length (lengths st) ->
  forall b,
    nth b (lengths st') 0%Z
    = if ((Z.of_nat step <? nth b (lengths st) 0)%Z && eos_at (eos_id m) sy b)%bool
      then Z.of_nat (S (length (sequence_symbols st)))
      else nth b (lengths st) 0%Z.
Proof.
  unfold decode. intros H Hf Hlen b.
  apply bind_ok in H. destruct H as (sy' & Hsy & H).
  apply bind_ok in H. destruct H as (lens & Hl & H).
  injection H as <- <-. simpl. rewrite Hf in Hl. simpl in Hl.
  apply bind_ok in Hl. destruct Hl as (mask & Hm & Hl).
  assert (Le : length (concat (map (map (Z.eqb (eos_id m))) sy'))
               = length (lengths st)).
  { rewrite <- concat_map, length_map. exact Hlen. }
  rewrite broadcast_and_same in Hm by (rewrite length_map; lia).
  injection Hm as <-.
  apply masked_assign_spec in Hl. destruct Hl as (_ & _ & HS).
  rewrite HS.
  pose proof (map_nth (fun '(x, y) => x && y)
                (combine (map (fun l => (Z.of_nat step <? l)%Z) (lengths st))
                         (concat (map (map (Z.eqb (eos_id m))) sy')))
                (false, false) b) as E.
  simpl in E. rewrite E. clear E.
  rewrite combine_nth by (rewrite length_map; lia).
  unfold eos_at.
  destruct (Nat.lt_ge_cases b (length (lengths st))) as [Hb|Hb].
  - rewrite (nth_map_lt (fun l => (Z.of_nat step <? l)%Z) (lengths st) b 0%Z false)
      by exact Hb.
    rewrite length_app. simpl.
    replace (length (sequence_symbols st) + 1)%nat
      with (S (length (sequence_symbols st))) by lia.
    reflexivity.
  - rewrite (nth_overflow (map _ (lengths st))) by (rewrite length_map; lia).
    rewrite (nth_overflow (lengths st)) by lia.
    replace (Z.of_nat step <? 0)%Z with false
      by (symmetry; apply Z.ltb_ge; lia).
    reflexivity.
Qed.

Lemma decode_run_prefix m i st j st' :
  decode_run m i st j st' ->
  exists rest, sequence_symbols st' = sequence_symbols st ++ rest.
Proof.
  induction 1 as [i st | i st so sa st1 sy j st2 Hd Hrun [rest IH]].
  - exists []. rewrite app_nil_r. reflexivity.
  - apply decode_inv in Hd. destruct Hd as (_ & Hs & _).
    exists (sy :: rest). rewrite IH, Hs, <- app_assoc. reflexivity.
Qed.

Lemma decode_run_first_eos m (M : Z) (B : nat) i st j st' :
  decode_run m i st j st' ->
  force_max_len m = false ->
  Forall (fun sy => length (concat sy) = B) (sequence_symbols st') ->
  length (lengths st) = B ->
  (forall k, (k < j)%nat -> (Z.of_nat k < M)%Z) ->
  length (sequence_symbols st) = i ->
  (forall b, (b < B)%nat ->
     nth b (lengths st) 0%Z
     = match first_eos (eos_id m) (sequence_symbols st) b with
       | Some k => (Z.of_nat k + 1)%Z
       | None => M
       end) ->
  forall b, (b < B)%nat ->
    nth b (lengths st') 0%Z
    = match first_eos (eos_id m) (sequence_symbols st') b with
      | Some k => (Z.of_nat k + 1)%Z
      | None => M
      end.
Proof.
  induction 1 as [i st | i st so sa st1 sy j st2 Hd Hrun IH];
    intros Hf Hshape HB HM Hi Hinv; [exact Hinv|].
  destruct (decode_run_prefix _ _ _ _ _ Hrun) as (rest & Erest).
  pose proof (decode_run_lengths _ _ _ _ _ Hrun) as (Hij & _).
  pose proof Hd as Hd'. apply decode_inv in Hd'.
  destruct Hd' as (_ & Hs & L1 & _ & _).
  assert (Hsy : length (concat sy) = B).
  { rewrite Erest, Hs in Hshape. apply Forall_app in Hshape.
    destruct Hshape as [Hshape _]. apply Forall_app in Hshape.
    destruct Hshape as [_ Hshape]. inversion Hshape; assumption. }
  apply IH; auto; try congruence.
  - rewrite Hs, length_app. simpl. lia.
  - intros b Hb.
    rewrite (decode_exact _ _ _ _ _ _ _ Hd Hf) by congruence.
    rewrite Hs, first_eos_app, (Hinv b Hb).
    destruct (first_eos (eos_id m) (sequence_symbols st) b) as [k|] eqn:Ek.
    + apply first_eos_bound in Ek.
      destruct (Z.ltb_spec (Z.of_nat i) (Z.of_nat k + 1)); [lia | reflexivity].
    + assert (HiM : (Z.of_nat i < M)%Z) by (apply HM; lia).
      destruct (Z.ltb_spec (Z.of_nat i) M); [|lia]. simpl.
      destruct (eos_at (eos_id m) sy b); [rewrite Hi; lia | reflexivity].
Qed.

Lemma validate_args_width m inputs eh eo tfr inp b M :
  _validate_args m inputs eh eo tfr = Ok (inp, b, M) ->
  (0 < size1 (map (@removelast Token) inp))%nat ->
  (Z.of_nat (size1 (map (@removelast Token) inp)) <= M)%Z.
Proof.
  unfold _validate_args. intros H Hw.
  apply bind_ok in H. destruct H as (_ & _ & H).
  apply bind_ok in H. destruct H as (b' & _ & H).
  destruct inputs as [i|].
  - injection H as <- _ <-. destruct i as [|r i]; simpl in *; [lia|].
    rewrite removelast_firstn_len, length_firstn in *. lia.
  - exfalso. destruct (Qlt_bool 0 tfr); [discriminate|].
    apply bind_ok in H. destruct H as (inp' & Hi & H). injection H as <- _ _.
    assert (Hrows : Forall (fun r : list Token => length r = 1%nat) inp').
    { destruct (negb (use_prob_vector m)).
      - injection Hi as <-. rewrite Forall_forall. intros r Hr.
        apply repeat_spec in Hr. subst r. reflexivity.
      - unfold one_hot_inputs in Hi. apply bind_ok in Hi.
        destruct Hi as (rows & _ & Hi). injection Hi as <-.
        rewrite Forall_forall. intros r Hr. apply in_map_iff in Hr.
        destruct Hr as (r0 & <- & _). reflexivity. }
    destruct inp' as [|r inp']; simpl in Hw; [lia|].
    inversion Hrows as [|? ? Hr _]; subst.
    destruct r as [|t [|t' r]]; simpl in *; try discriminate; lia.
Qed.

(** X11.  With [force_max_len] off, and one emitted symbol per entry of the
    length vector at every step, the returned length of batch element [b]
    is one more than the index of the first step at which [b] emitted the
    end-of-sequence symbol, and the decode length when it never did. *)
Theorem first_eos_fixes_length log m rnd inputs beamStates eh eo f tfr max_len
        semi_sup outs hid ret :
  force_max_len m = false ->
  snd (forward log m rnd inputs beamStates eh eo f tfr max_len semi_sup)
  = Ok (outs, hid, ret) ->
  Forall (fun sy => length (concat sy) = length (ret_length ret))
         (ret_sequence ret) ->
  exists inp b0 M,
    _validate_args (set_max_length m max_len) inputs eh eo tfr = Ok (inp, b0, M) /\
    forall b, (b < length (ret_length ret))%nat ->
      nth b (ret_length ret) 0%Z
      = match first_eos (eos_id m) (ret_sequence ret) b with
        | Some k => (Z.of_nat k + 1)%Z
        | None => M
        end.
Proof.
  intros Hf H Hshape.
  destruct (forward_inv _ _ _ _ _ _ _ _ _ _ _ _ H) as (inp & b0 & M & Hv & Hr).
  destruct (run_modes_decode_run _ _ _ _ _ _ _ _ _ _ _ _ _ Hr)
    as (bs & inds0 & n & st & _ & _ & Hrun & Eo & Es & El & _ & Hn).
  exists inp, b0, M. split; [exact Hv|].
  rewrite Es, El in *.
  pose proof (decode_run_lengths _ _ _ _ _ Hrun) as (_ & LB & _).
  intros b Hb.
  apply (decode_run_first_eos (set_max_length m max_len) M
           (length (lengths st)) 0 _ n st Hrun); auto.
  - intros k Hk.
    destruct Hn as [Hle | (_ & Hpos & Hle)]; [lia | lia |].
    pose proof (validate_args_width _ _ _ _ _ _ _ _ Hv) as Hw. lia.
  - intros b' Hb'. simpl. unfold init_lengths.
    rewrite LB in Hb'. simpl in Hb'. unfold init_lengths in Hb'.
    rewrite repeat_length in Hb'. apply nth_repeat_lt. exact Hb'.
Qed.

(** ** Shapes that do not match in [decode] *)

Lemma decode_unfold m step so sa st sy :
  topk1 so = Ok sy ->
  decode m step so sa st
  = (do lens <-
       (if negb (force_max_len m)
        then do mask <-
               broadcast_and (map (fun l => (Z.of_nat step <? l)%Z) (lengths st))
                             (concat (map (map (Z.eqb (eos_id m))) sy));
             masked_assign (lengths st) mask
                           (Z.of_nat (S (length (sequence_symbols st))))
        else Ok (lengths st));
     Ok ({| decoder_outputs := decoder_outputs st ++ [so];
            attention_score := if use_attention m
                               then attention_score st ++ [sa]
                               else attention_score st;
            sequence_symbols := sequence_symbols st ++ [sy];
            lengths := lens |}, sy)).
Proof.
  intros Hsy. unfold decode. rewrite Hsy. cbv beta iota delta [bind].
  rewrite length_app. simpl length. rewrite Nat.add_1_r. reflexivity.
Qed.

Lemma broadcast_and_single a y :
  broadcast_and a [y] = Ok (map (fun x => x && y) a).
Proof. destruct a as [|x [|x' a']]; reflexivity. Qed.

Lemma masked_assign_map arr (h : Z -> bool) v :
  masked_assign arr (map h arr) v
  = Ok (map (fun l => if h l then v else l) arr).
Proof.
  unfold masked_assign. rewrite length_map, Nat.eqb_refl. f_equal.
  induction arr as [|l ls IH]; simpl; [reflexivity|]. rewrite IH. reflexivity.
Qed.

(** X12.  Shapes in [decode].  With [force_max_len] off, a single emitted
    symbol is broadcast over the whole length vector: its end-of-sequence
    test finalises every entry still above the step index.  A length vector
    of one entry with two or more emitted symbols raises an IndexError, two
    sizes that differ and are both other than 1 raise the broadcasting
    ValueError.  With [force_max_len] on the shapes are never compared. *)
Theorem decode_shape_cases m step so sa st sy :
  topk1 so = Ok sy ->
  (force_max_len m = true ->
   exists st', decode m step so sa st = Ok (st', sy) /\ lengths st' = lengths st) /\
  (force_max_len m = false -> forall s, sy = [[s]] ->
   exists st', decode m step so sa st = Ok (st', sy) /\
     lengths st'
     = map (fun l => if ((Z.of_nat step <? l)%Z && (eos_id m =? s)%Z)%bool
                     then Z.of_nat (S (length (sequence_symbols st)))
                     else l) (lengths st)) /\
  (force_max_len m = false -> length (lengths st) = 1%nat ->
   (2 <= length (concat sy))%nat ->
   decode m step so sa st = Err (IndexError msg_bool_index)) /\
  (force_max_len m = false -> length (lengths st) <> 1%nat ->
   length (concat sy) <> 1%nat -> length (concat sy) <> length (lengths st) ->
   decode m step so sa st = Err (ValueError msg_broadcast)).
Proof.
  intros Hsy. rewrite (decode_unfold m step so sa st sy Hsy).
  split; [|split; [|split]].
  - intros Hf. rewrite Hf. simpl. eexists. split; reflexivity.
  - intros Hf s ->. rewrite Hf. simpl concat. simpl negb. cbv iota.
    rewrite broadcast_and_single. cbv beta iota delta [bind].
    rewrite map_map, masked_assign_map. eexists. split; reflexivity.
  - intros Hf L1 L2. rewrite Hf. simpl negb. cbv iota.
    set (e := concat (map (map (Z.eqb (eos_id m))) sy)).
    assert (Le : length e = length (concat sy))
      by (unfold e; rewrite <- concat_map; apply length_map).
    destruct (lengths st) as [|l [|l' ls]]; try discriminate.
    destruct e as [|y [|y' e']]; simpl in Le; try lia. reflexivity.
  - intros Hf N1 N2 N3. rewrite Hf. simpl negb. cbv iota.
    set (e := concat (map (map (Z.eqb (eos_id m))) sy)).
    assert (Le : length e = length (concat sy))
      by (unfold e; rewrite <- concat_map; apply length_map).
    unfold broadcast_and. rewrite length_map.
    destruct (Nat.eqb_spec (length (lengths st)) (length e)); [lia|].
    destruct e as [|y [|y' e']]; simpl in Le.
    + destruct (lengths st) as [|l [|l' ls]]; simpl in *; try lia; reflexivity.
    + lia.
    + destruct (lengths st) as [|l [|l' ls]]; simpl in *; try lia; reflexivity.
Qed.

(** ** More on the top-k selection *)

Lemma mapM_err {A B} (f : A -> Result B) l a e :
  In a l -> f a = Err e -> exists e', mapM f l = Err e'.
Proof.
  induction l as [|x l IH]; intros Hin Hf; [destruct Hin|]. simpl.
  destruct (f x) as [y|e0] eqn:Ex; simpl; [|eauto].
  destruct Hin as [->|Hin]; [congruence|].
  destruct (IH Hin Hf) as (e' & E). rewrite E. simpl. eauto.
Qed.

(** [getTopkIndsnScores] on a candidate tensor of shape (K, B, 1, V), with
    the flattening carried out. *)
Lemma getTopkIndsnScores_rows m cand K B V :
  cand_shaped cand K B V -> (0 < K)%nat -> (0 < B)%nat ->
  getTopkIndsnScores m cand
  = (do zzz <- mapM (topk_smallest (topk m))
                    (map (flat_candidates cand) (seq 0 B));
     Ok (map (map (fun i => (Z.of_nat (i / V), Z.of_nat (i mod V))))
             (transpose 0%nat (topk m) (map (map snd) zzz)),
         transpose 0%Q (topk m) (map (map fst) zzz))).
Proof.
  intros Hc HK HB.
  set (sliced := map (map (fun cb : list (list Q) => nth 0 cb [])) cand).
  assert (HlK : length cand = K) by (destruct Hc; assumption).
  assert (Hck : forall ck, In ck cand -> length ck = B).
  { intros ck Hin. destruct Hc as [_ Hc]. rewrite Forall_forall in Hc.
    apply Hc. exact Hin. }
  assert (Hsz : size1 sliced = B).
  { unfold sliced. destruct cand as [|ck cand']; [simpl in HlK; lia|].
    simpl. rewrite length_map. apply Hck. left. reflexivity. }
  set (tmp := transpose [] B sliced).
  assert (Htl : length tmp = B) by apply length_transpose.
  assert (HVs : size1 (hd [] tmp) = V).
  { rewrite hd_nth0. unfold tmp. rewrite nth_transpose_row by exact HB.
    unfold sliced. rewrite map_map.
    destruct cand as [|ck cand'] eqn:Ecand; [simpl in HlK; lia|].
    simpl. rewrite (nth_map_lt _ ck 0 []) by (rewrite (Hck ck); [lia | left; reflexivity]).
    apply (cand_shaped_row (ck :: cand') K B V 0 0); auto. }
  assert (Hflat : map (@concat Q) tmp = map (flat_candidates cand) (seq 0 B)).
  { unfold tmp, transpose. rewrite map_map. apply map_ext_in. intros j Hj.
    apply in_seq in Hj.
    rewrite <- (transposed_candidates cand K B V j Hc) by lia.
    rewrite nth_transpose_row by lia. reflexivity. }
  unfold getTopkIndsnScores.
  rewrite (slice_candidates cand K B V Hc). cbv beta iota zeta delta [bind].
  fold sliced. rewrite Hsz. fold tmp. rewrite Htl, HVs, Hflat.
  destruct (Nat.eqb_spec B 0) as [E|_]; [lia | reflexivity].
Qed.

(** X13.  With fewer candidates than [topk] - K hypotheses over V symbols
    with K*V < topk, as at a first step seeded with one hypothesis over a
    small vocabulary - the selection raises. *)
Theorem topk_needs_enough_candidates m cand K B V :
  cand_shaped cand K B V -> (0 < K)%nat -> (0 < B)%nat ->
  (K * V < topk m)%nat ->
  getTopkIndsnScores m cand = Err (RuntimeError msg_topk).
Proof.
  intros Hc HK HB Hlt.
  rewrite (getTopkIndsnScores_rows m cand K B V Hc HK HB).
  destruct B as [|B']; [lia|]. simpl seq. simpl map. simpl mapM.
  destruct (flat_candidates_rows cand K (S B') V 0 Hc) as [_ L]; [lia|].
  unfold topk_smallest at 1. rewrite L.
  destruct (Nat.leb_spec (topk m) (K * V)); [lia | reflexivity].
Qed.

Lemma sorted_nth_le (l : list (Q * nat)) :
  StronglySorted score_le l ->
  forall j j' d, (j <= j')%nat -> (j' < length l)%nat ->
    (fst (nth j l d) <= fst (nth j' l d))%Q.
Proof.
  induction 1 as [|a l Hs IH Ha]; intros j j' d Hjj Hj'; simpl in Hj'; [lia|].
  destruct j as [|j]; destruct j' as [|j']; simpl; try lia.
  - apply Qle_refl.
  - rewrite Forall_forall in Ha. apply (Ha (nth j' l d)). apply nth_In. lia.
  - apply IH; lia.
Qed.

(** X14.  The selected hypotheses come out in order of increasing score:
    for every batch element the score at position [j] is at most the score
    at any later position. *)
Theorem topk_scores_increasing m cand K B V :
  cand_shaped cand K B V -> (0 < K)%nat -> (0 < B)%nat ->
  (topk m <= K * V)%nat ->
  exists inds scores,
    getTopkIndsnScores m cand = Ok (inds, scores) /\
    forall b j j', (b < B)%nat -> (j <= j')%nat -> (j' < topk m)%nat ->
      (nth b (nth j scores []) 0 <= nth b (nth j' scores []) 0)%Q.
Proof.
  intros Hc HK HB Hk.
  rewrite (getTopkIndsnScores_rows m cand K B V Hc HK HB).
  set (g := fun row : list Q =>
              firstn (topk m) (sort_by_score (combine row (seq 0 (length row))))).
  set (flat := map (flat_candidates cand) (seq 0 B)).
  assert (Hfl : length flat = B) by (unfold flat; rewrite length_map, length_seq; reflexivity).
  assert (Hrow : forall b, (b < B)%nat -> nth b flat [] = flat_candidates cand b).
  { intros b Hb. unfold flat.
    rewrite (nth_map_lt (flat_candidates cand) (seq 0 B) b 0%nat)
      by (rewrite length_seq; exact Hb).
    rewrite seq_nth by exact Hb. reflexivity. }
  assert (Hz : mapM (topk_smallest (topk m)) flat = Ok (map g flat)).
  { apply mapM_total. intros row Hin.
    destruct (In_nth _ _ [] Hin) as (b & Hb & <-). rewrite Hfl in Hb.
    rewrite (Hrow b Hb).
    destruct (flat_candidates_rows cand K B V b Hc Hb) as [_ L].
    unfold topk_smallest. rewrite L.
    destruct (Nat.leb_spec (topk m) (K * V)); [|lia]. unfold g. rewrite L.
    reflexivity. }
  rewrite Hz. cbv beta iota delta [bind].
  eexists _, _. split; [reflexivity|].
  intros b j j' Hb Hjj Hj'.
  destruct (flat_candidates_rows cand K B V b Hc Hb) as [_ L].
  destruct (topk_smallest_spec (topk m) (flat_candidates cand b))
    as (sel & Es & Ls & _ & Hsorted & _); [lia|].
  assert (Eg : sel = g (flat_candidates cand b)).
  { unfold topk_smallest in Es.
    destruct (Nat.leb_spec (topk m) (length (flat_candidates cand b))); [|lia].
    injection Es as <-. reflexivity. }
  assert (Hsc : forall i, (i < topk m)%nat ->
            nth b (nth i (transpose 0%Q (topk m) (map (map fst) (map g flat))) []) 0%Q
            = fst (nth i sel (0%Q, 0%nat))).
  { intros i Hi. rewrite nth_transpose by (rewrite ?length_map; lia).
    rewrite (nth_map_lt (map fst) (map g flat) b []) by (rewrite length_map; lia).
    rewrite (nth_map_lt g flat b []) by lia.
    rewrite (Hrow b Hb), <- Eg.
    apply (nth_map_lt fst sel i (0%Q, 0%nat)). lia. }
  rewrite !Hsc by lia.
  apply sorted_nth_le; [exact Hsorted | exact Hjj | lia].
Qed.

(** ** The gather index of the beam branch *)

Lemma nth_chunk {A} (d : A) w : forall cnt (l : list A) b j,
  (b < cnt)%nat -> (j < w)%nat ->
  nth j (nth b (chunk cnt w l) []) d = nth (b * w + j) l d.
Proof.
  induction cnt as [|cnt IH]; intros l b j Hb Hj; [lia|]. simpl chunk.
  destruct b as [|b]; simpl nth.
  - rewrite nth_firstn.
    destruct (Nat.ltb_spec j w); [reflexivity | lia].
  - rewrite IH by lia. rewrite nth_skipn. f_equal. simpl. lia.
Qed.

(** X15.  The gather index built from the parent indices of a batch of [B]
    elements has [B] rows of 1024 entries, and entry [j] of row [b] is the
    parent of batch element [(b * 1024 + j) mod B]: the tiled copy of the
    parents is cut into rows without regard to the batch element.  When [B]
    divides 1024 every row is the same, entry [j] being the parent of batch
    element [j mod B]; only for a batch of one is it the parent of the
    row's own element throughout. *)
Theorem hidGathInds_tiles_parents parents (B : nat) :
  length parents = B -> (0 < B)%nat ->
  exists idx,
    hidGathInds parents B = Ok idx /\ length idx = B /\
    Forall (fun row => length row = gather_width) idx /\
    (forall b j, (b < B)%nat -> (j < gather_width)%nat ->
       nth j (nth b idx []) 0%Z
       = nth ((b * gather_width + j) mod B) parents 0%Z) /\
    (Nat.divide B gather_width ->
     forall b j, (b < B)%nat -> (j < gather_width)%nat ->
       nth j (nth b idx []) 0%Z = nth (j mod B) parents 0%Z) /\
    (B = 1%nat ->
     forall j, (j < gather_width)%nat ->
       nth j (nth 0 idx []) 0%Z = nth 0 parents 0%Z).
Proof.
  intros L HB.
  set (tiled := concat (repeat parents gather_width)).
  assert (Hrep : Forall (fun r : list Z => length r = B) (repeat parents gather_width)).
  { rewrite Forall_forall. intros r Hr. apply repeat_spec in Hr. subst r. exact L. }
  assert (Lt : length tiled = (gather_width * B)%nat).
  { unfold tiled. rewrite (length_concat_uniform B _ Hrep), repeat_length.
    reflexivity. }
  assert (Hn : forall i, (i < gather_width * B)%nat ->
             nth i tiled 0%Z = nth (i mod B) parents 0%Z).
  { intros i Hi. unfold tiled.
    rewrite (nth_concat_uniform 0%Z B _ Hrep) by (rewrite repeat_length; exact Hi).
    rewrite (nth_repeat_lt parents []); [reflexivity|].
    apply Nat.Div0.div_lt_upper_bound. lia. }
  exists (chunk B gather_width tiled).
  assert (Hent : forall b j, (b < B)%nat -> (j < gather_width)%nat ->
             nth j (nth b (chunk B gather_width tiled) []) 0%Z
             = nth ((b * gather_width + j) mod B) parents 0%Z).
  { intros b j Hb Hj. rewrite nth_chunk by assumption. apply Hn. nia. }
  split.
  { unfold hidGathInds. fold tiled. cbv zeta. rewrite Lt.
    destruct (Nat.eqb_spec B 0) as [E|_]; [lia|].
    rewrite Nat.Div0.mod_mul, Nat.div_mul by lia. reflexivity. }
  split; [apply length_chunk|].
  split; [apply chunk_widths; rewrite Lt; apply Nat.mul_comm|].
  split; [exact Hent|].
  split.
  - intros (q & Hq) b j Hb Hj. rewrite Hent by assumption. f_equal.
    rewrite Hq. replace (b * (q * B) + j)%nat with (j + (b * q) * B)%nat by lia.
    apply Nat.Div0.mod_add.
  - intros -> j Hj. rewrite Hent by (assumption || lia).
    rewrite Nat.mod_1_r. reflexivity.
Qed.

(** ** Inputs on which decoding cannot start *)

Lemma forward_step_empty m inp hid enc f pm r :
  (length inp * size1 inp = 0)%nat ->
  forward_step m inp hid enc f pm <> Ok r.
Proof.
  intros Hz H. unfold forward_step in H.
  apply bind_ok in H. destruct H as ([[lg h'] a] & _ & H).
  apply bind_ok in H. destruct H as (p & Hv & _).
  unfold view3 in Hv. rewrite Hz in Hv. discriminate.
Qed.

(** X17.  [forward_step] does not return on an empty batch or on inputs of
    width zero.  Hence [forward] returns nothing when teacher forcing fires
    on inputs of fewer than two columns, and nothing when, without teacher
    forcing, some input row is empty. *)
Theorem decoding_needs_nonempty_inputs log m rnd inp beamStates eh eo f tfr
        max_len semi_sup :
  (forall hid pm r, (length inp * size1 inp = 0)%nat ->
     forward_step m inp hid eo f pm <> Ok r) /\
  ((rnd < tfr)%Q -> (size1 inp <= 1)%nat ->
   forall r,
     snd (forward log m rnd (Some inp) beamStates eh eo f tfr max_len semi_sup)
     <> Ok r) /\
  (~ (rnd < tfr)%Q -> In [] inp ->
   forall r,
     snd (forward log m rnd (Some inp) beamStates eh eo f tfr max_len semi_sup)
     <> Ok r).
Proof.
  split; [|split].
  - intros hid pm r Hz. apply forward_step_empty. exact Hz.
  - intros Ht Hw [[outs hid] ret] H. apply Qlt_bool_iff in Ht.
    destruct (forward_inv _ _ _ _ _ _ _ _ _ _ _ _ H) as (inp' & b & M & Hv & Hr).
    assert (Einp : inp' = inp).
    { unfold _validate_args in Hv.
      apply bind_ok in Hv. destruct Hv as (_ & _ & Hv).
      apply bind_ok in Hv. destruct Hv as (b' & _ & Hv).
      injection Hv as <- _ _. reflexivity. }
    subst inp'.
    destruct (run_modes_inv _ _ _ _ _ _ _ _ _ _ _ _ _ Hr)
      as (bs & inds0 & c0 & dh & st & _ & _ & _ & _ & _ & _ & _ & _ & Hmode).
    cbv zeta in Hmode.
    destruct Hmode as [(_ & _ & p & hid' & attn & Hp & _)
                      | [(Ht' & _) | (Ht' & _)]]; try congruence.
    revert Hp. apply forward_step_empty.
    destruct inp as [|r0 inp0]; [reflexivity|]. simpl in *.
    rewrite removelast_firstn_len, length_firstn.
    replace (Nat.min (Nat.pred (length r0)) (length r0)) with 0%nat by lia.
    lia.
  - intros Hn Hin [[outs hid] ret] H.
    assert (Ht : Qlt_bool rnd tfr = false).
    { destruct (Qlt_bool rnd tfr) eqn:E; [|reflexivity].
      apply Qlt_bool_iff in E. contradiction. }
    destruct (forward_inv _ _ _ _ _ _ _ _ _ _ _ _ H) as (inp' & b & M & Hv & Hr).
    assert (Einp : inp' = inp).
    { unfold _validate_args in Hv.
      apply bind_ok in Hv. destruct Hv as (_ & _ & Hv).
      apply bind_ok in Hv. destruct Hv as (b' & _ & Hv).
      injection Hv as <- _ _. reflexivity. }
    subst inp'.
    destruct (run_modes_inv _ _ _ _ _ _ _ _ _ _ _ _ _ Hr)
      as (bs & inds0 & c0 & dh & st & _ & _ & _ & _ & _ & _ & _ & _ & Hmode).
    cbv zeta in Hmode.
    assert (Hfc : exists d, first_column inp = Ok d).
    { destruct Hmode as [(Ht' & _) | [(_ & _ & _ & Hd & _) | (_ & _ & _ & d & Hd & _)]];
        [congruence | exact Hd | eauto]. }
    destruct Hfc as (d & Hd). unfold first_column in Hd.
    destruct (mapM_err (fun r => do t <- nth_res 0 r; Ok [t]) inp []
                (IndexError msg_index) Hin eq_refl) as (e & He).
    congruence.
Qed.

(** * LinearModel *)

Lemma feat_hd3 sample C H W :
  feat_shaped3 sample C H W -> (0 < C)%nat ->
  length (hd [] sample) = H /\
  ((0 < H)%nat -> length (hd [] (hd [] sample)) = W).
Proof.
  intros [HC HF] Hpos. destruct sample as [|p sample]; simpl in HC; [lia|].
  inversion HF as [|? ? [Hp Hr] _]; subst. simpl. split; [reflexivity|].
  intros HH. destruct p as [|r p]; simpl in HH; [lia|].
  inversion Hr as [|? ? Lr0 _]. exact Lr0.
Qed.

Lemma conv_sample_shaped c s H W :
  feat_shaped3 (conv_sample c s H W) (out_channels c)
    (out_size H (fst (kernel_size c)) (fst (stride c)))
    (out_size W (snd (kernel_size c)) (snd (stride c))).
Proof.
  unfold conv_sample. split; [rewrite length_map, length_seq; reflexivity|].
  apply Forall_forall. intros p Hp. apply in_map_iff in Hp.
  destruct Hp as (o & <- & _).
  split; [rewrite length_map, length_seq; reflexivity|].
  apply Forall_forall. intros r Hr. apply in_map_iff in Hr.
  destruct Hr as (i & <- & _). rewrite length_map, length_seq. reflexivity.
Qed.

Lemma conv2d_ok c x N H W :
  feat_shaped4 x N (in_channels c) H W ->
  (0 < in_channels c)%nat -> (0 < H)%nat ->
  (fst (kernel_size c) <= H)%nat -> (snd (kernel_size c) <= W)%nat ->
  conv2d c x = Ok (map (fun s => conv_sample c s H W) x).
Proof.
  intros [_ HF] HC HH Hk1 Hk2. unfold conv2d. apply mapM_total.
  intros s Hs. rewrite Forall_forall in HF. specialize (HF s Hs).
  destruct (feat_hd3 _ _ _ _ HF HC) as [E1 E2]. specialize (E2 HH).
  destruct HF as [EC _]. rewrite EC, Nat.eqb_refl. cbn [negb].
  rewrite E1, E2.
  destruct (Nat.ltb_spec H (fst (kernel_size c))); [lia|].
  destruct (Nat.ltb_spec W (snd (kernel_size c))); [lia|].
  reflexivity.
Qed.

Lemma conv2d_err c x N C H W :
  feat_shaped4 x N C H W -> (0 < N)%nat ->
  (0 < in_channels c)%nat -> (0 < fst (kernel_size c))%nat ->
  (C <> in_channels c \/ (H < fst (kernel_size c))%nat
   \/ (W < snd (kernel_size c))%nat) ->
  exists e, conv2d c x = Err e.
Proof.
  intros [HN HF] Hpos HC Hk Hbad.
  destruct x as [|s x]; simpl in HN; [lia|].
  inversion HF as [|? ? Hs _]; subst.
  unfold conv2d. simpl.
  destruct (Nat.eqb_spec (length s) (in_channels c)) as [E|E]; cbn [negb];
    [|simpl; eauto].
  assert (EC : C = in_channels c) by (destruct Hs; congruence).
  assert (HC' : (0 < C)%nat) by lia.
  destruct (feat_hd3 _ _ _ _ Hs HC') as [E1 E2]. rewrite E1.
  destruct (Nat.ltb_spec H (fst (kernel_size c))) as [L|L]; [simpl; eauto|].
  rewrite E2 by lia.
  destruct (Nat.ltb_spec W (snd (kernel_size c))) as [L'|L']; [simpl; eauto|].
  exfalso. destruct Hbad as [?|[?|?]]; [congruence | lia | lia].
Qed.

Lemma pool_plane_shaped p k H W :
  length (pool_plane p k H W) = out_size H k k /\
  Forall (fun row => length row = out_size W k k) (pool_plane p k H W).
Proof.
  unfold pool_plane. split; [rewrite length_map, length_seq; reflexivity|].
  apply Forall_forall. intros r Hr. apply in_map_iff in Hr.
  destruct Hr as (i & <- & _). rewrite length_map, length_seq. reflexivity.
Qed.

Lemma avg_pool2d_ok x k N C H W :
  feat_shaped4 x N C H W -> (0 < H)%nat -> (k <= H)%nat -> (k <= W)%nat ->
  avg_pool2d x k = Ok (map (map (fun p => pool_plane p k H W)) x).
Proof.
  intros [_ HF] HH Hk1 Hk2. unfold avg_pool2d. apply mapM_total.
  intros s Hs. rewrite Forall_forall in HF. destruct (HF s Hs) as [_ HP].
  apply mapM_total. intros p Hp. rewrite Forall_forall in HP.
  destruct (HP p Hp) as [E1 Hr]. rewrite E1.
  assert (E2 : length (hd [] p) = W).
  { destruct p as [|r p]; simpl in E1; [lia|]. inversion Hr as [|? ? Lr0 _]. exact Lr0. }
  rewrite E2.
  destruct (Nat.ltb_spec H k); [lia|]. destruct (Nat.ltb_spec W k); [lia|].
  reflexivity.
Qed.

Lemma avg_pool2d_err x k N C H W :
  feat_shaped4 x N C H W -> (0 < N)%nat -> (0 < C)%nat -> (0 < k)%nat ->
  ((H < k)%nat \/ (W < k)%nat) ->
  exists e, avg_pool2d x k = Err e.
Proof.
  intros [HN HF] Hpos HC Hk Hbad.
  destruct x as [|s x]; simpl in HN; [lia|].
  inversion HF as [|? ? [Ls Hs] _]; subst.
  destruct s as [|p s]; simpl in HC; [lia|].
  inversion Hs as [|? ? [Lp Hr] _]; subst.
  unfold avg_pool2d. simpl.
  destruct (Nat.ltb_spec (length p) k) as [L|L]; [simpl; eauto|].
  assert (E2 : length (hd [] p) = W).
  { destruct p as [|r p]; simpl in L; [lia|]. inversion Hr as [|? ? Lr0 _]. exact Lr0. }
  rewrite E2.
  destruct (Nat.ltb_spec W k) as [L'|L']; [simpl; eauto|].
  exfalso. lia.
Qed.

Lemma squeeze_Dim_many ts :
  length ts <> 1%nat -> squeeze (Dim ts) = Dim (map squeeze ts).
Proof. destruct ts as [|a [|b ts]]; simpl; intros H; congruence. Qed.

Lemma squeeze_of_T1 r : length r <> 1%nat -> squeeze (of_T1 r) = of_T1 r.
Proof.
  intros H. unfold of_T1.
  rewrite squeeze_Dim_many by (rewrite length_map; exact H).
  rewrite map_map. reflexivity.
Qed.

Lemma squeeze_plane p a b :
  length p = a -> Forall (fun row => length row = b) p ->
  (a = 1%nat -> b = 1%nat ->
   squeeze (of_T2 p) = Scalar (nth 0 (nth 0 p []) 0%Q)) /\
  (~ (a = 1 /\ b = 1)%nat -> exists ts, squeeze (of_T2 p) = Dim ts).
Proof.
  intros La Hr. split.
  - intros -> ->. destruct p as [|r [|? ?]]; simpl in La; try lia.
    inversion Hr as [|? ? Lr _]; subst.
    destruct r as [|q [|? ?]]; simpl in Lr; try lia. reflexivity.
  - intros Hn. destruct (Nat.eq_dec a 1) as [->|Ha].
    + destruct p as [|r [|? ?]]; simpl in La; try lia.
      inversion Hr as [|? ? Lr _]; subst.
      unfold of_T2. simpl map. cbn [squeeze].
      change (squeeze (of_T1 r)) with (squeeze (of_T1 r)).
      rewrite squeeze_of_T1 by (intros E; apply Hn; auto). unfold of_T1. eauto.
    + unfold of_T2.
      rewrite squeeze_Dim_many by (rewrite length_map; lia). eauto.
Qed.

Lemma out_size_conv1_rows H :
  (34 <= H)%nat <-> (10 <= H /\ 7 <= out_size H 10 4)%nat.
Proof.
  unfold out_size. split.
  - intros L. split; [lia|].
    assert (6 <= (H - 10) / 4)%nat by (apply Nat.div_le_lower_bound; lia). lia.
  - intros [L1 L2].
    destruct (Nat.le_gt_cases 34 H) as [|G]; [assumption|].
    assert ((H - 10) / 4 < 6)%nat by (apply Nat.Div0.div_lt_upper_bound; lia).
    lia.
Qed.

Lemma out_size_conv1_cols W :
  (45 <= W)%nat <-> (9 <= W /\ 7 <= out_size W 9 6)%nat.
Proof.
  unfold out_size. split.
  - intros L. split; [lia|].
    assert (6 <= (W - 9) / 6)%nat by (apply Nat.div_le_lower_bound; lia). lia.
  - intros [L1 L2].
    destruct (Nat.le_gt_cases 45 W) as [|G]; [assumption|].
    assert ((W - 9) / 6 < 6)%nat by (apply Nat.Div0.div_lt_upper_bound; lia).
    lia.
Qed.

Lemma out_size_pool_one n : (7 <= n)%nat -> (out_size n 7 7 = 1 <-> n <= 13)%nat.
Proof.
  intros L. unfold out_size. split.
  - intros E. destruct (Nat.le_gt_cases n 13) as [|G]; [assumption|].
    assert (1 <= (n - 7) / 7)%nat by (apply Nat.div_le_lower_bound; lia). lia.
  - intros U. rewrite Nat.div_small by lia. reflexivity.
Qed.

Lemma out_size_conv1_rows_max H :
  (10 <= H)%nat -> (out_size H 10 4 <= 13 <-> H <= 61)%nat.
Proof.
  intros L. unfold out_size. split.
  - intros U. destruct (Nat.le_gt_cases H 61) as [|G]; [assumption|].
    assert (13 <= (H - 10) / 4)%nat by (apply Nat.div_le_lower_bound; lia). lia.
  - intros U.
    assert ((H - 10) / 4 < 13)%nat by (apply Nat.Div0.div_lt_upper_bound; lia).
    lia.
Qed.

Lemma out_size_conv1_cols_max W :
  (9 <= W)%nat -> (out_size W 9 6 <= 13 <-> W <= 86)%nat.
Proof.
  intros L. unfold out_size. split.
  - intros U. destruct (Nat.le_gt_cases W 86) as [|G]; [assumption|].
    assert (13 <= (W - 9) / 6)%nat by (apply Nat.div_le_lower_bound; lia). lia.
  - intros U.
    assert ((W - 9) / 6 < 13)%nat by (apply Nat.Div0.div_lt_upper_bound; lia).
    lia.
Qed.

Lemma out_size_unit n : (1 <= n)%nat -> out_size n 1 1 = n.
Proof. intros L. unfold out_size. rewrite Nat.div_1_r. lia. Qed.

Lemma squeeze_pooled ps C a b :
  feat_shaped3 ps C a b -> (1 < C)%nat ->
  (a = 1%nat -> b = 1%nat ->
   squeeze (of_T4 [ps]) = of_T1 (map (fun p => nth 0 (nth 0 p []) 0%Q) ps)) /\
  (~ (a = 1 /\ b = 1)%nat -> forall v, squeeze (of_T4 [ps]) <> of_T1 v).
Proof.
  intros [LC HF] HC.
  assert (E : squeeze (of_T4 [ps]) = Dim (map squeeze (map of_T2 ps))).
  { change (squeeze (of_T4 [ps])) with (squeeze (Dim (map of_T2 ps))).
    apply squeeze_Dim_many. rewrite length_map. lia. }
  rewrite E. rewrite Forall_forall in HF. split.
  - intros Ha Hb. unfold of_T1. f_equal. rewrite !map_map.
    apply map_ext_in. intros p Hp. destruct (HF p Hp) as [Lp Hr].
    apply (proj1 (squeeze_plane p a b Lp Hr) Ha Hb).
  - intros Hn v Hv. destruct ps as [|p ps]; simpl in LC; [lia|].
    destruct (HF p (or_introl eq_refl)) as [Lp Hr].
    destruct (proj2 (squeeze_plane p a b Lp Hr) Hn) as (ts & Ets).
    unfold of_T1 in Hv. cbn [map] in Hv. rewrite Ets in Hv.
    destruct v as [|q v]; cbn [map] in Hv; congruence.
Qed.

Lemma feat_shaped4_conv c x N H W :
  length x = N ->
  feat_shaped4 (map (fun s => conv_sample c s H W) x) N (out_channels c)
    (out_size H (fst (kernel_size c)) (fst (stride c)))
    (out_size W (snd (kernel_size c)) (snd (stride c))).
Proof.
  intros L. split; [rewrite length_map; exact L|].
  apply Forall_forall. intros s Hs. apply in_map_iff in Hs.
  destruct Hs as (s0 & <- & _). apply conv_sample_shaped.
Qed.

Lemma feat_shaped3_pool ps k C H W :
  length ps = C ->
  feat_shaped3 (map (fun p => pool_plane p k H W) ps) C
    (out_size H k k) (out_size W k k).
Proof.
  intros L. split; [rewrite length_map; exact L|].
  apply Forall_forall. intros p Hp. apply in_map_iff in Hp.
  destruct Hp as (p0 & <- & _). apply pool_plane_shaped.
Qed.

(** The value of [forward] on inputs of the sizes the layers accept. *)
Lemma linear_forward_ok w1 b1 w2 b2 gf bf H W N h w :
  feat_shaped3 gf 512 H W -> (34 <= H)%nat -> (45 <= W)%nat ->
  feat_shaped4 bf N 512 h w -> (1 <= h)%nat -> (1 <= w)%nat ->
  LinearModel_forward (LinearModel_init w1 b1 w2 b2) (gf, bf)
  = Ok ([conv_sample (conv1 (LinearModel_init w1 b1 w2 b2)) gf H W],
        squeeze (of_T4
          [map (fun p => pool_plane p 7 (out_size H 10 4) (out_size W 9 6))
               (conv_sample (conv1 (LinearModel_init w1 b1 w2 b2)) gf H W)]),
        map (fun s => conv_sample (conv2 (LinearModel_init w1 b1 w2 b2)) s h w)
            bf).
Proof.
  intros G HH HW Bx Hh Hw.
  set (lm := LinearModel_init w1 b1 w2 b2).
  destruct (proj1 (out_size_conv1_rows H) HH) as [H10 H7].
  destruct (proj1 (out_size_conv1_cols W) HW) as [W9 W7].
  unfold LinearModel_forward.
  rewrite (conv2d_ok (conv1 lm) [gf] 1 H W);
    [| split; [reflexivity | constructor; [exact G | constructor]]
     | simpl; lia | lia | exact H10 | exact W9].
  cbn [map]. cbv beta iota delta [bind].
  rewrite (avg_pool2d_ok _ 7 1 1024 (out_size H 10 4) (out_size W 9 6));
    [| split; [reflexivity
              | constructor; [exact (conv_sample_shaped (conv1 lm) gf H W)
                             | constructor]]
     | lia | exact H7 | exact W7].
  cbn [map]. cbv beta iota delta [bind].
  rewrite (conv2d_ok (conv2 lm) bf N h w);
    [reflexivity | exact Bx | simpl; lia | lia | exact Hh | exact Hw].
Qed.

Lemma feat_shaped3_repeat (q : Q) C H W :
  feat_shaped3 (repeat (repeat (repeat q W) H) C) C H W.
Proof.
  split; [apply repeat_length|].
  apply Forall_forall. intros p Hp. apply repeat_spec in Hp. subst p.
  split; [apply repeat_length|].
  apply Forall_forall. intros r Hr. apply repeat_spec in Hr. subst r.
  apply repeat_length.
Qed.

Lemma feat_shaped4_repeat (q : Q) N C H W :
  feat_shaped4 (repeat (repeat (repeat (repeat q W) H) C) N) N C H W.
Proof.
  split; [apply repeat_length|].
  apply Forall_forall. intros s Hs. apply repeat_spec in Hs. subst s.
  apply feat_shaped3_repeat.
Qed.

(** X18.  With a global feature map of shape (C, H, W) and at least one box
    of features (c, h, w), [LinearModel.forward] returns exactly when both
    inputs have 512 channels, the global map is at least 34 x 45 (so that
    the 7 x 7 pooling of the strided convolution has a window to average)
    and the box features are not empty. *)
Theorem linear_model_accepts w1 b1 w2 b2 gf bf C H W N c h w :
  feat_shaped3 gf C H W -> feat_shaped4 bf N c h w -> (0 < N)%nat ->
  ((exists r, LinearModel_forward (LinearModel_init w1 b1 w2 b2) (gf, bf) = Ok r)
   <-> C = 512%nat /\ (34 <= H)%nat /\ (45 <= W)%nat /\
       c = 512%nat /\ (1 <= h)%nat /\ (1 <= w)%nat).
Proof.
  intros G Bx HN. split.
  - intros (r & Hr). unfold LinearModel_forward in Hr.
    apply bind_ok in Hr. destruct Hr as (gf' & Hc1 & Hr).
    apply bind_ok in Hr. destruct Hr as (pooled & Hp & Hr).
    apply bind_ok in Hr. destruct Hr as (bf' & Hc2 & _).
    assert (G4 : feat_shaped4 [gf] 1 C H W)
      by (split; [reflexivity | constructor; [exact G | constructor]]).
    assert (A1 : C = 512%nat /\ (10 <= H)%nat /\ (9 <= W)%nat).
    { destruct (Nat.eq_dec C 512) as [EC|NC];
        [destruct (Nat.le_gt_cases 10 H) as [LH|GH];
         [destruct (Nat.le_gt_cases 9 W) as [LW|GW]; [auto|]|]|].
      - destruct (conv2d_err (conv1 (LinearModel_init w1 b1 w2 b2)) [gf] 1 C H W G4)
          as (e & He); [lia | simpl; lia | simpl; lia | right; right; exact GW|].
        congruence.
      - destruct (conv2d_err (conv1 (LinearModel_init w1 b1 w2 b2)) [gf] 1 C H W G4)
          as (e & He); [lia | simpl; lia | simpl; lia | right; left; exact GH|].
        congruence.
      - destruct (conv2d_err (conv1 (LinearModel_init w1 b1 w2 b2)) [gf] 1 C H W G4)
          as (e & He); [lia | simpl; lia | simpl; lia | left; exact NC|].
        congruence. }
    destruct A1 as (-> & H10 & W9).
    rewrite (conv2d_ok (conv1 (LinearModel_init w1 b1 w2 b2)) [gf] 1 H W) in Hc1;
      [| exact G4 | simpl; lia | lia | exact H10 | exact W9].
    injection Hc1 as <-. cbn [map] in Hp.
    assert (P4 : feat_shaped4
                   [conv_sample (conv1 (LinearModel_init w1 b1 w2 b2)) gf H W]
                   1 1024 (out_size H 10 4) (out_size W 9 6)).
    { split; [reflexivity|].
      constructor; [exact (conv_sample_shaped _ gf H W) | constructor]. }
    assert (A2 : (7 <= out_size H 10 4)%nat /\ (7 <= out_size W 9 6)%nat).
    { destruct (Nat.le_gt_cases 7 (out_size H 10 4)) as [L1|G1];
        [destruct (Nat.le_gt_cases 7 (out_size W 9 6)) as [L2|G2]; [auto|]|].
      - destruct (avg_pool2d_err _ 7 1 1024 _ _ P4) as (e & He);
          [lia | lia | lia | right; exact G2|].
        assert (X : Ok pooled = Err e) by (rewrite <- Hp; exact He).
        discriminate X.
      - destruct (avg_pool2d_err _ 7 1 1024 _ _ P4) as (e & He);
          [lia | lia | lia | left; exact G1|].
        assert (X : Ok pooled = Err e) by (rewrite <- Hp; exact He).
        discriminate X. }
    destruct A2 as [H7 W7].
    assert (A3 : c = 512%nat /\ (1 <= h)%nat /\ (1 <= w)%nat).
    { destruct (Nat.eq_dec c 512) as [Ec|Nc];
        [destruct (Nat.le_gt_cases 1 h) as [Lh|Gh];
         [destruct (Nat.le_gt_cases 1 w) as [Lw|Gw]; [auto|]|]|].
      - destruct (conv2d_err (conv2 (LinearModel_init w1 b1 w2 b2)) bf N c h w Bx)
          as (e & He); [lia | simpl; lia | simpl; lia | right; right; exact Gw|].
        congruence.
      - destruct (conv2d_err (conv2 (LinearModel_init w1 b1 w2 b2)) bf N c h w Bx)
          as (e & He); [lia | simpl; lia | simpl; lia | right; left; exact Gh|].
        congruence.
      - destruct (conv2d_err (conv2 (LinearModel_init w1 b1 w2 b2)) bf N c h w Bx)
          as (e & He); [lia | simpl; lia | simpl; lia | left; exact Nc|].
        congruence. }
    destruct A3 as (Ec & Lh & Lw).
    repeat split; try assumption.
    + apply out_size_conv1_rows. split; assumption.
    + apply out_size_conv1_cols. split; assumption.
  - intros (-> & HH & HW & -> & Hh & Hw).
    rewrite (linear_forward_ok w1 b1 w2 b2 gf bf H W N h w G HH HW Bx Hh Hw).
    eauto.
Qed.

(** X19.  On accepted inputs the first result has shape
    (1, 1024, (H-10)/4+1, (W-9)/6+1), the third keeps the batch and the
    spatial size of the box features with 1024 channels, and the second,
    the squeezed pooling, is a plain vector of 1024 entries exactly when the
    global map is at most 61 x 86; a larger map leaves it with more than one
    dimension. *)
Theorem linear_model_shapes w1 b1 w2 b2 gf bf H W N h w :
  feat_shaped3 gf 512 H W -> (34 <= H)%nat -> (45 <= W)%nat ->
  feat_shaped4 bf N 512 h w -> (1 <= h)%nat -> (1 <= w)%nat ->
  exists global_feat global_hidden box_feat,
    LinearModel_forward (LinearModel_init w1 b1 w2 b2) (gf, bf)
    = Ok (global_feat, global_hidden, box_feat) /\
    feat_shaped4 global_feat 1 1024 ((H - 10) / 4 + 1) ((W - 9) / 6 + 1) /\
    feat_shaped4 box_feat N 1024 h w /\
    ((exists v, global_hidden = of_T1 v /\ length v = 1024%nat)
     <-> (H <= 61)%nat /\ (W <= 86)%nat).
Proof.
  intros G HH HW Bx Hh Hw.
  destruct (proj1 (out_size_conv1_rows H) HH) as [H10 H7].
  destruct (proj1 (out_size_conv1_cols W) HW) as [W9 W7].
  eexists _, _, _. split;
    [exact (linear_forward_ok w1 b1 w2 b2 gf bf H W N h w G HH HW Bx Hh Hw)|].
  set (lm := LinearModel_init w1 b1 w2 b2).
  split; [|split].
  - split; [reflexivity|].
    constructor; [exact (conv_sample_shaped (conv1 lm) gf H W) | constructor].
  - pose proof (feat_shaped4_conv (conv2 lm) bf N h w (proj1 Bx)) as S.
    change (out_channels (conv2 lm)) with 1024%nat in S.
    change (fst (kernel_size (conv2 lm))) with 1%nat in S.
    change (snd (kernel_size (conv2 lm))) with 1%nat in S.
    change (fst (stride (conv2 lm))) with 1%nat in S.
    change (snd (stride (conv2 lm))) with 1%nat in S.
    rewrite !out_size_unit in S by assumption. exact S.
  - pose proof (feat_shaped3_pool (conv_sample (conv1 lm) gf H W) 7 1024
                  (out_size H 10 4) (out_size W 9 6)
                  (proj1 (conv_sample_shaped (conv1 lm) gf H W))) as SP.
    destruct (squeeze_pooled _ _ _ _ SP ltac:(lia)) as [Vec NoVec].
    split.
    + intros (v & Ev & _).
      destruct (Nat.eq_dec (out_size (out_size H 10 4) 7 7) 1) as [Ea|Na];
        [destruct (Nat.eq_dec (out_size (out_size W 9 6) 7 7) 1) as [Eb|Nb]|].
      * split.
        -- apply out_size_conv1_rows_max; [exact H10|].
           apply out_size_pool_one; assumption.
        -- apply out_size_conv1_cols_max; [exact W9|].
           apply out_size_pool_one; assumption.
      * exfalso. apply (NoVec ltac:(intros [_ ?]; contradiction) v Ev).
      * exfalso. apply (NoVec ltac:(intros [? _]; contradiction) v Ev).
    + intros [UH UW].
      assert (Ea : out_size (out_size H 10 4) 7 7 = 1%nat).
      { apply out_size_pool_one; [exact H7|].
        apply out_size_conv1_rows_max; assumption. }
      assert (Eb : out_size (out_size W 9 6) 7 7 = 1%nat).
      { apply out_size_pool_one; [exact W7|].
        apply out_size_conv1_cols_max; assumption. }
      eexists. split; [exact (Vec Ea Eb)|].
      rewrite !length_map. exact (proj1 (conv_sample_shaped (conv1 lm) gf H W)).
Qed.

Lemma sumQ_ext {A} (f g : A -> Q) l :
  (forall a, In a l -> f a == g a) -> sumQ (map f l) == sumQ (map g l).
Proof.
  induction l as [|x l IH]; intros Hfg; simpl; [reflexivity|].
  rewrite (Hfg x) by (left; reflexivity).
  rewrite IH by (intros a Ha; apply Hfg; right; exact Ha). reflexivity.
Qed.

Lemma conv_entry_1x1 c s o i j :
  kernel_size c = (1, 1)%nat -> stride c = (1, 1)%nat ->
  conv_entry c s o i j ==
  nth o (bias c) 0 +
  sumQ (map (fun ch =>
               nth 0 (nth 0 (nth ch (nth o (weight c) []) []) []) 0 *
               nth j (nth i (nth ch s []) []) 0)
            (seq 0 (in_channels c))).
Proof.
  intros Hk Hs. unfold conv_entry. rewrite Hk, Hs. cbn [fst snd].
  apply Qplus_comp; [reflexivity|].
  apply sumQ_ext. intros ch _. cbn [seq map sumQ fold_right].
  rewrite !Nat.mul_1_r, !Nat.add_0_r. rewrite !Qplus_0_r. reflexivity.
Qed.

Lemma conv_sample_entry c s H W o i j :
  (o < out_channels c)%nat ->
  (i < out_size H (fst (kernel_size c)) (fst (stride c)))%nat ->
  (j < out_size W (snd (kernel_size c)) (snd (stride c)))%nat ->
  nth j (nth i (nth o (conv_sample c s H W) []) []) 0%Q = conv_entry c s o i j.
Proof.
  intros Ho Hi Hj. unfold conv_sample.
  rewrite (nth_map_lt _ (seq 0 (out_channels c)) o 0%nat [])
    by (rewrite length_seq; exact Ho).
  rewrite (nth_map_lt _ (seq 0 _) i 0%nat []) by (rewrite length_seq; exact Hi).
  rewrite (nth_map_lt _ (seq 0 _) j 0%nat 0%Q) by (rewrite length_seq; exact Hj).
  rewrite !seq_nth by assumption. reflexivity.
Qed.

Lemma pool_plane_corner p k H W :
  nth 0 (nth 0 (pool_plane p k H W) []) 0%Q
  = (window_sum p k 0 0 / inject_Z (Z.of_nat (k * k)))%Q.
Proof.
  unfold pool_plane, out_size. rewrite !Nat.add_1_r. reflexivity.
Qed.

(** X20.  The box features go through a 1 x 1 convolution: every entry of
    the third result is the bias of its output channel plus the weighted sum
    of the 512 input channels at the same box and the same position; no
    other position and no other box enters it. *)
Theorem box_features_pointwise w1 b1 w2 b2 gf bf H W N h w :
  feat_shaped3 gf 512 H W -> (34 <= H)%nat -> (45 <= W)%nat ->
  feat_shaped4 bf N 512 h w -> (1 <= h)%nat -> (1 <= w)%nat ->
  exists global_feat global_hidden box_feat,
    LinearModel_forward (LinearModel_init w1 b1 w2 b2) (gf, bf)
    = Ok (global_feat, global_hidden, box_feat) /\
    forall n o i j,
      (n < N)%nat -> (o < 1024)%nat -> (i < h)%nat -> (j < w)%nat ->
      nth j (nth i (nth o (nth n box_feat []) []) []) 0
      == nth o b2 0 +
         sumQ (map (fun ch =>
                      nth 0 (nth 0 (nth ch (nth o w2 []) []) []) 0 *
                      nth j (nth i (nth ch (nth n bf []) []) []) 0)
                   (seq 0 512)).
Proof.
  intros G HH HW Bx Hh Hw.
  eexists _, _, _. split;
    [exact (linear_forward_ok w1 b1 w2 b2 gf bf H W N h w G HH HW Bx Hh Hw)|].
  intros n o i j Hn Ho Hi Hj.
  set (c2 := conv2 (LinearModel_init w1 b1 w2 b2)).
  rewrite (nth_map_lt (fun s => conv_sample c2 s h w) bf n [] [])
    by (rewrite (proj1 Bx); exact Hn).
  rewrite (conv_sample_entry c2 (nth n bf []) h w o i j);
    [| exact Ho
     | change (i < out_size h 1 1)%nat; rewrite out_size_unit by exact Hh;
       exact Hi
     | change (j < out_size w 1 1)%nat; rewrite out_size_unit by exact Hw;
       exact Hj].
  exact (conv_entry_1x1 c2 (nth n bf []) o i j eq_refl eq_refl).
Qed.

(** X21.  For a global map of at most 61 x 86 the second result is the
    vector whose entry [o] is the mean of the 7 x 7 top-left corner of
    channel [o] of the first result: rows and columns of the convolved map
    beyond the seventh, which exist from 38 x 51 on, do not enter it. *)
Theorem global_hidden_corner_mean w1 b1 w2 b2 gf bf H W N h w :
  feat_shaped3 gf 512 H W -> (34 <= H <= 61)%nat -> (45 <= W <= 86)%nat ->
  feat_shaped4 bf N 512 h w -> (1 <= h)%nat -> (1 <= w)%nat ->
  exists global_feat v box_feat,
    LinearModel_forward (LinearModel_init w1 b1 w2 b2) (gf, bf)
    = Ok (global_feat, of_T1 v, box_feat) /\
    length v = 1024%nat /\
    forall o, (o < 1024)%nat ->
      nth o v 0%Q
      = (window_sum (nth o (nth 0 global_feat []) []) 7 0 0 / inject_Z 49)%Q.
Proof.
  intros G [HH UH] [HW UW] Bx Hh Hw.
  destruct (proj1 (out_size_conv1_rows H) HH) as [H10 H7].
  destruct (proj1 (out_size_conv1_cols W) HW) as [W9 W7].
  set (c1 := conv1 (LinearModel_init w1 b1 w2 b2)).
  pose proof (conv_sample_shaped c1 gf H W) as SC.
  pose proof (feat_shaped3_pool (conv_sample c1 gf H W) 7 1024
                (out_size H 10 4) (out_size W 9 6) (proj1 SC)) as SP.
  destruct (squeeze_pooled _ _ _ _ SP ltac:(lia)) as [Vec _].
  assert (Ea : out_size (out_size H 10 4) 7 7 = 1%nat).
  { apply out_size_pool_one; [exact H7|].
    apply out_size_conv1_rows_max; assumption. }
  assert (Eb : out_size (out_size W 9 6) 7 7 = 1%nat).
  { apply out_size_pool_one; [exact W7|].
    apply out_size_conv1_cols_max; assumption. }
  eexists _, _, _. split; [|split].
  - rewrite (linear_forward_ok w1 b1 w2 b2 gf bf H W N h w G HH HW Bx Hh Hw).
    fold c1. rewrite (Vec Ea Eb). reflexivity.
  - rewrite !length_map. exact (proj1 SC).
  - intros o Ho.
    rewrite (nth_map_lt (fun p : T2 => nth 0 (nth 0 p []) 0%Q) _ o [] 0%Q)
      by (rewrite length_map, (proj1 SC); exact Ho).
    rewrite (nth_map_lt (fun p => pool_plane p 7 (out_size H 10 4)
                                             (out_size W 9 6)) _ o [] [])
      by (rewrite (proj1 SC); exact Ho).
    rewrite pool_plane_corner. reflexivity.
Qed.

(** * The further properties on concrete inputs *)

Lemma cat_directions_pairs_layers_witness :
  exists h',
    _cat_directions toy_bidirectional [[[1%Q]; [2%Q]]; [[3%Q]; [4%Q]]] = Ok h' /\
    length h' = 1%nat /\
    Forall (fun layer => length layer = 2%nat) h' /\
    forall i r, (i < 1)%nat -> (r < 2)%nat ->
      nth r (nth i h' []) []
      = nth r (nth (2 * i)%nat [[[1%Q]; [2%Q]]; [[3%Q]; [4%Q]]] []) [] ++
        nth r (nth (2 * i + 1)%nat [[[1%Q]; [2%Q]]; [[3%Q]; [4%Q]]] []) [].
Proof.
  apply (proj1 (proj2 (cat_directions_pairs_layers toy_bidirectional
                         [[[1%Q]; [2%Q]]; [[3%Q]; [4%Q]]] 1 2))).
  - reflexivity.
  - reflexivity.
  - repeat constructor.
Defined.

Lemma validate_args_default_inputs_witness :
  _validate_args (toy_model false false false) None None None 0
  = Ok ([[Tok 2]], 1%nat, 7%Z).
Proof.
  apply (proj1 (validate_args_default_inputs (toy_model false false false)
                  None None 0 I (fun H => False_ind _ (diff_false_true H))
                  (fun H => match H with
                            | or_introl (conj A _) => diff_false_true A
                            | or_intror (conj _ B) => Qlt_irrefl 0 B
                            end))).
Defined.

Lemma validate_args_check_order_witness :
  _validate_args (toy_model false false false) (Some toy_inputs) None None 1
  = Ok (toy_inputs, 2%nat, 2%Z).
Proof.
  apply (proj2 (proj2 (validate_args_check_order (toy_model false false false)
                         None None None 1))).
  intros [H _]. discriminate H.
Defined.

Lemma teacher_forcing_overrides_beam_mode_witness :
  snd (forward toy_log (set_flags (toy_model false false false) 7 true) 0
               (Some toy_inputs) (Some toy_beam_states2) None None toy_function
               1 15 false)
  = snd (forward toy_log (set_flags (toy_model false false false) 7 false) 0
                 (Some toy_inputs) (Some toy_beam_states2) None None toy_function
                 1 15 false).
Proof.
  apply (teacher_forcing_overrides_beam_mode toy_log (toy_model false false false)
           0 (Some toy_inputs) (Some toy_beam_states2) None None toy_function 1
           15 false).
  reflexivity.
Defined.

Lemma forward_reads_of_inputs_witness :
  snd (forward toy_log (toy_model false false false) 0 (Some toy_inputs)
               (Some toy_beam_states2) None None toy_function 0 15 false)
  = snd (forward toy_log (toy_model false false false) 0
                 (Some [ [Tok 2; Tok 0; Tok 0]; [Tok 2; Tok 1; Tok 1] ]%Z)
                 (Some toy_beam_states2) None None toy_function 0 15 false).
Proof.
  apply (proj1 (forward_reads_of_inputs toy_log (toy_model false false false) 0
                  toy_inputs [ [Tok 2; Tok 0; Tok 0]; [Tok 2; Tok 1; Tok 1] ]%Z
                  (Some toy_beam_states2) None None toy_function 0 15 false
                  eq_refl)).
  - intros H. discriminate H.
  - reflexivity.
Defined.

Lemma beam_mode_result_witness :
  exists outs hid ret,
    snd (forward toy_log (toy_model true false false) 0 None
                 (Some toy_beam_states) None None toy_function 0 2 false)
    = Ok (outs, hid, ret) /\
    outs = [] /\ ret_sequence ret = [] /\
    length (lm_hiddens (ret_beamStates ret)) = 3%nat.
Proof.
  destruct (snd (forward toy_log (toy_model true false false) 0 None
                         (Some toy_beam_states) None None toy_function 0 2 false))
    as [[[outs hid] ret]|e] eqn:E; [|vm_compute in E; discriminate E].
  exists outs, hid, ret. split; [reflexivity|].
  destruct (beam_mode_result toy_log (toy_model true false false) 0 None
              (Some toy_beam_states) None None toy_function 0 2 false outs hid
              ret eq_refl (fun H => Qlt_irrefl 0 H) E)
    as (inp & b & M & bs & inds0 & c0 & Hv & _ & _ & _ & Ho & Hs & _ & _ & _
        & Lh & _).
  injection Hv as _ _ <-. auto.
Defined.

Lemma beam_mode_needs_bundle_entries_witness :
  exists e,
    snd (forward toy_log (toy_model true false false) 0 None
                 (Some toy_beam_states) None None toy_function 0 5 false)
    = Err e.
Proof.
  apply (beam_mode_needs_bundle_entries toy_log (toy_model true false false) 0
           None toy_beam_states None None toy_function 0 5 false
           [[Tok 2]] 1 5).
  - reflexivity.
  - intros H. discriminate H.
  - reflexivity.
  - left. simpl. lia.
Defined.

Lemma placeholder_beam_trace_witness :
  exists outs hid ret,
    snd (forward toy_log (toy_model false false false) 0 None
                 (Some toy_beam_states) None None toy_function 0 4 false)
    = Ok (outs, hid, ret) /\
    ret_beamStates ret = toy_lm0.
Proof.
  destruct (snd (forward toy_log (toy_model false false false) 0 None
                         (Some toy_beam_states) None None toy_function 0 4 false))
    as [[[outs hid] ret]|e] eqn:E; [|vm_compute in E; discriminate E].
  exists outs, hid, ret. split; [reflexivity|].
  destruct (placeholder_beam_trace toy_log (toy_model false false false) 0 None
              (Some toy_beam_states) None None toy_function 0 4 false outs hid
              ret (or_intror eq_refl) E)
    as (bs & c0 & Hb & Hc & Hr).
  injection Hb as <-. injection Hc as <-. exact Hr.
Defined.

Lemma symbols_are_argmax_witness :
  exists outs hid ret,
    snd (forward toy_log (toy_model false false false) 0 None
                 (Some toy_beam_states) None None toy_function 0 4 false)
    = Ok (outs, hid, ret) /\
    length (ret_sequence ret) = length outs.
Proof.
  destruct (snd (forward toy_log (toy_model false false false) 0 None
                         (Some toy_beam_states) None None toy_function 0 4 false))
    as [[[outs hid] ret]|e] eqn:E; [|vm_compute in E; discriminate E].
  exists outs, hid, ret. split; [reflexivity|].
  exact (proj1 (symbols_are_argmax toy_log (toy_model false false false) 0 None
                  (Some toy_beam_states) None None toy_function 0 4 false outs
                  hid ret E)).
Defined.

Lemma first_eos_fixes_length_witness :
  exists outs hid ret,
    snd (forward toy_log (toy_model false false false) 0 None
                 (Some toy_beam_states) None None toy_function 0 4 false)
    = Ok (outs, hid, ret) /\
    forall b, (b < length (ret_length ret))%nat ->
      nth b (ret_length ret) 0%Z
      = match first_eos 0 (ret_sequence ret) b with
        | Some k => (Z.of_nat k + 1)%Z
        | None => 4%Z
        end.
Proof.
  destruct (snd (forward toy_log (toy_model false false false) 0 None
                         (Some toy_beam_states) None None toy_function 0 4 false))
    as [[[outs hid] ret]|e] eqn:E; [|vm_compute in E; discriminate E].
  exists outs, hid, ret. split; [reflexivity|].
  assert (F : Forall (fun sy => length (concat sy) = length (ret_length ret))
                     (ret_sequence ret)).
  { pose proof E as E'. vm_compute in E'. injection E' as _ _ <-.
    repeat constructor. }
  destruct (first_eos_fixes_length toy_log (toy_model false false false) 0 None
              (Some toy_beam_states) None None toy_function 0 4 false outs hid
              ret eq_refl E F)
    as (inp & b0 & M & Hv & Hl).
  injection Hv as _ _ <-. exact Hl.
Defined.

Lemma decode_shape_cases_witness :
  exists st',
    decode (toy_model false false false) 0 [[2%Q; 1%Q; 1 # 2]] None
           (init_decode_state 4 3)
    = Ok (st', [[0%Z]]) /\
    lengths st'
    = map (fun l => if ((Z.of_nat 0 <? l)%Z && (0 =? 0)%Z)%bool
                    then Z.of_nat 1 else l)
          (lengths (init_decode_state 4 3)).
Proof.
  apply (proj1 (proj2 (decode_shape_cases (toy_model false false false) 0
                         [[2%Q; 1%Q; 1 # 2]] None (init_decode_state 4 3)
                         [[0%Z]] eq_refl)) eq_refl 0%Z eq_refl).
Defined.

Lemma topk_needs_enough_candidates_witness :
  getTopkIndsnScores (toy_model true false false) [[[[1%Q]]]]
  = Err (RuntimeError msg_topk).
Proof.
  apply (topk_needs_enough_candidates (toy_model true false false) [[[[1%Q]]]]
           1 1 1).
  - repeat constructor.
  - lia.
  - lia.
  - simpl. lia.
Defined.

Lemma topk_scores_increasing_witness :
  exists inds scores,
    getTopkIndsnScores (toy_model true false false) toy_cand = Ok (inds, scores) /\
    forall b j j', (b < 1)%nat -> (j <= j')%nat -> (j' < 2)%nat ->
      (nth b (nth j scores []) 0 <= nth b (nth j' scores []) 0)%Q.
Proof.
  apply (topk_scores_increasing (toy_model true false false) toy_cand 2 1 3).
  - repeat constructor.
  - lia.
  - lia.
  - simpl. lia.
Defined.

Lemma hidGathInds_tiles_parents_witness :
  exists idx,
    hidGathInds [0%Z; 1%Z] 2 = Ok idx /\ length idx = 2%nat /\
    forall b j, (b < 2)%nat -> (j < gather_width)%nat ->
      nth j (nth b idx []) 0%Z = nth (j mod 2) [0%Z; 1%Z] 0%Z.
Proof.
  destruct (hidGathInds_tiles_parents [0%Z; 1%Z] 2 eq_refl ltac:(lia))
    as (idx & E & L & _ & _ & D & _).
  exists idx. split; [exact E|]. split; [exact L|].
  apply D. exists 512%nat. reflexivity.
Defined.

Lemma decoding_needs_nonempty_inputs_witness :
  (0 < 1)%Q /\ (size1 [[Tok 2]] <= 1)%nat /\
  forall r,
    snd (forward toy_log (toy_model false false false) 0 (Some [[Tok 2]])
                 (Some toy_beam_states) None None toy_function 1 15 false)
    <> Ok r.
Proof.
  assert (H1 : (0 < 1)%Q) by reflexivity.
  assert (H2 : (size1 [[Tok 2]] <= 1)%nat) by (simpl; lia).
  split; [exact H1|]. split; [exact H2|].
  exact (proj1 (proj2 (decoding_needs_nonempty_inputs toy_log
                         (toy_model false false false) 0 [[Tok 2]]
                         (Some toy_beam_states) None None toy_function 1 15
                         false)) H1 H2).
Defined.

Lemma linear_model_accepts_witness :
  exists r,
    LinearModel_forward (LinearModel_init [] [] [] [])
      (repeat (repeat (repeat 0%Q 45) 34) 512,
       repeat (repeat (repeat (repeat 0%Q 7) 7) 512) 75)
    = Ok r.
Proof.
  apply (proj2 (linear_model_accepts [] [] [] []
                  (repeat (repeat (repeat 0%Q 45) 34) 512)
                  (repeat (repeat (repeat (repeat 0%Q 7) 7) 512) 75)
                  512 34 45 75 512 7 7
                  (feat_shaped3_repeat 0 512 34 45)
                  (feat_shaped4_repeat 0 75 512 7 7) ltac:(lia))).
  repeat split; lia.
Defined.

Lemma linear_model_shapes_witness :
  exists global_feat global_hidden box_feat,
    LinearModel_forward (LinearModel_init [] [] [] [])
      (repeat (repeat (repeat 0%Q 45) 34) 512,
       repeat (repeat (repeat (repeat 0%Q 7) 7) 512) 75)
    = Ok (global_feat, global_hidden, box_feat) /\
    feat_shaped4 global_feat 1 1024 7 7 /\
    feat_shaped4 box_feat 75 1024 7 7 /\
    exists v, global_hidden = of_T1 v /\ length v = 1024%nat.
Proof.
  destruct (linear_model_shapes [] [] [] []
              (repeat (repeat (repeat 0%Q 45) 34) 512)
              (repeat (repeat (repeat (repeat 0%Q 7) 7) 512) 75)
              34 45 75 7 7
              (feat_shaped3_repeat 0 512 34 45) ltac:(lia) ltac:(lia)
              (feat_shaped4_repeat 0 75 512 7 7) ltac:(lia) ltac:(lia))
    as (g & gh & bf & E & S1 & S2 & V).
  exists g, gh, bf. split; [exact E|]. split; [exact S1|]. split; [exact S2|].
  apply (proj2 V). split; lia.
Defined.

Lemma box_features_pointwise_witness :
  exists global_feat global_hidden box_feat,
    LinearModel_forward (LinearModel_init [] [] [] [])
      (repeat (repeat (repeat 0%Q 45) 34) 512,
       repeat (repeat (repeat (repeat 0%Q 7) 7) 512) 75)
    = Ok (global_feat, global_hidden, box_feat) /\
    nth 6 (nth 6 (nth 1023 (nth 74 box_feat []) []) []) 0
    == nth 1023 [] 0 +
       sumQ (map (fun ch =>
                    nth 0 (nth 0 (nth ch (nth 1023 [] []) []) []) 0 *
                    nth 6 (nth 6 (nth ch
                      (nth 74 (repeat (repeat (repeat (repeat 0%Q 7) 7) 512) 75)
                           []) []) []) 0)
                 (seq 0 512)).
Proof.
  destruct (box_features_pointwise [] [] [] []
              (repeat (repeat (repeat 0%Q 45) 34) 512)
              (repeat (repeat (repeat (repeat 0%Q 7) 7) 512) 75)
              34 45 75 7 7
              (feat_shaped3_repeat 0 512 34 45) ltac:(lia) ltac:(lia)
              (feat_shaped4_repeat 0 75 512 7 7) ltac:(lia) ltac:(lia))
    as (g & gh & bf & E & P).
  exists g, gh, bf. split; [exact E|]. apply P; lia.
Defined.

Lemma global_hidden_corner_mean_witness :
  exists global_feat v box_feat,
    LinearModel_forward (LinearModel_init [] [] [] [])
      (repeat (repeat (repeat 0%Q 45) 34) 512,
       repeat (repeat (repeat (repeat 0%Q 7) 7) 512) 75)
    = Ok (global_feat, of_T1 v, box_feat) /\
    length v = 1024%nat.
Proof.
  destruct (global_hidden_corner_mean [] [] [] []
              (repeat (repeat (repeat 0%Q 45) 34) 512)
              (repeat (repeat (repeat (repeat 0%Q 7) 7) 512) 75)
              34 45 75 7 7
              (feat_shaped3_repeat 0 512 34 45) ltac:(lia) ltac:(lia)
              (feat_shaped4_repeat 0 75 512 7 7) ltac:(lia) ltac:(lia))
    as (g & v & bf & E & L & _).
  exists g, v, bf. split; [exact E | exact L].
Defined.

(** * The greedy loop, iteration by iteration *)

(** What a returning greedy loop of [n] iterations did: the inputs and the
    states of its iterations, the outputs and symbols it recorded. *)
Lemma greedy_loop_trace m enc f n : forall di inp hid st st' hid',
  greedy_loop m enc f n di inp hid st = Ok (st', hid') ->
  exists inps hids outs syms,
    length inps = S n /\ length hids = S n /\
    length outs = n /\ length syms = n /\
    nth 0 inps [] = inp /\ nth 0 hids None = hid /\ nth n hids None = hid' /\
    decoder_outputs st' = decoder_outputs st ++ outs /\
    sequence_symbols st' = sequence_symbols st ++ syms /\
    forall i, (i < n)%nat ->
      exists out h1 attn,
        forward_step m (nth i inps []) (nth i hids None) enc f
                     (Some (sequence_symbols st ++ firstn i syms))
        = Ok (out, h1, attn) /\
        nth i outs [] = squeeze1 out /\
        topk1 (squeeze1 out) = Ok (nth i syms []) /\
        nth (S i) inps []
        = (if use_prob_vector m
           then map (fun row => [Dist row]) (squeeze1 out)
           else map (map Tok) (nth i syms [])) /\
        nth (S i) hids None = Some h1.
Proof.
  induction n as [|n IH]; intros di inp hid st st' hid' H.
  - simpl in H. injection H as <- <-.
    exists [inp], [hid], [], []. rewrite !app_nil_r.
    repeat split; try reflexivity. intros i Hi. lia.
  - cbn [greedy_loop] in H.
    apply bind_ok in H. destruct H as ([[out h1] attn] & Hf & H).
    apply bind_ok in H. destruct H as ([st1 sy] & Hd & H).
    destruct (decode_inv _ _ _ _ _ _ _ Hd) as (Ho & Hs & _).
    pose proof (decode_symbols _ _ _ _ _ _ _ Hd) as Ht.
    destruct (IH _ _ _ _ _ _ H)
      as (inps & hids & outs & syms & Li & Lh & Lo & Ls & I0 & H0 & Hn & Eo & Es
          & Hstep).
    exists (inp :: inps), (hid :: hids), (squeeze1 out :: outs), (sy :: syms).
    simpl length. rewrite Li, Lh, Lo, Ls.
    repeat (split; [reflexivity|]).
    split; [exact Hn|].
    split; [rewrite Eo, Ho, <- app_assoc; reflexivity|].
    split; [rewrite Es, Hs, <- app_assoc; reflexivity|].
    intros [|i] Hi.
    + exists out, h1, attn. cbn [nth firstn]. rewrite app_nil_r.
      split; [exact Hf|]. split; [reflexivity|]. split; [exact Ht|].
      split; [|exact H0].
      rewrite I0. destruct (use_prob_vector m); reflexivity.
    + destruct (Hstep i ltac:(lia)) as (out' & h1' & attn' & Hf' & R1 & R2 & R3 & R4).
      exists out', h1', attn'. cbn [nth firstn].
      rewrite Hs, <- app_assoc in Hf'.
      repeat split; assumption.
Qed.

(** C8.  When teacher forcing does not fire and beam mode is off, [forward]
    returns after a strictly sequential loop of [max_length] iterations.
    With [M] the decode length fixed by validation there are [M] step
    outputs (none when [M] is negative) and no entry of the length vector
    exceeds [M].  The iterations are chained: the first runs [forward_step]
    on the first column of the inputs with the initial state; iteration
    [i] runs it on its input and state with the symbols of the iterations
    before it as history, records the squeezed result as output [i] and
    the positions [topk(1)] picks in it as symbols [i]; its chosen symbols
    (the output itself in probability-vector mode) and its new state are
    the input and the state of iteration [i+1]; the state after the last
    iteration is the one returned. *)
Theorem greedy_output_count log m V rnd inputs bs eh eo function tfr max_len
        semi_sup B inp b M :
  step_shaped m V -> (0 < V)%nat -> shape_preserving function ->
  beamSearchMode m = false ->
  ~ (rnd < tfr)%Q ->
  _validate_args (set_max_length m max_len) inputs eh eo tfr = Ok (inp, b, M) ->
  (0 < B)%nat -> length inp = B -> Forall (fun r => r <> []) inp ->
  bundle_batch bs B ->
  (exists dh, _init_state m eh = Ok dh) ->
  exists outs hid ret,
    snd (forward log m rnd inputs (Some bs) eh eo function tfr max_len semi_sup)
    = Ok (outs, hid, ret) /\
    length outs = Z.to_nat M /\
    length (ret_sequence ret) = Z.to_nat M /\
    length (ret_length ret) = B /\
    Forall (fun l => (l <= M)%Z) (ret_length ret) /\
    exists inps hids,
      length inps = S (Z.to_nat M) /\ length hids = S (Z.to_nat M) /\
      first_column inp = Ok (nth 0 inps []) /\
      _init_state m eh = Ok (nth 0 hids None) /\
      hid = nth (Z.to_nat M) hids None /\
      forall i, (i < Z.to_nat M)%nat ->
        exists out h1 attn,
          forward_step m (nth i inps []) (nth i hids None) eo function
                       (Some (firstn i (ret_sequence ret)))
          = Ok (out, h1, attn) /\
          nth i outs [] = squeeze1 out /\
          topk1 (nth i outs []) = Ok (nth i (ret_sequence ret) []) /\
          nth (S i) inps []
          = (if use_prob_vector m
             then map (fun row => [Dist row]) (nth i outs [])
             else map (map Tok) (nth i (ret_sequence ret) [])) /\
          nth (S i) hids None = Some h1.
Proof.
  intros Hs HV Hf Hbeam Hrnd Hval HB Hlen Hne Hbs (dh & Hdh).
  set (m' := set_max_length m max_len) in *.
  assert (Hs' : step_shaped m' V) by (apply step_shaped_set_max_length; exact Hs).
  destruct (bundle_batch_reads bs B Hbs) as (i0 & c0 & Ei & Si & Ec).
  destruct (first_column_total inp Hne) as (d & Ed & Ld & Wd).
  destruct (greedy_loop_total m' V function eo B (Z.to_nat M) 0 d dh
              (init_decode_state M (size1 i0)))
    as (st' & hid' & Eg); auto; try congruence.
  { simpl. unfold init_lengths. rewrite repeat_length. exact Si. }
  assert (Hrun := greedy_loop_run m' eo function (Z.to_nat M) 0 d dh _ _ _ Eg).
  assert (Hmono := decode_run_nonincreasing m' 0 _ _ _ Hrun eq_refl).
  apply decode_run_lengths in Hrun.
  destruct Hrun as (_ & Ll & Lq & Lo & _ & _).
  destruct (greedy_loop_trace m' eo function (Z.to_nat M) 0 d dh _ _ _ Eg)
    as (inps & hids & outs & syms & Li & Lh & Lou & Lsy & I0 & H0 & Hn & Eo & Es
        & Hstep).
  exists (decoder_outputs st'), hid',
    {| ret_attention_score :=
         if use_attention m' then Some (attention_score st') else None;
       ret_sequence := sequence_symbols st';
       ret_length := lengths st';
       ret_beamStates :=
         {| lm_probVec := [[]]; lm_hiddens := [c0]; lm_cells := [c0] |} |}.
  split.
  { unfold forward. simpl. fold m'. rewrite Hval. simpl.
    rewrite Ei. simpl.
    change (_init_state m' eh) with (_init_state m eh). rewrite Hdh. simpl.
    rewrite Ec. simpl.
    assert (Er : Qlt_bool rnd tfr = false).
    { destruct (Qlt_bool rnd tfr) eqn:E; [|reflexivity].
      apply Qlt_bool_iff in E. contradiction. }
    rewrite Er. change (beamSearchMode m') with (beamSearchMode m).
    rewrite Hbeam, Ed. simpl. rewrite Eg. reflexivity. }
  cbn [ret_sequence ret_length].
  simpl in Lq, Lo, Eo, Es, Ll.
  split; [lia|]. split; [lia|].
  split; [rewrite Ll; unfold init_lengths; rewrite repeat_length; exact Si|].
  split.
  { rewrite Forall_forall. intros l Hl.
    destruct (In_nth _ _ 0%Z Hl) as (k & Hk & <-).
    specialize (Hmono k). simpl in Hmono. unfold init_lengths in Hmono.
    rewrite Ll in Hk. unfold init_lengths in Hk. rewrite repeat_length in Hk.
    rewrite nth_repeat_lt in Hmono by exact Hk. exact Hmono. }
  exists inps, hids.
  split; [exact Li|]. split; [exact Lh|].
  split; [rewrite I0; exact Ed|].
  split; [rewrite H0; exact Hdh|].
  split; [symmetry; exact Hn|].
  intros i Hi.
  destruct (Hstep i Hi) as (out & h1 & attn & Hfs & R1 & R2 & R3 & R4).
  exists out, h1, attn. rewrite Eo, Es. rewrite R1.
  split; [exact Hfs|]. split; [reflexivity|]. split; [exact R2|].
  split; [exact R3 | exact R4].
Qed.

Lemma greedy_output_count_witness :
  exists outs hid ret,
    snd (forward toy_log (toy_model false false false) 0 None
                 (Some toy_beam_states) None None toy_function 0 4 false)
    = Ok (outs, hid, ret) /\
    length outs = Z.to_nat 4 /\
    Forall (fun l => (l <= 4)%Z) (ret_length ret).
Proof.
  destruct (greedy_output_count toy_log (toy_model false false false) 3 0 None
              toy_beam_states None None toy_function 0 4 false 1
              [[Tok 2]] 1 4)
    as (outs & hid & ret & E & L & _ & _ & F & _).
  - apply toy_step_shaped.
  - lia.
  - apply toy_function_shape.
  - reflexivity.
  - intros H. discriminate.
  - reflexivity.
  - lia.
  - reflexivity.
  - repeat constructor. discriminate.
  - exists [[(0, 2)]]%Z, [ [ [repeat 0%Q gather_width] ] ]. repeat split.
  - exists None. reflexivity.
  - exists outs, hid, ret. auto.
Defined.

(** * The stored decode length across calls *)

Lemma validate_args_default_length m eh eo tfr inp b M :
  _validate_args m None eh eo tfr = Ok (inp, b, M) -> M = max_length m.
Proof.
  intros H. unfold _validate_args in H.
  apply bind_ok in H. destruct H as (_ & _ & H).
  apply bind_ok in H. destruct H as (b' & _ & H).
  destruct (Qlt_bool 0 tfr); [discriminate|].
  apply bind_ok in H. destruct H as (i' & _ & H).
  injection H as _ _ <-. reflexivity.
Qed.

(** C10.  [forward] stores its [max_len] argument in the object before
    anything else, also when the call then fails, and the value stays
    there after the call: the constructor's value is gone.  A later call
    of [forward], however, stores its own [max_len] before validation reads
    the attribute: its outcome is the same as if the earlier call had never
    been made, and with inputs absent the decode length it uses is its own
    [max_len] - as many step outputs in greedy mode, that value in every
    entry of the length vector in beam mode.  The value an earlier call
    stored is what [_validate_args] reads only when it is called on the
    object directly, between two calls of [forward]. *)
Theorem forward_assigns_max_length log m rnd inputs beamStates eh eo function tfr
        max_len semi_sup :
  let m' := fst (forward log m rnd inputs beamStates eh eo function tfr max_len
                         semi_sup) in
  m' = set_max_length m max_len /\
  max_length m' = max_len /\
  (forall c,
     forward log (set_max_length m c) rnd inputs beamStates eh eo function tfr
             max_len semi_sup
     = forward log m rnd inputs beamStates eh eo function tfr max_len semi_sup) /\
  (forall rnd2 inputs2 beamStates2 eh2 eo2 function2 tfr2 max_len2 semi_sup2,
     forward log m' rnd2 inputs2 beamStates2 eh2 eo2 function2 tfr2 max_len2
             semi_sup2
     = forward log m rnd2 inputs2 beamStates2 eh2 eo2 function2 tfr2 max_len2
               semi_sup2) /\
  (forall rnd2 beamStates2 eh2 eo2 function2 tfr2 max_len2 semi_sup2 outs hid ret,
     snd (forward log m' rnd2 None beamStates2 eh2 eo2 function2 tfr2 max_len2
                  semi_sup2) = Ok (outs, hid, ret) ->
     (exists inp b,
        _validate_args (set_max_length m' max_len2) None eh2 eo2 tfr2
        = Ok (inp, b, max_len2)) /\
     (beamSearchMode m = false -> ~ (rnd2 < tfr2)%Q ->
      length outs = Z.to_nat max_len2) /\
     (beamSearchMode m = true -> ~ (rnd2 < tfr2)%Q ->
      Forall (fun l => l = max_len2) (ret_length ret))) /\
  (forall eh2 eo2 tfr2 inputs' batch_size decode_length,
     _validate_args m' None eh2 eo2 tfr2 = Ok (inputs', batch_size, decode_length) ->
     decode_length = max_len) /\
  (forall rnd2 inputs2 beamStates2 eh2 eo2 function2 tfr2 max_len2 semi_sup2,
     max_length (fst (forward log m' rnd2 inputs2 beamStates2 eh2 eo2 function2
                              tfr2 max_len2 semi_sup2)) = max_len2).
Proof.
  cbv zeta.
  change (fst (forward log m rnd inputs beamStates eh eo function tfr max_len
                       semi_sup)) with (set_max_length m max_len).
  split; [reflexivity|]. split; [reflexivity|].
  split; [|split; [|split; [|split]]].
  - intros c. unfold forward.
    change (set_max_length (set_max_length m c) max_len)
      with (set_max_length m max_len).
    reflexivity.
  - intros. unfold forward.
    change (set_max_length (set_max_length m max_len) max_len2)
      with (set_max_length m max_len2).
    reflexivity.
  - intros rnd2 bs2 eh2 eo2 f2 tfr2 max_len2 ss2 outs hid ret H.
    destruct (forward_inv _ _ _ _ _ _ _ _ _ _ _ _ H) as (inp & b & M & Hv & Hr).
    assert (EM : M = max_len2)
      by exact (validate_args_default_length _ _ _ _ _ _ _ Hv).
    subst M.
    split; [exists inp, b; exact Hv|].
    destruct (run_modes_inv _ _ _ _ _ _ _ _ _ _ _ _ _ Hr)
      as (bs & inds0 & c0 & dh & st & _ & _ & _ & _ & Eo & _ & El & _ & Hmode).
    cbv zeta in Hmode.
    change (beamSearchMode (set_max_length (set_max_length m max_len) max_len2))
      with (beamSearchMode m) in Hmode.
    split.
    + intros Hb Hn.
      destruct Hmode as [(Ht & _) | [(_ & Hb' & _) | (_ & _ & _ & d & _ & Hg)]].
      * apply Qlt_bool_iff in Ht. contradiction.
      * congruence.
      * apply greedy_loop_run in Hg. apply decode_run_lengths in Hg.
        destruct Hg as (_ & _ & _ & Lo & _). simpl in Lo. rewrite Eo. lia.
    + intros Hb Hn.
      destruct Hmode as [(Ht & _) | [(_ & _ & Est & _) | (_ & Hb' & _)]].
      * apply Qlt_bool_iff in Ht. contradiction.
      * rewrite El, Est. simpl. unfold init_lengths.
        apply Forall_forall. intros l Hl. apply repeat_spec in Hl. exact Hl.
      * congruence.
  - intros eh2 eo2 tfr2 i b M H.
    exact (validate_args_default_length _ _ _ _ _ _ _ H).
  - intros. reflexivity.
Qed.

Lemma forward_assigns_max_length_witness :
  max_length (toy_model false false false) = 7%Z /\
  max_length (fst (forward toy_log (toy_model false false false) 0 None None
                           None None toy_function 0 15 false)) = 15%Z /\
  _validate_args
    (fst (forward toy_log (toy_model false false false) 0 None None None None
                  toy_function 0 15 false)) None None None 0
  = Ok ([[Tok 2]], 1%nat, 15%Z).
Proof.
  destruct (forward_assigns_max_length toy_log (toy_model false false false) 0
              None None None None toy_function 0 15 false)
    as (_ & H2 & _ & _ & _ & H6 & _).
  split; [reflexivity|]. split; [exact H2|]. reflexivity.
Defined.

(** C10 (counterexample).  The small decoder is built with maximum length
    7.  A first call of [forward] with [max_len] 5 leaves 5 in the object.
    A second call without inputs, with [max_len] at its default 15, does
    not decode 5 steps: it returns 15 step outputs, and 15 is then what the
    object holds. *)
Lemma later_call_ignores_stored_max_length :
  max_length (toy_model false false false) = 7%Z /\
  max_length (fst (forward toy_log (toy_model false false false) 0 None
                           (Some toy_beam_states) None None toy_function 0 5
                           false)) = 5%Z /\
  (exists outs hid ret,
     snd (forward toy_log
            (fst (forward toy_log (toy_model false false false) 0 None
                          (Some toy_beam_states) None None toy_function 0 5
                          false))
            0 None (Some toy_beam_states) None None toy_function 0 15 false)
     = Ok (outs, hid, ret) /\
     length outs = 15%nat /\ length outs <> 5%nat) /\
  max_length
    (fst (forward toy_log
            (fst (forward toy_log (toy_model false false false) 0 None
                          (Some toy_beam_states) None None toy_function 0 5
                          false))
            0 None (Some toy_beam_states) None None toy_function 0 15 false))
  = 15%Z.
Proof.
  split; [reflexivity|]. split; [reflexivity|]. split; [|reflexivity].
  do 3 eexists. split; [vm_compute; reflexivity|].
  split; [reflexivity | discriminate].
Qed.

(** * The state handed to a beam step *)

Lemma nth_error_combine_seq {A} (l : list A) : forall s b x,
  nth_error l b = Some x ->
  nth_error (combine (seq s (length l)) l) b = Some ((s + b)%nat, x).
Proof.
  induction l as [|y l IH]; intros s b x H; [destruct b; discriminate|].
  destruct b as [|b]; simpl in *.
  - injection H as ->. rewrite Nat.add_0_r. reflexivity.
  - rewrite (IH (S s) b x H). f_equal. f_equal. lia.
Qed.

Lemma nth_res_inv {A} i (l : list A) a d :
  nth_res i l = Ok a -> (i < length l)%nat /\ a = nth i l d.
Proof.
  intros H. apply nth_res_ok in H. split.
  - apply nth_error_Some. congruence.
  - symmetry. apply nth_error_nth. exact H.
Qed.

(** What a returning gather read. *)
Lemma gather0_inv src index g :
  gather0 src index = Ok g ->
  exists rows,
    g = [rows] /\ length rows = length index /\
    forall b, (b < length index)%nat ->
      length (nth b rows []) = length (nth b index []) /\
      forall j, (j < length (nth b index []))%nat ->
        (0 <= nth j (nth b index []) 0)%Z /\
        (j < length (nth b (nth (Z.to_nat (nth j (nth b index []) 0%Z)) src [])
                         []))%nat /\
        nth j (nth b rows []) 0%Q
        = nth j (nth b (nth (Z.to_nat (nth j (nth b index []) 0%Z)) src []) [])
              0%Q.
Proof.
  unfold gather0. intros H.
  apply bind_ok in H. destruct H as (rows & Hm & H). injection H as <-.
  exists rows. split; [reflexivity|].
  pose proof (mapM_ok_length _ _ _ Hm) as L.
  rewrite length_combine, length_seq, Nat.min_id in L.
  split; [exact L|].
  intros b Hb.
  assert (Eb : nth_error index b = Some (nth b index []))
    by (apply nth_error_nth'; exact Hb).
  destruct (mapM_ok_nth _ _ _ Hm b _ (nth_error_combine_seq index 0 b _ Eb))
    as (row & Er & Hrow).
  cbv beta iota in Hrow. rewrite Nat.add_0_l in Hrow.
  rewrite (nth_error_nth _ _ [] Er).
  pose proof (mapM_ok_length _ _ _ Hrow) as Lr.
  rewrite length_combine, length_seq, Nat.min_id in Lr.
  split; [exact Lr|].
  intros j Hj.
  assert (Ej : nth_error (nth b index []) j = Some (nth j (nth b index []) 0%Z))
    by (apply nth_error_nth'; exact Hj).
  destruct (mapM_ok_nth _ _ _ Hrow j _
              (nth_error_combine_seq (nth b index []) 0 j _ Ej))
    as (q & Eq & Hq).
  cbv beta iota in Hq. rewrite Nat.add_0_l in Hq.
  rewrite (nth_error_nth _ _ 0%Q Eq).
  destruct (Z.leb_spec 0 (nth j (nth b index []) 0%Z)) as [Hpos|]; [|discriminate].
  apply bind_ok in Hq. destruct Hq as (plane & Hp & Hq).
  apply bind_ok in Hq. destruct Hq as (r & Hr & Hq).
  destruct (nth_res_inv _ _ _ ([] : list (list Q)) Hp) as [_ ->].
  destruct (nth_res_inv _ _ _ ([] : list Q) Hr) as [_ ->].
  destruct (nth_res_inv _ _ _ 0%Q Hq) as [Hlt ->].
  repeat split; assumption.
Qed.

(** The gather index of a batch of [B] parents, whenever it is built. *)
Lemma hidGathInds_inv parents (B : nat) idx :
  hidGathInds parents B = Ok idx -> length parents = B ->
  (0 < B)%nat /\ length idx = B /\
  Forall (fun row => length row = gather_width) idx /\
  forall b j, (b < B)%nat -> (j < gather_width)%nat ->
    nth j (nth b idx []) 0%Z = nth ((b * gather_width + j) mod B) parents 0%Z.
Proof.
  intros H L.
  assert (HB : (0 < B)%nat).
  { unfold hidGathInds in H. cbv zeta in H.
    destruct (Nat.eqb_spec B 0) as [E|N]; [discriminate | lia]. }
  set (tiled := concat (repeat parents gather_width)).
  assert (Hrep : Forall (fun r : list Z => length r = B) (repeat parents gather_width)).
  { rewrite Forall_forall. intros r Hr. apply repeat_spec in Hr. subst r. exact L. }
  assert (Lt : length tiled = (gather_width * B)%nat).
  { unfold tiled. rewrite (length_concat_uniform B _ Hrep), repeat_length.
    reflexivity. }
  assert (Hn : forall i, (i < gather_width * B)%nat ->
             nth i tiled 0%Z = nth (i mod B) parents 0%Z).
  { intros i Hi. unfold tiled.
    rewrite (nth_concat_uniform 0%Z B _ Hrep) by (rewrite repeat_length; exact Hi).
    rewrite (nth_repeat_lt parents []); [reflexivity|].
    apply Nat.Div0.div_lt_upper_bound. lia. }
  assert (E : idx = chunk B gather_width tiled).
  { unfold hidGathInds in H. fold tiled in H. cbv zeta in H. rewrite Lt in H.
    destruct (Nat.eqb_spec B 0) as [E0|_]; [lia|].
    rewrite Nat.Div0.mod_mul, Nat.div_mul in H by lia.
    rewrite Nat.eqb_refl in H. injection H as <-. reflexivity. }
  subst idx.
  split; [exact HB|]. split; [apply length_chunk|].
  split; [apply chunk_widths; rewrite Lt; apply Nat.mul_comm|].
  intros b j Hb Hj. rewrite nth_chunk by assumption. apply Hn. nia.
Qed.

(** X16.  The state a beam step hands to [forward_step] for hypothesis [k]
    (lines 206-207), for a batch of [B] elements.  Whenever the expansion
    returns, the hidden and the cell state passed are [B] rows of 1024
    units each, whatever the hidden width, which must reach 1024 at the
    entries read; unit [j] of row [b] is unit [j] of row [b] of the state
    of the hypothesis that is the parent of batch element
    [(b * 1024 + j) mod B]: for more than one batch element a row mixes the
    parents of the other elements into its own. *)
Theorem beam_step_state_gather m (B : nat) eo f hid0 cell0 inds n k dh r hyp :
  expand_hyps m B eo f hid0 cell0 inds (S n) k dh = Ok r ->
  nth_error inds k = Some hyp -> length hyp = B ->
  exists gh gc out hidden' attn,
    forward_step m (map (fun p => [Tok (snd p)]) hyp)
                 (Some (HTuple [gh] [gc])) eo f None
    = Ok (out, hidden', attn) /\
    length gh = B /\ length gc = B /\
    forall b, (b < B)%nat ->
      length (nth b gh []) = gather_width /\
      length (nth b gc []) = gather_width /\
      forall j, (j < gather_width)%nat ->
        let parent :=
          nth ((b * gather_width + j) mod B) (map fst hyp) 0%Z in
        (0 <= parent)%Z /\
        (j < length (nth b (nth (Z.to_nat parent) hid0 []) []))%nat /\
        (j < length (nth b (nth (Z.to_nat parent) cell0 []) []))%nat /\
        nth j (nth b gh []) 0%Q
        = nth j (nth b (nth (Z.to_nat parent) hid0 []) []) 0%Q /\
        nth j (nth b gc []) 0%Q
        = nth j (nth b (nth (Z.to_nat parent) cell0 []) []) 0%Q.
Proof.
  intros H Hk HL. cbn [expand_hyps] in H.
  apply bind_ok in H. destruct H as (hyp' & Hh & H).
  apply nth_res_ok in Hh. rewrite Hk in Hh. injection Hh as <-.
  apply bind_ok in H. destruct H as (idx & Hi & H).
  apply bind_ok in H. destruct H as (gh3 & Hgh & H).
  apply bind_ok in H. destruct H as (gc3 & Hgc & H).
  apply bind_ok in H. destruct H as ([[out hidden'] attn] & Hf & _).
  destruct (hidGathInds_inv _ _ _ Hi ltac:(rewrite length_map; exact HL))
    as (HB & Li & Wi & Ei).
  destruct (gather0_inv _ _ _ Hgh) as (gh & -> & Lgh & Rgh).
  destruct (gather0_inv _ _ _ Hgc) as (gc & -> & Lgc & Rgc).
  exists gh, gc, out, hidden', attn.
  split; [exact Hf|]. split; [congruence|]. split; [congruence|].
  intros b Hb. rewrite <- Li in Hb.
  destruct (Rgh b Hb) as [Wgh Egh]. destruct (Rgc b Hb) as [Wgc Egc].
  assert (Wb : length (nth b idx []) = gather_width).
  { rewrite Forall_forall in Wi. apply Wi. apply nth_In. exact Hb. }
  rewrite Wb in *.
  split; [exact Wgh|]. split; [exact Wgc|].
  intros j Hj. cbv zeta.
  rewrite Li in Hb.
  destruct (Egh j Hj) as (P1 & P2 & P3). destruct (Egc j Hj) as (_ & P5 & P6).
  rewrite (Ei b j Hb Hj) in P1, P2, P3, P5, P6.
  repeat split; assumption.
Qed.

Lemma beam_step_state_gather_witness :
  exists gh gc out hidden' attn,
    forward_step (toy_model true false false)
                 (map (fun p => [Tok (snd p)]) [(0, 2)]%Z)
                 (Some (HTuple [gh] [gc])) None toy_function None
    = Ok (out, hidden', attn) /\
    length gh = 1%nat /\ length gc = 1%nat.
Proof.
  destruct (expand_hyps (toy_model true false false) 1 None toy_function
                        [[repeat 0%Q gather_width]] [[repeat 0%Q gather_width]]
                        [[(0, 2)]]%Z 1 0 None) as [r|e] eqn:E;
    [|vm_compute in E; discriminate E].
  destruct (beam_step_state_gather (toy_model true false false) 1 None
              toy_function [[repeat 0%Q gather_width]]
              [[repeat 0%Q gather_width]] [[(0, 2)]]%Z 0 0 None r [(0, 2)]%Z E
              eq_refl eq_refl)
    as (gh & gc & out & hidden' & attn & Hf & L1 & L2 & _).
  exists gh, gc, out, hidden', attn. auto.
Defined.
